(** * three-volumetric-pass: the raymarching fragment shader, over exact reals

    A shallow embedding of [volumetric.frag] (the slab clipper, the density
    field, the colour model and the integrator [march]) together with the
    properties the specification states about them.

    Modelling choices.
    - GLSL [float] is embedded as Stdlib's [R]: a statement about this
      embedding is a statement of exact real arithmetic (no rounding, no
      NaN, no infinity).
    - GLSL leaves some results undefined ([pow] of a negative base or of
      [0] with a non-positive exponent, [smoothstep] with [edge0 >= edge1],
      a division by zero).  Such a result is an unspecified real, supplied
      by the record [Glsl]; theorems quantify over every such record.
    - Two further embeddings show what this one hides.  [Partial] is the
      density field with every undefined result tracked as [None], which,
      unlike an unspecified real, a multiplication by [0] does not remove.
      [Float32] is the slab clipper in IEEE 754 binary32, where a moved
      endpoint is rounded.
    - GLSL [int] is embedded as [Z], additions wrapping at 32 bits.
    - Textures are functions returning the red channel.
    - The shader is compiled with [DO_LIGHTING 0]: [computeColor] returns the
      base fog colour, and the [gradient] out-parameter, which no function
      ever writes, is not represented.
    - [main] and [computeWorldPosFromDepth] only produce the two endpoints
      [march] is called with; [march] is the entry point here.
    - The [while] loop of [march] takes fuel; [march_loop_terminates] shows
      that [march_fuel] is enough whenever the cap is below [INT_MAX]. *)

From Stdlib Require Import Reals Lra Lia ZArith List Bool.
From Stdlib Require Strings.String.
From Stdlib Require Floats.SpecFloat.
Import ListNotations.

Local Open Scope R_scope.

(* ------------------------------------------------------------------ *)
(** ** Vectors *)

Record vec3 : Type := Vec3 { vx : R; vy : R; vz : R }.
Record vec4 : Type := Vec4 { cr : R; cg : R; cb : R; ca : R }.
Record ivec2 : Type := IVec2 { ix : Z; iy : Z }.

Definition vadd (a b : vec3) : vec3 :=
  Vec3 (vx a + vx b) (vy a + vy b) (vz a + vz b).

Definition vsub (a b : vec3) : vec3 :=
  Vec3 (vx a - vx b) (vy a - vy b) (vz a - vz b).

Definition vscale (a : vec3) (k : R) : vec3 :=
  Vec3 (vx a * k) (vy a * k) (vz a * k).

Definition vzero : vec3 := Vec3 0 0 0.

(** [length(v)] *)
Definition vlength (a : vec3) : R :=
  sqrt (vx a * vx a + vy a * vy a + vz a * vz a).

(** [a == b] on [vec3]: all components equal. *)
Definition vec3_eq_dec (a b : vec3) : {a = b} + {a <> b}.
Proof.
  destruct a as [ax ay az], b as [bx by_ bz].
  destruct (Req_dec_T ax bx) as [Hx | Hx];
    [ destruct (Req_dec_T ay by_) as [Hy | Hy];
      [ destruct (Req_dec_T az bz) as [Hz | Hz] | ] | ].
  - left. subst. reflexivity.
  - right. intros E. inversion E. contradiction.
  - right. intros E. inversion E. contradiction.
  - right. intros E. inversion E. contradiction.
Defined.

Definition Rltb (a b : R) : bool := if Rlt_dec a b then true else false.

(* ------------------------------------------------------------------ *)
(** ** GLSL built-ins *)

(** The values an implementation returns where GLSL says "results are
    undefined". *)
Record Glsl : Type := {
  undef_div : R -> R;                    (* x / 0 *)
  undef_pow : R -> R -> R;               (* pow x y, x < 0 or x = 0 /\ y <= 0 *)
  undef_smoothstep : R -> R -> R -> R    (* smoothstep e0 e1 x, e0 >= e1 *)
}.

Section Builtins.
Variable g : Glsl.

Definition fdiv (x y : R) : R :=
  if Req_dec_T y 0 then undef_div g x else x / y.

Definition clamp (x lo hi : R) : R := Rmin (Rmax x lo) hi.

Definition mix (x y a : R) : R := x * (1 - a) + y * a.

Definition vmix (x y : vec3) (a : R) : vec3 :=
  Vec3 (mix (vx x) (vx y) a) (mix (vy x) (vy y) a) (mix (vz x) (vz y) a).

Definition smoothstep (edge0 edge1 x : R) : R :=
  if Rlt_dec edge0 edge1 then
    let t := clamp ((x - edge0) / (edge1 - edge0)) 0 1 in
    t * t * (3 - 2 * t)
  else undef_smoothstep g edge0 edge1 x.

Definition pow (x y : R) : R :=
  if Rlt_dec 0 x then Rpower x y
  else if Req_dec_T x 0 then
         if Rlt_dec 0 y then 0 else undef_pow g x y
       else undef_pow g x y.

(** [normalize(v) = v / length(v)] *)
Definition normalize (v : vec3) : vec3 :=
  let l := vlength v in
  Vec3 (fdiv (vx v) l) (fdiv (vy v) l) (fdiv (vz v) l).
End Builtins.

(** 32-bit two's complement wrap-around of [int] arithmetic. *)
Definition wrap32 (z : Z) : Z := ((z + 2 ^ 31) mod 2 ^ 32 - 2 ^ 31)%Z.
Definition int_add (a b : Z) : Z := wrap32 (a + b).
Definition INT_MAX : Z := (2 ^ 31 - 1)%Z.

(* ------------------------------------------------------------------ *)
(** ** Uniforms *)

Record Uniforms : Type := {
  blueNoise : ivec2 -> R;            (* texelFetch(blueNoise, p, 0).r *)
  noiseTexture : vec3 -> R;          (* texture(noiseTexture, p).r *)
  curTimeSeconds : R;
  fogMinY : R;
  fogMaxY : R;
  baseRaymarchStepCount : Z;
  maxRaymarchStepCount : Z;
  baseMaxRayLength : R;
  minStepLength : R;
  maxDensity : R;
  fogColorHighDensity : vec3;
  fogColorLowDensity : vec3;
  blueNoiseResolution : Z;
  fogFadeOutPow : R;
  fogFadeOutRangeY : R;
  fogDensityMultiplier : R;
  heightFogStartY : R;
  heightFogEndY : R;
  heightFogFactor : R;
  noiseBias : R;
  noisePow : R;
  noiseMovementPerSecond : R * R;
  postDensityMultiplier : R;
  postDensityPow : R;
  globalScale : R
}.

Definition OCTAVE_COUNT : nat := 6.
Definition LODWeights : list R := [1; 0.3; 0.2; 0.1; 0.06; 0.035].
Definition LODScales : list R := [0.1; 0.3; 0.6; 1.2; 2.2; 4.1].

(* ------------------------------------------------------------------ *)
(** ** Logging of plane intersections

    [clipRayEndpoints] is the only caller of [intersectRayXZPlane], whose
    body divides by [rayDirection.y].  Each call is recorded, so that the
    claim "no plane-intersection parameter is computed" is a statement
    about the log. *)

Record PlaneQuery : Type := {
  pq_origin : vec3;
  pq_direction : vec3;
  pq_plane : R
}.

Definition Logged (A : Type) : Type := (A * list PlaneQuery)%type.

Definition ret {A : Type} (a : A) : Logged A := (a, []).

Definition bind {A B : Type} (m : Logged A) (f : A -> Logged B) : Logged B :=
  let (a, l1) := m in
  let (b, l2) := f a in
  (b, l1 ++ l2).

Notation "x <- m ;; k" := (bind m (fun x => k))
  (at level 61, m at next level, right associativity).

(* ------------------------------------------------------------------ *)
(** ** The shader *)

Section Shader.
Variable g : Glsl.
Variable u : Uniforms.

(** *** DensityField *)

Definition sampleFogFromNoise (worldPos : vec3) : R :=
  noiseTexture u (vscale worldPos 0.006) * 2 - 1.

(** Returns the weighted sample and the updated [totalSampledMagnitude]. *)
Definition sampleFogDensityLOD (worldPos : vec3) (totalSampledMagnitude : R)
    (lod : nat) : R * R :=
  let weight := nth lod LODWeights 0 in
  let scale := nth lod LODScales 0 * globalScale u in
  let totalSampledMagnitude := totalSampledMagnitude + weight in
  let noise := sampleFogFromNoise (vscale worldPos scale) in
  (noise * weight, totalSampledMagnitude).

Definition computeFadeOutYFactor (y : R) : R :=
  1 - pow g (smoothstep g (fogMaxY u - fogFadeOutRangeY u) (fogMaxY u) y)
            (fogFadeOutPow u).

(** The octave loop: [(noise, totalSampledMagnitude)] threaded through
    [octave = 0 .. OCTAVE_COUNT - 1]. *)
Definition octaves (worldPos : vec3) (noise : R) : R * R :=
  fold_left
    (fun (acc : R * R) (octave : nat) =>
       let (v, total) := sampleFogDensityLOD worldPos (snd acc) octave in
       (fst acc + v, total))
    (seq 0 OCTAVE_COUNT) (noise, 0).

Definition sampleFogDensity (worldPos : vec3) : R :=
  let noise := noiseBias u in
  let worldPos :=
    vadd worldPos
         (vscale (Vec3 (fst (noiseMovementPerSecond u)) 0
                       (snd (noiseMovementPerSecond u)))
                 (curTimeSeconds u)) in
  let noise := fst (octaves worldPos noise) in
  let noise := noise * 0.5 + 0.5 in
  let noise := clamp noise (-1) 1 in
  let noise := pow g noise (noisePow u) in
  let noise :=
    if Rle_dec (vy worldPos) (heightFogEndY u) then
      let noiseFactor :=
        1 - smoothstep g (heightFogStartY u) (heightFogEndY u) (vy worldPos) in
      noise + noiseFactor * heightFogFactor u
    else noise in
  let fadeOutFactor := computeFadeOutYFactor (vy worldPos) in
  noise * fadeOutFactor.

(** *** SlabClipper *)

Definition intersectRayXZPlane (rayOrigin rayDirection : vec3)
    (planeDistance : R) : Logged R :=
  (fdiv g (- (vy rayOrigin - planeDistance)) (vy rayDirection),
   [ {| pq_origin := rayOrigin; pq_direction := rayDirection;
        pq_plane := planeDistance |} ]).

(** [inout startPos, inout endPos]: the pair of final values is returned. *)
Definition clipRayEndpoints (startPos endPos : vec3)
    : Logged (vec3 * vec3) :=
  if (Rltb (vy startPos) (fogMinY u) && Rltb (vy endPos) (fogMinY u))
     || (Rltb (fogMaxY u) (vy startPos) && Rltb (fogMaxY u) (vy endPos))
  then ret (endPos, endPos)
  else
    let rayDir := normalize g (vsub endPos startPos) in
    startPos <-
      (if Rlt_dec (vy startPos) (fogMinY u) then
         t <- intersectRayXZPlane startPos rayDir (fogMinY u) ;;
         ret (vadd startPos (vscale rayDir t))
       else ret startPos) ;;
    endPos <-
      (if Rlt_dec (vy endPos) (fogMinY u) then
         t <- intersectRayXZPlane startPos rayDir (fogMinY u) ;;
         ret (vadd startPos (vscale rayDir t))
       else ret endPos) ;;
    endPos <-
      (if Rlt_dec (fogMaxY u) (vy endPos) then
         t <- intersectRayXZPlane startPos rayDir (fogMaxY u) ;;
         ret (vadd startPos (vscale rayDir t))
       else ret endPos) ;;
    startPos <-
      (if Rlt_dec (fogMaxY u) (vy startPos) then
         t <- intersectRayXZPlane startPos rayDir (fogMaxY u) ;;
         ret (vadd startPos (vscale rayDir t))
       else ret startPos) ;;
    ret (startPos, endPos).

(** The clipped segment, the log dropped. *)
Definition clipped (startPos endPos : vec3) : vec3 * vec3 :=
  fst (clipRayEndpoints startPos endPos).

(** *** ColorModel ([DO_LIGHTING 0]) *)

Definition computeColor (curPos : vec3) (density : R) : vec3 :=
  vmix (fogColorLowDensity u) (fogColorHighDensity u)
       (clamp (density * 12) 0 1).

(** *** Integrator *)

(** [inout accumulatedColor, inout accumulatedDensity]: the pair of final
    values is returned. *)
Definition sampleOneStep (totalDistance stepSize : R)
    (startPos rayDir accumulatedColor : vec3) (accumulatedDensity : R)
    : vec3 * R :=
  let curPos := vadd startPos (vscale rayDir totalDistance) in
  let rawDensity := sampleFogDensity curPos in
  let density := rawDensity * stepSize * fogDensityMultiplier u in
  if Rgt_dec rawDensity 0.01 then
    let color := computeColor curPos rawDensity in
    let remainingOpacity := 1 - accumulatedDensity in
    (vadd accumulatedColor (vscale (vscale color density) remainingOpacity),
     accumulatedDensity + density * remainingOpacity)
  else (accumulatedColor, accumulatedDensity).

(** The locals of [march] that are fixed once the loop starts. *)
Record Ray : Type := {
  rayStart : vec3;          (* startPos, jittered *)
  rayDir : vec3;
  maxRayLength : R;
  rayLength : R;            (* after the clamp to maxRayLength *)
  baseStepLength : R;
  jitter : R
}.

(** [march] up to the loop; [None] is the early [return vec4(0.0)]. *)
Definition march_init (startPos endPos : vec3) (screenCoord : ivec2)
    : option Ray :=
  let (startPos, endPos) := clipped startPos endPos in
  if vec3_eq_dec startPos endPos then None
  else
    let rayDir := normalize g (vsub endPos startPos) in
    let rayLength := vlength (vsub endPos startPos) in
    let maxRayLength := baseMaxRayLength u in
    let maxRayLength := maxRayLength + Rmin (rayLength * 0.2) 1500 in
    let rayLength :=
      if Rgt_dec rayLength maxRayLength then maxRayLength else rayLength in
    let baseStepLength :=
      fdiv g rayLength (IZR (baseRaymarchStepCount u)) in
    let blueNoiseSample :=
      blueNoise u (IVec2 (Z.rem (ix screenCoord) (blueNoiseResolution u))
                         (Z.rem (iy screenCoord) (blueNoiseResolution u))) in
    let jitter := (blueNoiseSample - 0.5) * 0.1 in
    let startPos := vadd startPos (vscale rayDir jitter) in
    Some {| rayStart := startPos; rayDir := rayDir;
            maxRayLength := maxRayLength; rayLength := rayLength;
            baseStepLength := baseStepLength; jitter := jitter |}.

(** The locals the loop updates. *)
Record MarchState : Type := {
  totalDistance : R;
  totalIters : Z;
  accumulatedColor : vec3;
  density : R
}.

Definition initState : MarchState :=
  {| totalDistance := 0; totalIters := 0%Z;
     accumulatedColor := vzero; density := 0 |}.

Definition stepLength (r : Ray) : R :=
  Rmax (baseStepLength r) (minStepLength u) + jitter r * 0.2.

(** One loop body, from [totalIters += 1] to [totalDistance += stepLength]. *)
Definition body (r : Ray) (st : MarchState) : MarchState :=
  let iters := int_add (totalIters st) 1 in
  let (color, dens) :=
    sampleOneStep (totalDistance st) (stepLength r) (rayStart r) (rayDir r)
                  (accumulatedColor st) (density st) in
  {| totalDistance := totalDistance st + stepLength r;
     totalIters := iters;
     accumulatedColor := color;
     density := dens |}.

Inductive Step : Type :=
| Continue (st : MarchState)   (* body executed, loop goes on *)
| Break (st : MarchState)      (* body executed, [break] *)
| Exit                         (* loop condition false *)
| Capped.                      (* [return vec4(1., 1., 0., 1.)] *)

Definition iteration (r : Ray) (st : MarchState) : Step :=
  if Rlt_dec (totalDistance st) (rayLength r) then
    if (totalIters st >? maxRaymarchStepCount u)%Z then Capped
    else
      let st' := body r st in
      if Rge_dec (density st') (maxDensity u - 0.01) then Break st'
      else Continue st'
  else Exit.

Inductive LoopEnd : Type :=
| Done (st : MarchState)
| IterationCapped.

(** The [while] loop.  The first component lists the state after each
    executed body, in order; the second is how the loop was left, [None]
    when [fuel] bodies did not suffice. *)
Fixpoint march_run (fuel : nat) (r : Ray) (st : MarchState)
    : list MarchState * option LoopEnd :=
  match fuel with
  | O => ([], None)
  | S fuel' =>
      match iteration r st with
      | Continue st' =>
          let (tr, e) := march_run fuel' r st' in (st' :: tr, e)
      | Break st' => ([st'], Some (Done st'))
      | Exit => ([], Some (Done st))
      | Capped => ([], Some IterationCapped)
      end
  end.

Definition march_trace (fuel : nat) (r : Ray) : list MarchState :=
  fst (march_run fuel r initState).

Definition march_loop (fuel : nat) (r : Ray) : option LoopEnd :=
  snd (march_run fuel r initState).

Definition clamp4 (v : vec4) (lo hi : R) : vec4 :=
  Vec4 (clamp (cr v) lo hi) (clamp (cg v) lo hi)
       (clamp (cb v) lo hi) (clamp (ca v) lo hi).

Definition march (fuel : nat) (startPos endPos : vec3) (screenCoord : ivec2)
    : option vec4 :=
  match march_init startPos endPos screenCoord with
  | None => Some (Vec4 0 0 0 0)
  | Some r =>
      match march_loop fuel r with
      | None => None
      | Some IterationCapped => Some (Vec4 1 1 0 1)
      | Some (Done st) =>
          let density :=
            pow g (density st * postDensityMultiplier u) (postDensityPow u) in
          let c := accumulatedColor st in
          Some (clamp4 (Vec4 (vx c) (vy c) (vz c) density) 0 1)
      end
  end.

(** Enough fuel for any run whose cap is below [INT_MAX]. *)
Definition march_fuel : nat := S (Z.to_nat (maxRaymarchStepCount u + 1)).
End Shader.

(* ------------------------------------------------------------------ *)
(** ** Default uniforms

    The values [VolumetricMaterial]'s constructor gives the uniforms; the
    two textures and the time are arguments. *)

Definition defaultUniforms (blue : ivec2 -> R) (noise : vec3 -> R)
    (time : R) : Uniforms :=
  {| blueNoise := blue;
     noiseTexture := noise;
     curTimeSeconds := time;
     fogMinY := -40;
     fogMaxY := 4.4;
     baseRaymarchStepCount := 80;
     maxRaymarchStepCount := 400;
     baseMaxRayLength := 300;
     minStepLength := 0.2;
     maxDensity := 1;
     fogColorHighDensity := Vec3 0.32 0.35 0.38;
     fogColorLowDensity := Vec3 0.9 0.9 0.9;
     blueNoiseResolution := 256;
     fogFadeOutPow := 1;
     fogFadeOutRangeY := 1.5;
     fogDensityMultiplier := 0.086;
     heightFogStartY := -10;
     heightFogEndY := 8;
     heightFogFactor := 0.1852;
     noiseBias := 0.485;
     noisePow := 3;
     noiseMovementPerSecond := (1.2, 0.8);
     postDensityMultiplier := 1.2;
     postDensityPow := 1;
     globalScale := 1 |}.

(** An implementation whose undefined results are all [0], and one whose
    undefined [pow] is [1] (the value IEEE 754 gives [pow(0, 0)]). *)
Definition glsl_zero : Glsl :=
  {| undef_div := fun _ => 0;
     undef_pow := fun _ _ => 0;
     undef_smoothstep := fun _ _ _ => 0 |}.



Definition set_stepCounts (d : Uniforms) (base cap : Z) : Uniforms :=
  {| blueNoise := blueNoise d;
     noiseTexture := noiseTexture d;
     curTimeSeconds := curTimeSeconds d;
     fogMinY := fogMinY d;
     fogMaxY := fogMaxY d;
     baseRaymarchStepCount := base;
     maxRaymarchStepCount := cap;
     baseMaxRayLength := baseMaxRayLength d;
     minStepLength := minStepLength d;
     maxDensity := maxDensity d;
     fogColorHighDensity := fogColorHighDensity d;
     fogColorLowDensity := fogColorLowDensity d;
     blueNoiseResolution := blueNoiseResolution d;
     fogFadeOutPow := fogFadeOutPow d;
     fogFadeOutRangeY := fogFadeOutRangeY d;
     fogDensityMultiplier := fogDensityMultiplier d;
     heightFogStartY := heightFogStartY d;
     heightFogEndY := heightFogEndY d;
     heightFogFactor := heightFogFactor d;
     noiseBias := noiseBias d;
     noisePow := noisePow d;
     noiseMovementPerSecond := noiseMovementPerSecond d;
     postDensityMultiplier := postDensityMultiplier d;
     postDensityPow := postDensityPow d;
     globalScale := globalScale d |}.

(** ** Concrete inputs *)

(** Default parameters, every noise texel [1], every blue-noise texel
    [0.5] (no jitter), time [0]. *)
Definition saturatedFog : Uniforms :=
  defaultUniforms (fun _ => 0.5) (fun _ => 1) 0.

(** The same with every blue-noise texel [0]. *)
Definition darkBlueNoise : Uniforms :=
  defaultUniforms (fun _ => 0) (fun _ => 1) 0.


(** [baseRaymarchStepCount: 2, maxRaymarchStepCount: 2], every blue-noise
    texel [0]. *)
Definition cappedAtTwo : Uniforms := set_stepCounts darkBlueNoise 2 2.

(** The raw density [saturatedFog] has at the origin. *)
Definition originDensity : R := sampleFogDensity glsl_zero saturatedFog vzero.

(** [march_init] of the segment (0,0,0)-(1,0,0) under [saturatedFog]. *)
Definition unitRay : Ray :=
  {| rayStart := Vec3 0 0 0; rayDir := Vec3 1 0 0;
     maxRayLength := 300.2; rayLength := 1;
     baseStepLength := 0.0125; jitter := 0 |}.

(** [march_init] of the segment (0,0,0)-(7500,0,0) under [saturatedFog]. *)
Definition longRay : Ray :=
  {| rayStart := Vec3 0 0 0; rayDir := Vec3 1 0 0;
     maxRayLength := 1800; rayLength := 1800;
     baseStepLength := 22.5; jitter := 0 |}.

(** [march_init] of the segment (0,0,0)-(1,0,0) under [darkBlueNoise]. *)
Definition shortRay : Ray :=
  {| rayStart := Vec3 (-0.05) 0 0; rayDir := Vec3 1 0 0;
     maxRayLength := 300.2; rayLength := 1;
     baseStepLength := 0.0125; jitter := -0.05 |}.

(** [march_init] of the segment (0,4.4,0)-(1,4.4,0) under [cappedAtTwo]. *)
Definition topRay : Ray :=
  {| rayStart := Vec3 (-0.05) 4.4 0; rayDir := Vec3 1 0 0;
     maxRayLength := 300.2; rayLength := 1;
     baseStepLength := 0.5; jitter := -0.05 |}.

(* ------------------------------------------------------------------ *)
(** ** Vocabulary of the statements *)

Section Vocabulary.
Variable g : Glsl.
Variable u : Uniforms.

(** The point the clipper moves an endpoint to: [origin + dir * t] with
    [t] the plane-intersection parameter. *)
Definition hit (origin dir : vec3) (plane : R) : vec3 :=
  vadd origin (vscale dir (fdiv g (- (vy origin - plane)) (vy dir))).

(** Whether the first test of [clipRayEndpoints] holds. *)
Definition outside (s e : vec3) : Prop :=
  (vy s < fogMinY u /\ vy e < fogMinY u) \/
  (fogMaxY u < vy s /\ fogMaxY u < vy e).

(** The position [sampleOneStep] samples at distance [t] along ray [r]. *)
Definition samplePos (r : Ray) (t : R) : vec3 :=
  vadd (rayStart r) (vscale (rayDir r) t).

(** The state after [n] loop bodies. *)
Fixpoint bodies (r : Ray) (n : nat) (st : MarchState) : MarchState :=
  match n with
  | O => st
  | S k => body g u r (bodies r k st)
  end.

(** The raw density the body samples from the state after [i] bodies. *)
Definition rawDensityAt (r : Ray) (i : nat) : R :=
  sampleFogDensity g u (samplePos r (INR i * stepLength u r)).

(** The states of a run of the loop: the initial one, then the one after
    each executed body. *)
Definition march_states (fuel : nat) (r : Ray) : list MarchState :=
  initState :: march_trace g u fuel r.
End Vocabulary.

(* ------------------------------------------------------------------ *)
(** ** RayReconstructor and the fragment entry point

    [mat4 * vec4] is written with the rows of the matrix; a [vec4] holds
    [x y z w] in [cr cg cb ca] (GLSL's [.xyzw] and [.rgba] name the same
    components). *)

Record mat4 : Type := Mat4 {
  row0 : vec4; row1 : vec4; row2 : vec4; row3 : vec4
}.

Definition dot4 (a b : vec4) : R :=
  cr a * cr b + cg a * cg b + cb a * cb b + ca a * ca b.

Definition mulMV (m : mat4) (v : vec4) : vec4 :=
  Vec4 (dot4 (row0 m) v) (dot4 (row1 m) v) (dot4 (row2 m) v) (dot4 (row3 m) v).

(** The uniforms and textures only [main] reads. *)
Record Frame : Type := {
  sceneDiffuse : R * R -> vec3;      (* texture2D(sceneDiffuse, uv).rgb *)
  sceneDepth : R * R -> R;           (* texture2D(sceneDepth, uv).x *)
  resolution : ivec2;
  cameraPos : vec3;
  cameraProjectionMatrixInv : mat4;
  cameraMatrixWorld : mat4
}.

(** [int(x)]: the fractional part is dropped. *)
Definition ftoi (x : R) : Z :=
  if Rle_dec 0 x then Int_part x else (- Int_part (- x))%Z.

Section Fragment.
Variable g : Glsl.
Variable u : Uniforms.
Variable f : Frame.

Definition computeWorldPosFromDepth (depth : R) (coord : R * R) : vec3 :=
  let z := depth * 2 - 1 in
  let clipSpacePosition :=
    Vec4 (fst coord * 2 - 1) (snd coord * 2 - 1) z 1 in
  let viewSpacePosition :=
    mulMV (cameraProjectionMatrixInv f) clipSpacePosition in
  (* Perspective division *)
  let w := ca viewSpacePosition in
  let viewSpacePosition :=
    Vec4 (fdiv g (cr viewSpacePosition) w) (fdiv g (cg viewSpacePosition) w)
         (fdiv g (cb viewSpacePosition) w) (fdiv g (ca viewSpacePosition) w) in
  let worldSpacePosition := mulMV (cameraMatrixWorld f) viewSpacePosition in
  Vec3 (cr worldSpacePosition) (cg worldSpacePosition) (cb worldSpacePosition).

(** [directCompositing] is whether [DO_DIRECT_COMPOSITING] is defined; the
    result is [gl_FragColor]. *)
Definition main (directCompositing : bool) (fuel : nat) (vUv : R * R)
    : option vec4 :=
  let depth := sceneDepth f vUv in
  let worldPos := computeWorldPosFromDepth depth vUv in
  let rayStartPos := cameraPos f in
  let rayEndPos := worldPos in
  let screenCoord :=
    IVec2 (ftoi (fst vUv * IZR (ix (resolution f))))
          (ftoi (snd vUv * IZR (iy (resolution f)))) in
  match march g u fuel rayStartPos rayEndPos screenCoord with
  | None => None
  | Some fogColor =>
      if directCompositing then
        let diffuse := sceneDiffuse f vUv in
        (* composite the fog color over the diffuse color using the density
           stored in the alpha channel *)
        Some (Vec4 (mix (vx diffuse) (cr fogColor) (ca fogColor))
                   (mix (vy diffuse) (cg fogColor) (ca fogColor))
                   (mix (vz diffuse) (cb fogColor) (ca fogColor))
                   1)
      else Some fogColor
  end.
End Fragment.

(** The forward transform [computeWorldPosFromDepth] undoes: a world
    position through the view matrix [V] and the projection [P], the
    perspective division, and the remap of normalised device coordinates
    from [-1,1] to the [0,1] of the depth buffer and of [vUv].  Returns
    [(depth, coord)]. *)
Definition projectToScreen (P V : mat4) (p : vec3) : R * (R * R) :=
  let c := mulMV P (mulMV V (Vec4 (vx p) (vy p) (vz p) 1)) in
  ((cb c / ca c + 1) / 2, ((cr c / ca c + 1) / 2, (cg c / ca c + 1) / 2)).

(** The noise volume of [VolumetricPass]'s constructor: one texel is
    [Math.random() * 255] stored into a [Uint8Array] (truncation, modulo
    256); [rnd] is the value [Math.random()] returned. *)
Definition toUint8 (x : R) : Z := (ftoi x mod 256)%Z.

Definition noiseTexel (rnd : R) : Z := toUint8 (rnd * 255).

(* ------------------------------------------------------------------ *)
(** ** The pass: the uniform table and [updateUniforms]

    A JavaScript object is the list of its own properties; the uniform
    table [material.uniforms] maps a name to the [value] of its entry.  The
    values themselves (numbers, vectors, colours, matrices, textures) are
    left abstract.  Names inherited from [Object.prototype], which [in]
    would also find, are not represented: parameter names are those of
    [VolumetricPassParams] or names no object has. *)

Module Pass.
Import Stdlib.Strings.String.
Local Open Scope string_scope.

Section Table.
Variable V : Type.

Inductive JsVal : Type :=
| JsNull
| JsUndefined
| JsValue (v : V).

(** [x === null || x === undefined] *)
Definition nullish (x : JsVal) : bool :=
  match x with
  | JsValue _ => false
  | _ => true
  end.

(** [a ?? b] *)
Definition coalesce (a b : JsVal) : JsVal := if nullish a then b else a.

Definition Obj : Type := list (string * JsVal).

(** [obj[key]], [undefined] for a missing property. *)
Fixpoint get (key : string) (o : Obj) : JsVal :=
  match o with
  | [] => JsUndefined
  | (k, v) :: o' => if k =? key then v else get key o'
  end.

(** [key in obj] *)
Definition has (key : string) (o : Obj) : bool :=
  existsb (fun e => fst e =? key) o.

(** [uniforms[key].value = v]; [None] is the TypeError raised when
    [uniforms[key]] is undefined. *)
Definition assign (key : string) (v : JsVal) (t : Obj) : option Obj :=
  if has key t
  then Some (map (fun e => if fst e =? key then (fst e, v) else e) t)
  else None.

Definition obind {A B : Type} (m : option A) (k : A -> option B) : option B :=
  match m with
  | Some a => k a
  | None => None
  end.

Record Camera : Type := {
  position : V;
  projectionMatrixInverse : V;
  matrixWorld : V
}.

Record AmbientLight : Type := {
  color : V;
  intensity : V
}.

(** The fields of [VolumetricPass] that [updateUniforms] reads. *)
Record VolumetricPass : Type := {
  playerCamera : Camera;
  ambientLight : option AmbientLight;      (* undefined when the scene has none *)
  params : Obj;
  noiseTexture3D : JsVal;
  uniforms : Obj                           (* material.uniforms *)
}.

(** [new THREE.Color(0xffffff)] and [0]. *)
Variable white : V.
Variable zero : V.

(** One round of the [for (const [key, value] of Object.entries(params))]
    loop. *)
Definition applyParam (t : Obj) (e : string * JsVal) : option Obj :=
  let (key, value) := e in
  if nullish value
     || negb (has key t)
     || (key =? "ambientLightColor")
     || (key =? "ambientLightIntensity")
  then Some t   (* continue *)
  else assign key value t.

Fixpoint applyParams (entries : list (string * JsVal)) (t : Obj)
    : option Obj :=
  match entries with
  | [] => Some t
  | e :: entries' => obind (applyParam t e) (applyParams entries')
  end.

(** [this.ambientLight?.color] and [this.ambientLight?.intensity] *)
Definition ambientColor (p : VolumetricPass) : JsVal :=
  match ambientLight p with
  | Some a => JsValue (color a)
  | None => JsUndefined
  end.

Definition ambientIntensity (p : VolumetricPass) : JsVal :=
  match ambientLight p with
  | Some a => JsValue (intensity a)
  | None => JsUndefined
  end.

(** Returns the uniform table the call leaves. *)
Definition updateUniforms (p : VolumetricPass) : option Obj :=
  obind (assign "cameraPos" (JsValue (position (playerCamera p)))
                (uniforms p)) (fun t =>
  obind (assign "cameraProjectionMatrixInv"
                (JsValue (projectionMatrixInverse (playerCamera p))) t)
        (fun t =>
  obind (assign "cameraMatrixWorld"
                (JsValue (matrixWorld (playerCamera p))) t) (fun t =>
  obind (assign "ambientLightColor"
                (coalesce (get "ambientLightColor" (params p))
                          (coalesce (ambientColor p) (JsValue white))) t)
        (fun t =>
  obind (assign "ambientLightIntensity"
                (coalesce (get "ambientLightIntensity" (params p))
                          (coalesce (ambientIntensity p) (JsValue zero))) t)
        (fun t =>
  obind (assign "noiseTexture" (noiseTexture3D p) t) (fun t =>
  applyParams (params p) t)))))).

(** The names of an object's properties. *)
Definition keys (o : Obj) : list string := map fst o.

(** The pass with other parameters, and with another uniform table. *)
Definition withParams (p : VolumetricPass) (ps : Obj) : VolumetricPass :=
  {| playerCamera := playerCamera p; ambientLight := ambientLight p;
     params := ps; noiseTexture3D := noiseTexture3D p;
     uniforms := uniforms p |}.

Definition withUniforms (p : VolumetricPass) (t : Obj) : VolumetricPass :=
  {| playerCamera := playerCamera p; ambientLight := ambientLight p;
     params := params p; noiseTexture3D := noiseTexture3D p;
     uniforms := t |}.

(** Whether the loop writes parameter [key] into the uniform of that
    name, when there is one. *)
Definition overrides (p : VolumetricPass) (key : string) : bool :=
  negb (nullish (get key (params p)))
  && negb (key =? "ambientLightColor")
  && negb (key =? "ambientLightIntensity").

(** What the assignments before the loop write, per name. *)
Definition fixedValue (p : VolumetricPass) (key : string) : option JsVal :=
  if key =? "noiseTexture" then Some (noiseTexture3D p)
  else if key =? "ambientLightIntensity" then
    Some (coalesce (get "ambientLightIntensity" (params p))
                   (coalesce (ambientIntensity p) (JsValue zero)))
  else if key =? "ambientLightColor" then
    Some (coalesce (get "ambientLightColor" (params p))
                   (coalesce (ambientColor p) (JsValue white)))
  else if key =? "cameraMatrixWorld" then
    Some (JsValue (matrixWorld (playerCamera p)))
  else if key =? "cameraProjectionMatrixInv" then
    Some (JsValue (projectionMatrixInverse (playerCamera p)))
  else if key =? "cameraPos" then
    Some (JsValue (position (playerCamera p)))
  else None.
End Table.

Arguments JsNull {V}.
Arguments JsUndefined {V}.
Arguments JsValue {V} v.
Arguments nullish {V} x.
Arguments coalesce {V} a b.
Arguments get {V} key o.
Arguments has {V} key o.
Arguments assign {V} key v t.
Arguments applyParam {V} t e.
Arguments applyParams {V} entries t.
Arguments position {V} c.
Arguments projectionMatrixInverse {V} c.
Arguments matrixWorld {V} c.
Arguments color {V} a.
Arguments intensity {V} a.
Arguments playerCamera {V} v.
Arguments ambientLight {V} v.
Arguments params {V} v.
Arguments noiseTexture3D {V} v.
Arguments uniforms {V} v.
Arguments ambientColor {V} p.
Arguments ambientIntensity {V} p.
Arguments updateUniforms {V} white zero p.
Arguments keys {V} o.
Arguments withParams {V} p ps.
Arguments withUniforms {V} p t.
Arguments overrides {V} p key.
Arguments fixedValue {V} white zero p key.

(** The names of the table [VolumetricMaterial]'s constructor builds. *)
Definition uniformKeys : list string :=
  [ "sceneDepth"; "sceneDiffuse"; "blueNoise"; "resolution"; "cameraPos";
    "cameraProjectionMatrixInv"; "cameraMatrixWorld"; "curTimeSeconds";
    "ambientLightColor"; "ambientLightIntensity";
    "fogMinY"; "fogMaxY"; "baseRaymarchStepCount"; "maxRaymarchStepCount";
    "baseMaxRayLength"; "minStepLength"; "maxDensity";
    "fogColorHighDensity"; "fogColorLowDensity"; "lightColor";
    "lightIntensity"; "blueNoiseResolution"; "lightFalloffDistance";
    "fogFadeOutPow"; "fogFadeOutRangeY"; "fogDensityMultiplier";
    "heightFogStartY"; "heightFogEndY"; "heightFogFactor"; "noiseBias";
    "noisePow"; "noiseMovementPerSecond"; "postDensityMultiplier";
    "postDensityPow"; "noiseTexture"; "globalScale" ].

(** The names [updateUniforms] writes before its loop. *)
Definition fixedKeys : list string :=
  [ "cameraPos"; "cameraProjectionMatrixInv"; "cameraMatrixWorld";
    "ambientLightColor"; "ambientLightIntensity"; "noiseTexture" ].

(** A pass over integer-valued uniforms: the constructor's names, the
    parameters [fogMinY], [maxRayLength] (not a uniform) and [halfRes], and
    an ambient light in the scene. *)
Definition demoPass : VolumetricPass Z :=
  {| playerCamera :=
       {| position := 1%Z; projectionMatrixInverse := 2%Z;
          matrixWorld := 3%Z |};
     ambientLight := Some {| color := 4%Z; intensity := 5%Z |};
     params :=
       [ ("fogMinY", JsValue (-100)%Z);
         ("maxRayLength", JsValue 1000%Z);
         ("halfRes", JsValue 1%Z) ];
     noiseTexture3D := JsValue 6%Z;
     uniforms := map (fun k => (k, JsNull)) uniformKeys |}.

(** The table [updateUniforms] leaves for [demoPass]. *)
Definition demoTable : Obj Z :=
  Eval vm_compute in
    match updateUniforms 7%Z 0%Z demoPass with
    | Some t => t
    | None => []
    end.
End Pass.

(* ------------------------------------------------------------------ *)
(** ** Further vocabulary *)

(** The point of the line through [s] and [e] at parameter [a]. *)
Definition along (s e : vec3) (a : R) : vec3 :=
  vadd s (vscale (vsub e s) a).

(** Every channel of [c] lies in [[lo, hi]]. *)
Definition channelsIn (c : vec3) (lo hi : R) : Prop :=
  lo <= vx c <= hi /\ lo <= vy c <= hi /\ lo <= vz c <= hi.

(** [material.uniforms.curTimeSeconds.value = t], as [render] does. *)
Definition set_curTimeSeconds (d : Uniforms) (t : R) : Uniforms :=
  {| blueNoise := blueNoise d;
     noiseTexture := noiseTexture d;
     curTimeSeconds := t;
     fogMinY := fogMinY d;
     fogMaxY := fogMaxY d;
     baseRaymarchStepCount := baseRaymarchStepCount d;
     maxRaymarchStepCount := maxRaymarchStepCount d;
     baseMaxRayLength := baseMaxRayLength d;
     minStepLength := minStepLength d;
     maxDensity := maxDensity d;
     fogColorHighDensity := fogColorHighDensity d;
     fogColorLowDensity := fogColorLowDensity d;
     blueNoiseResolution := blueNoiseResolution d;
     fogFadeOutPow := fogFadeOutPow d;
     fogFadeOutRangeY := fogFadeOutRangeY d;
     fogDensityMultiplier := fogDensityMultiplier d;
     heightFogStartY := heightFogStartY d;
     heightFogEndY := heightFogEndY d;
     heightFogFactor := heightFogFactor d;
     noiseBias := noiseBias d;
     noisePow := noisePow d;
     noiseMovementPerSecond := noiseMovementPerSecond d;
     postDensityMultiplier := postDensityMultiplier d;
     postDensityPow := postDensityPow d;
     globalScale := globalScale d |}.

(** The wind drift after [t] seconds. *)
Definition drift (u : Uniforms) (t : R) : vec3 :=
  vscale (Vec3 (fst (noiseMovementPerSecond u)) 0
               (snd (noiseMovementPerSecond u))) t.

(** [v * k] on [vec4], and the homogeneous point of a position. *)
Definition vscale4 (v : vec4) (k : R) : vec4 :=
  Vec4 (cr v * k) (cg v * k) (cb v * k) (ca v * k).

Definition point4 (p : vec3) : vec4 := Vec4 (vx p) (vy p) (vz p) 1.

(** ** Further concrete inputs *)

(** [baseRaymarchStepCount: 2, maxRaymarchStepCount: 0], every blue-noise
    texel [0]. *)
Definition cappedAtZero : Uniforms := set_stepCounts darkBlueNoise 2 0.

Definition identity4 : mat4 :=
  Mat4 (Vec4 1 0 0 0) (Vec4 0 1 0 0) (Vec4 0 0 1 0) (Vec4 0 0 0 1).

(** The translation by [dy] along y. *)
Definition translateY (dy : R) : mat4 :=
  Mat4 (Vec4 1 0 0 0) (Vec4 0 1 0 dy) (Vec4 0 0 1 0) (Vec4 0 0 0 1).

(** A camera 100 below the origin with an identity projection, a mid-grey
    depth buffer and a constant scene colour. *)
Definition deepFrame : Frame :=
  {| sceneDiffuse := fun _ => Vec3 0.2 0.4 0.6;
     sceneDepth := fun _ => 0.5;
     resolution := IVec2 800 600;
     cameraPos := Vec3 0 (-100) 0;
     cameraProjectionMatrixInv := identity4;
     cameraMatrixWorld := translateY (-100) |}.

(* ------------------------------------------------------------------ *)
(** ** The density field with undefined results tracked

    The embedding above gives an undefined [pow] or [smoothstep] some real
    value, which a later multiplication by [0] removes.  On the hardware
    such a result is commonly a NaN, which no multiplication removes.
    Here the density field is embedded once more with [None] for a result
    that GLSL leaves undefined or that is computed from one. *)

Module Partial.

Definition bind {A B : Type} (m : option A) (k : A -> option B) : option B :=
  match m with
  | Some a => k a
  | None => None
  end.

Definition pow (x y : R) : option R :=
  if Rlt_dec 0 x then Some (Rpower x y)
  else if Req_dec_T x 0 then
         if Rlt_dec 0 y then Some 0 else None
       else None.

Definition smoothstep (edge0 edge1 x : R) : option R :=
  if Rlt_dec edge0 edge1 then
    let t := clamp ((x - edge0) / (edge1 - edge0)) 0 1 in
    Some (t * t * (3 - 2 * t))
  else None.

Section DensityField.
Variable u : Uniforms.

Definition computeFadeOutYFactor (y : R) : option R :=
  bind (smoothstep (fogMaxY u - fogFadeOutRangeY u) (fogMaxY u) y) (fun s =>
  bind (pow s (fogFadeOutPow u)) (fun p =>
  Some (1 - p))).

Definition sampleFogDensity (worldPos : vec3) : option R :=
  let noise := noiseBias u in
  let worldPos :=
    vadd worldPos
         (vscale (Vec3 (fst (noiseMovementPerSecond u)) 0
                       (snd (noiseMovementPerSecond u)))
                 (curTimeSeconds u)) in
  let noise := fst (octaves u worldPos noise) in
  let noise := noise * 0.5 + 0.5 in
  let noise := clamp noise (-1) 1 in
  bind (pow noise (noisePow u)) (fun noise =>
  bind (if Rle_dec (vy worldPos) (heightFogEndY u) then
          bind (smoothstep (heightFogStartY u) (heightFogEndY u) (vy worldPos))
               (fun s =>
          let noiseFactor := 1 - s in
          Some (noise + noiseFactor * heightFogFactor u))
        else Some noise) (fun noise =>
  bind (computeFadeOutYFactor (vy worldPos)) (fun fadeOutFactor =>
  Some (noise * fadeOutFactor)))).

End DensityField.
End Partial.

(* ------------------------------------------------------------------ *)
(** ** The slab clipper in binary32

    The shader computes in IEEE 754 binary32.  [clipRayEndpoints] and what
    it calls are embedded once more over Stdlib's [spec_float] at
    precision 24 and exponent bound 128: every operation is rounded to
    nearest, ties to even, and a comparison with a NaN is false.
    [normalize(v)] is [v / length(v)] with [length(v) = sqrt(dot(v, v))].
    The bounds are arguments. *)

Module Float32.
Import Stdlib.Floats.SpecFloat.

Definition prec : Z := 24.
Definition emax : Z := 128.

Definition float : Type := spec_float.

Definition of_Z (z : Z) : float := binary_normalize prec emax z 0 false.

Definition add (x y : float) : float := SFadd prec emax x y.
Definition sub (x y : float) : float := SFsub prec emax x y.
Definition mul (x y : float) : float := SFmul prec emax x y.
Definition div (x y : float) : float := SFdiv prec emax x y.
Definition sqrt (x : float) : float := SFsqrt prec emax x.
Definition neg (x : float) : float := SFopp x.
Definition lt (x y : float) : bool := SFltb x y.

(** The binary32 number nearest to [n / d]. *)
Definition of_ratio (n d : Z) : float := div (of_Z n) (of_Z d).

Record vec3 : Type := Vec3 { vx : float; vy : float; vz : float }.

Definition vadd (a b : vec3) : vec3 :=
  Vec3 (add (vx a) (vx b)) (add (vy a) (vy b)) (add (vz a) (vz b)).

Definition vsub (a b : vec3) : vec3 :=
  Vec3 (sub (vx a) (vx b)) (sub (vy a) (vy b)) (sub (vz a) (vz b)).

Definition vscale (a : vec3) (k : float) : vec3 :=
  Vec3 (mul (vx a) k) (mul (vy a) k) (mul (vz a) k).

Definition dot (a b : vec3) : float :=
  add (add (mul (vx a) (vx b)) (mul (vy a) (vy b))) (mul (vz a) (vz b)).

Definition length (a : vec3) : float := sqrt (dot a a).

Definition normalize (v : vec3) : vec3 :=
  let l := length v in
  Vec3 (div (vx v) l) (div (vy v) l) (div (vz v) l).

Definition intersectRayXZPlane (rayOrigin rayDirection : vec3)
    (planeDistance : float) : float :=
  div (neg (sub (vy rayOrigin) planeDistance)) (vy rayDirection).

Definition clipRayEndpoints (fogMinY fogMaxY : float) (startPos endPos : vec3)
    : vec3 * vec3 :=
  if (lt (vy startPos) fogMinY && lt (vy endPos) fogMinY)
     || (lt fogMaxY (vy startPos) && lt fogMaxY (vy endPos))
  then (endPos, endPos)
  else
    let rayDir := normalize (vsub endPos startPos) in
    let startPos :=
      if lt (vy startPos) fogMinY then
        let t := intersectRayXZPlane startPos rayDir fogMinY in
        vadd startPos (vscale rayDir t)
      else startPos in
    let endPos :=
      if lt (vy endPos) fogMinY then
        let t := intersectRayXZPlane startPos rayDir fogMinY in
        vadd startPos (vscale rayDir t)
      else endPos in
    let endPos :=
      if lt fogMaxY (vy endPos) then
        let t := intersectRayXZPlane startPos rayDir fogMaxY in
        vadd startPos (vscale rayDir t)
      else endPos in
    let startPos :=
      if lt fogMaxY (vy startPos) then
        let t := intersectRayXZPlane startPos rayDir fogMaxY in
        vadd startPos (vscale rayDir t)
      else startPos in
    (startPos, endPos).

(** Whether the first test of [clipRayEndpoints] holds, and whether a
    point needs no move: neither below [fogMinY] nor above [fogMaxY]. *)
Definition outside (fogMinY fogMaxY : float) (s e : vec3) : bool :=
  (lt (vy s) fogMinY && lt (vy e) fogMinY)
  || (lt fogMaxY (vy s) && lt fogMaxY (vy e)).

Definition inSlab (fogMinY fogMaxY : float) (p : vec3) : bool :=
  negb (lt (vy p) fogMinY) && negb (lt fogMaxY (vy p)).

(** The default bounds, [-40.] and [4.4], and the segment
    (0,8,0)-(4,2,0), which crosses the upper one. *)
Definition defaultFogMinY : float := of_Z (-40).
Definition defaultFogMaxY : float := of_ratio 44 10.
Definition crossingStart : vec3 := Vec3 (of_Z 0) (of_Z 8) (of_Z 0).
Definition crossingEnd : vec3 := Vec3 (of_Z 4) (of_Z 2) (of_Z 0).
End Float32.

(* ------------------------------------------------------------------ *)
(** ** Inputs on which the code departs from the specification *)

Definition set_maxDensity (d : Uniforms) (v : R) : Uniforms :=
  {| blueNoise := blueNoise d;
     noiseTexture := noiseTexture d;
     curTimeSeconds := curTimeSeconds d;
     fogMinY := fogMinY d;
     fogMaxY := fogMaxY d;
     baseRaymarchStepCount := baseRaymarchStepCount d;
     maxRaymarchStepCount := maxRaymarchStepCount d;
     baseMaxRayLength := baseMaxRayLength d;
     minStepLength := minStepLength d;
     maxDensity := v;
     fogColorHighDensity := fogColorHighDensity d;
     fogColorLowDensity := fogColorLowDensity d;
     blueNoiseResolution := blueNoiseResolution d;
     fogFadeOutPow := fogFadeOutPow d;
     fogFadeOutRangeY := fogFadeOutRangeY d;
     fogDensityMultiplier := fogDensityMultiplier d;
     heightFogStartY := heightFogStartY d;
     heightFogEndY := heightFogEndY d;
     heightFogFactor := heightFogFactor d;
     noiseBias := noiseBias d;
     noisePow := noisePow d;
     noiseMovementPerSecond := noiseMovementPerSecond d;
     postDensityMultiplier := postDensityMultiplier d;
     postDensityPow := postDensityPow d;
     globalScale := globalScale d |}.

Definition set_minStepLength (d : Uniforms) (v : R) : Uniforms :=
  {| blueNoise := blueNoise d;
     noiseTexture := noiseTexture d;
     curTimeSeconds := curTimeSeconds d;
     fogMinY := fogMinY d;
     fogMaxY := fogMaxY d;
     baseRaymarchStepCount := baseRaymarchStepCount d;
     maxRaymarchStepCount := maxRaymarchStepCount d;
     baseMaxRayLength := baseMaxRayLength d;
     minStepLength := v;
     maxDensity := maxDensity d;
     fogColorHighDensity := fogColorHighDensity d;
     fogColorLowDensity := fogColorLowDensity d;
     blueNoiseResolution := blueNoiseResolution d;
     fogFadeOutPow := fogFadeOutPow d;
     fogFadeOutRangeY := fogFadeOutRangeY d;
     fogDensityMultiplier := fogDensityMultiplier d;
     heightFogStartY := heightFogStartY d;
     heightFogEndY := heightFogEndY d;
     heightFogFactor := heightFogFactor d;
     noiseBias := noiseBias d;
     noisePow := noisePow d;
     noiseMovementPerSecond := noiseMovementPerSecond d;
     postDensityMultiplier := postDensityMultiplier d;
     postDensityPow := postDensityPow d;
     globalScale := globalScale d |}.

(** [maxDensity: 3] over [saturatedFog]. *)
Definition denseCap : Uniforms := set_maxDensity saturatedFog 3.

(** [minStepLength: 0] over [darkBlueNoise]. *)
Definition noMinStep : Uniforms := set_minStepLength darkBlueNoise 0.


(** [march_init] of the segment (0,0,0)-(0.4,0,0) under [noMinStep]. *)
Definition backwardRay : Ray :=
  {| rayStart := Vec3 (-0.05) 0 0; rayDir := Vec3 1 0 0;
     maxRayLength := 300.08; rayLength := 0.4;
     baseStepLength := 0.005; jitter := -0.05 |}.

(** The matrix that exchanges z and w, its own inverse: as a projection
    it divides by the view-space depth. *)
Definition swapZW : mat4 :=
  Mat4 (Vec4 1 0 0 0) (Vec4 0 1 0 0) (Vec4 0 0 0 1) (Vec4 0 0 1 0).

(** A camera 100 below the origin looking through [swapZW]. *)
Definition depthFrame : Frame :=
  {| sceneDiffuse := fun _ => Vec3 0.2 0.4 0.6;
     sceneDepth := fun _ => 0.5;
     resolution := IVec2 800 600;
     cameraPos := Vec3 0 (-100) 0;
     cameraProjectionMatrixInv := swapZW;
     cameraMatrixWorld := translateY (-100) |}.

(** A camera at the origin with identity matrices: the pixel at
    [vUv = (1, 0.5)] with depth [0.5] shows the world position (1,0,0). *)
Definition fogFrame : Frame :=
  {| sceneDiffuse := fun _ => Vec3 0.2 0.4 0.6;
     sceneDepth := fun _ => 0.5;
     resolution := IVec2 800 600;
     cameraPos := Vec3 0 0 0;
     cameraProjectionMatrixInv := identity4;
     cameraMatrixWorld := identity4 |}.

(* ------------------------------------------------------------------ *)
(** * Properties *)

Lemma Rltb_true (a b : R) : Rltb a b = true <-> a < b.
Proof. unfold Rltb. destruct (Rlt_dec a b); split; intros; auto; discriminate. Qed.

Lemma Rltb_false (a b : R) : Rltb a b = false <-> ~ a < b.
Proof. unfold Rltb. destruct (Rlt_dec a b); split; intros; auto; try discriminate; contradiction. Qed.

(** Case split on an innermost comparison of the goal. *)
Ltac split_Rlt :=
  match goal with
  | |- context [Rlt_dec ?a ?b] =>
      lazymatch a with context [Rlt_dec _ _] => fail | _ => idtac end;
      lazymatch b with context [Rlt_dec _ _] => fail | _ => idtac end;
      destruct (Rlt_dec a b)
  end.

Lemma fdiv_nonzero (g : Glsl) (x y : R) : y <> 0 -> fdiv g x y = x / y.
Proof. intros H. unfold fdiv. destruct (Req_dec_T y 0); [contradiction | reflexivity]. Qed.

(** ** SlabClipper *)

Section Clipper.
Variable g : Glsl.
Variable u : Uniforms.

Lemma outside_test (s e : vec3) :
  (Rltb (vy s) (fogMinY u) && Rltb (vy e) (fogMinY u))
  || (Rltb (fogMaxY u) (vy s) && Rltb (fogMaxY u) (vy e)) = true
  <-> outside u s e.
Proof.
  unfold outside.
  rewrite orb_true_iff, !andb_true_iff, !Rltb_true. tauto.
Qed.

Lemma clipRayEndpoints_outside (s e : vec3) :
  outside u s e -> clipRayEndpoints g u s e = ((e, e), []).
Proof.
  intros H. apply outside_test in H.
  unfold clipRayEndpoints. rewrite H. reflexivity.
Qed.

(** The clipped endpoints of a segment that passes the first test,
    written without the log. *)
Lemma clipped_inside (s e : vec3) :
  ~ outside u s e ->
  clipped g u s e =
    let d := normalize g (vsub e s) in
    let s1 := if Rlt_dec (vy s) (fogMinY u) then hit g s d (fogMinY u) else s in
    let e1 := if Rlt_dec (vy e) (fogMinY u) then hit g s1 d (fogMinY u) else e in
    let e2 := if Rlt_dec (fogMaxY u) (vy e1) then hit g s1 d (fogMaxY u) else e1 in
    let s2 := if Rlt_dec (fogMaxY u) (vy s1) then hit g s1 d (fogMaxY u) else s1 in
    (s2, e2).
Proof.
  intros H. rewrite <- outside_test in H. apply not_true_is_false in H.
  unfold clipped, clipRayEndpoints. rewrite H.
  unfold bind, ret, intersectRayXZPlane, hit. cbv zeta.
  repeat match goal with
         | |- context [Rlt_dec ?a ?b] => destruct (Rlt_dec a b)
         end; reflexivity.
Qed.
End Clipper.

Section ClipperShape.
Variable g : Glsl.
Variable u : Uniforms.

Lemma vlength_pos (v : vec3) : vy v <> 0 -> 0 < vlength v.
Proof.
  intros H. unfold vlength. apply sqrt_lt_R0.
  assert (0 < vy v * vy v) by nra.
  assert (0 <= vx v * vx v) by nra.
  assert (0 <= vz v * vz v) by nra.
  lra.
Qed.

(** The normalised direction of a segment with endpoints at different
    heights is not horizontal. *)
Lemma normalize_vy_nonzero (s e : vec3) :
  vy s <> vy e -> vy (normalize g (vsub e s)) <> 0.
Proof.
  intros H.
  assert (Hy : vy (vsub e s) <> 0) by (simpl; lra).
  pose proof (vlength_pos _ Hy) as Hl.
  unfold normalize. cbn [vy].
  rewrite fdiv_nonzero by lra.
  intros E. apply Hy.
  unfold Rdiv in E. apply Rmult_integral in E.
  destruct E as [E | E]; [exact E|].
  exfalso. apply (Rinv_neq_0_compat (vlength (vsub e s))); [lra | exact E].
Qed.

(** A moved endpoint lies on the plane it was moved to. *)
Lemma vy_hit (o d : vec3) (p : R) : vy d <> 0 -> vy (hit g o d p) = p.
Proof.
  intros H. unfold hit. cbn [vy vadd vscale].
  rewrite fdiv_nonzero by exact H. field. exact H.
Qed.

(** Either the clipped segment is a single point or both its endpoints
    are in the slab; no assumption on the bounds. *)
Lemma clipped_shape (s e : vec3) :
  fst (clipped g u s e) = snd (clipped g u s e) \/
  (fogMinY u <= vy (fst (clipped g u s e)) <= fogMaxY u /\
   fogMinY u <= vy (snd (clipped g u s e)) <= fogMaxY u).
Proof.
  destruct (Rlt_dec (vy s) (fogMinY u)) as [Hs1 | Hs1];
  destruct (Rlt_dec (vy e) (fogMinY u)) as [He1 | He1];
  destruct (Rlt_dec (fogMaxY u) (vy s)) as [Hs2 | Hs2];
  destruct (Rlt_dec (fogMaxY u) (vy e)) as [He2 | He2];
  try (left; unfold clipped; rewrite clipRayEndpoints_outside;
       [reflexivity | unfold outside; lra]).
  all: rewrite clipped_inside by (unfold outside; lra); cbv zeta.
  all: assert (Hd : vy s <> vy e -> vy (normalize g (vsub e s)) <> 0)
         by apply normalize_vy_nonzero.
  all: repeat (split_Rlt; try rewrite !vy_hit by (apply Hd; lra); try lra).
  all: cbn [fst snd]; try rewrite !vy_hit by (apply Hd; lra).
  all: try (left; reflexivity); try (right; lra).
Qed.
End ClipperShape.

Section ClipperClaims.
Variable g : Glsl.
Variable u : Uniforms.

(** A degenerate segment is returned as it is. *)
Lemma clipped_point (p : vec3) : clipped g u p p = (p, p).
Proof.
  destruct (Rlt_dec (vy p) (fogMinY u)) as [H1 | H1];
    [ unfold clipped; rewrite clipRayEndpoints_outside;
      [reflexivity | unfold outside; lra] | ].
  destruct (Rlt_dec (fogMaxY u) (vy p)) as [H2 | H2];
    [ unfold clipped; rewrite clipRayEndpoints_outside;
      [reflexivity | unfold outside; lra] | ].
  rewrite clipped_inside by (unfold outside; lra). cbv zeta.
  repeat (split_Rlt; try lra). reflexivity.
Qed.

(** A segment with both endpoints in the slab is returned as it is, and
    no plane intersection is computed for it. *)
Lemma clipRayEndpoints_in_slab (s e : vec3) :
  fogMinY u <= vy s <= fogMaxY u ->
  fogMinY u <= vy e <= fogMaxY u ->
  clipRayEndpoints g u s e = ((s, e), []).
Proof.
  intros Hs He.
  assert (H : ~ outside u s e) by (unfold outside; lra).
  rewrite <- outside_test in H. apply not_true_is_false in H.
  unfold clipRayEndpoints. rewrite H.
  unfold bind, ret. cbv zeta.
  repeat (split_Rlt; try lra). reflexivity.
Qed.

(** C7: a segment whose endpoints have equal y (direction.y = 0) makes
    the slab clipper compute no plane-intersection parameter, so nothing
    is divided by direction.y: either the first test collapses the
    segment (both endpoints outside the slab) or both endpoints are
    returned unchanged. *)
Theorem C7_horizontal_segment_no_plane_intersection (s e : vec3) :
  vy s = vy e ->
  snd (clipRayEndpoints g u s e) = [] /\
  ((outside u s e /\ fst (clipRayEndpoints g u s e) = (e, e)) \/
   (~ outside u s e /\ fst (clipRayEndpoints g u s e) = (s, e))).
Proof.
  intros Hy.
  destruct (Rlt_dec (vy s) (fogMinY u)) as [H1 | H1].
  { assert (O : outside u s e) by (unfold outside; lra).
    rewrite (clipRayEndpoints_outside g u s e O). cbn. auto. }
  destruct (Rlt_dec (fogMaxY u) (vy s)) as [H2 | H2].
  { assert (O : outside u s e) by (unfold outside; lra).
    rewrite (clipRayEndpoints_outside g u s e O). cbn. auto. }
  rewrite clipRayEndpoints_in_slab by lra. cbn.
  split; [reflexivity | right]. split; [unfold outside; lra | reflexivity].
Qed.

(** Over the reals a second clip changes nothing: the result of the first
    is a single point or has both endpoints in the slab. *)
Lemma clipped_idempotent (s e : vec3) :
  clipped g u (fst (clipped g u s e)) (snd (clipped g u s e))
  = clipped g u s e.
Proof.
  destruct (clipped_shape g u s e) as [E | [Hs He]].
  - destruct (clipped g u s e) as [s' e']. cbn [fst snd] in *. subst e'.
    apply clipped_point.
  - unfold clipped at 1. rewrite clipRayEndpoints_in_slab by assumption.
    cbn [fst]. symmetry. apply surjective_pairing.
Qed.

(** In binary32 a second clip changes nothing when the first moved no
    endpoint: only comparisons are evaluated, twice the same. *)
Lemma float32_clip_unmoved (lo hi : Float32.float) (s e : Float32.vec3) :
  Float32.outside lo hi s e = true \/
  (Float32.inSlab lo hi s = true /\ Float32.inSlab lo hi e = true) ->
  Float32.clipRayEndpoints lo hi
    (fst (Float32.clipRayEndpoints lo hi s e))
    (snd (Float32.clipRayEndpoints lo hi s e))
  = Float32.clipRayEndpoints lo hi s e.
Proof.
  unfold Float32.outside, Float32.inSlab. intros H.
  unfold Float32.clipRayEndpoints at 2 3 4.
  destruct (Float32.lt (Float32.vy s) lo) eqn:A;
  destruct (Float32.lt (Float32.vy e) lo) eqn:B;
  destruct (Float32.lt hi (Float32.vy s)) eqn:C;
  destruct (Float32.lt hi (Float32.vy e)) eqn:D;
  cbn in H; try (destruct H as [H | [H1 H2]]; discriminate);
  cbn [andb orb fst snd negb]; cbv zeta;
  try rewrite A; try rewrite B; try rewrite C; try rewrite D;
  unfold Float32.clipRayEndpoints; cbv zeta;
  try rewrite A; try rewrite B; try rewrite C; try rewrite D;
  cbn [andb orb]; try reflexivity.
Qed.

(** C8 (amended): in exact real arithmetic the slab clipper is idempotent
    for every segment and any bounds: clipping the output of a previous
    application against the same bounds returns that output unchanged.
    In the binary32 arithmetic of the shader this holds for every segment
    of which the first application moves no endpoint: one that the first
    test rejects, or one with both endpoints neither below fogMinY nor
    above fogMaxY. *)
Theorem C8_clipRayEndpoints_idempotent :
  (forall s e : vec3,
     clipped g u (fst (clipped g u s e)) (snd (clipped g u s e))
     = clipped g u s e) /\
  (forall (lo hi : Float32.float) (s e : Float32.vec3),
     Float32.outside lo hi s e = true \/
     (Float32.inSlab lo hi s = true /\ Float32.inSlab lo hi e = true) ->
     Float32.clipRayEndpoints lo hi
       (fst (Float32.clipRayEndpoints lo hi s e))
       (snd (Float32.clipRayEndpoints lo hi s e))
     = Float32.clipRayEndpoints lo hi s e).
Proof.
  split.
  - exact clipped_idempotent.
  - exact float32_clip_unmoved.
Qed.

(** C10: with fogMinY <= fogMaxY, in exact real arithmetic, the segment
    clipRayEndpoints returns is either collapsed (start = end) or has both
    endpoints' y coordinates within [fogMinY, fogMaxY]. *)
Theorem C10_clipped_segment_in_slab (s e : vec3) :
  fogMinY u <= fogMaxY u ->
  fst (clipped g u s e) = snd (clipped g u s e) \/
  (fogMinY u <= vy (fst (clipped g u s e)) <= fogMaxY u /\
   fogMinY u <= vy (snd (clipped g u s e)) <= fogMaxY u).
Proof. intros _. apply clipped_shape. Qed.

(** The integrator leaves before the loop exactly when the clipped
    segment is a single point. *)
Lemma march_init_collapsed (s e : vec3) (sc : ivec2) :
  fst (clipped g u s e) = snd (clipped g u s e) ->
  march_init g u s e sc = None.
Proof.
  intros E. unfold march_init.
  destruct (clipped g u s e) as [s' e']. cbn [fst snd] in E. subst e'.
  destruct (vec3_eq_dec s' s') as [_ | N]; [reflexivity | contradiction].
Qed.

(** C3: a ray whose start and end are both strictly below fogMinY, or
    both strictly above fogMaxY, makes march return exactly (0,0,0,0):
    colour (0,0,0) and opacity 0. *)
Theorem C3_ray_outside_slab_is_transparent
    (fuel : nat) (s e : vec3) (sc : ivec2) :
  (vy s < fogMinY u /\ vy e < fogMinY u) \/
  (vy s > fogMaxY u /\ vy e > fogMaxY u) ->
  march g u fuel s e sc = Some (Vec4 0 0 0 0).
Proof.
  intros H.
  assert (O : outside u s e) by (unfold outside; lra).
  unfold march. rewrite march_init_collapsed; [reflexivity|].
  unfold clipped. rewrite (clipRayEndpoints_outside g u s e O). reflexivity.
Qed.
End ClipperClaims.

(** ** DensityField *)

Section FadeOut.
Variable g : Glsl.
Variable u : Uniforms.

Lemma clamp_unit_above (x : R) : 1 <= x -> clamp x 0 1 = 1.
Proof.
  intros H. unfold clamp.
  rewrite (Rmax_left x 0) by lra. apply Rmin_right. exact H.
Qed.

Lemma clamp_unit_below (x : R) : x <= 0 -> clamp x 0 1 = 0.
Proof.
  intros H. unfold clamp.
  rewrite (Rmax_right x 0) by lra. apply Rmin_left. lra.
Qed.

Lemma smoothstep_above (e0 e1 x : R) :
  e0 < e1 -> e1 <= x -> smoothstep g e0 e1 x = 1.
Proof.
  intros He Hx. unfold smoothstep.
  destruct (Rlt_dec e0 e1) as [_ | N]; [| contradiction].
  cbv zeta. rewrite clamp_unit_above; [lra|].
  apply (Rmult_le_reg_r (e1 - e0)); [lra|].
  unfold Rdiv. rewrite Rmult_assoc, Rinv_l by lra. lra.
Qed.

Lemma smoothstep_below (e0 e1 x : R) :
  e0 < e1 -> x <= e0 -> smoothstep g e0 e1 x = 0.
Proof.
  intros He Hx. unfold smoothstep.
  destruct (Rlt_dec e0 e1) as [_ | N]; [| contradiction].
  cbv zeta. rewrite clamp_unit_below; [lra|].
  apply (Rmult_le_reg_r (e1 - e0)); [lra|].
  unfold Rdiv. rewrite Rmult_assoc, Rinv_l by lra. lra.
Qed.

Lemma pow_one (y : R) : pow g 1 y = 1.
Proof.
  unfold pow. destruct (Rlt_dec 0 1) as [_ | N]; [| lra].
  unfold Rpower. rewrite ln_1, Rmult_0_r. apply exp_0.
Qed.

Lemma pow_zero_pos (y : R) : 0 < y -> pow g 0 y = 0.
Proof.
  intros H. unfold pow.
  destruct (Rlt_dec 0 0) as [F | _]; [lra|].
  destruct (Req_dec_T 0 0) as [_ | N]; [| contradiction].
  destruct (Rlt_dec 0 y) as [_ | N]; [reflexivity | contradiction].
Qed.

Lemma fadeOut_at_top (y : R) :
  fogFadeOutRangeY u > 0 -> y >= fogMaxY u ->
  computeFadeOutYFactor g u y = 0.
Proof.
  intros Hr Hy. unfold computeFadeOutYFactor.
  rewrite smoothstep_above by lra. rewrite pow_one. lra.
Qed.

Lemma fadeOut_below_range (y : R) :
  fogFadeOutRangeY u > 0 -> fogFadeOutPow u > 0 ->
  y <= fogMaxY u - fogFadeOutRangeY u ->
  computeFadeOutYFactor g u y = 1.
Proof.
  intros Hr Hp Hy. unfold computeFadeOutYFactor.
  rewrite smoothstep_below by lra. rewrite pow_zero_pos by lra. lra.
Qed.

(** The wind drift leaves the height unchanged, so the fade-out factor
    used by [sampleFogDensity] is the one of the input height. *)
Lemma sampleFogDensity_fade (p : vec3) :
  exists noise : R,
    sampleFogDensity g u p = noise * computeFadeOutYFactor g u (vy p).
Proof.
  unfold sampleFogDensity. cbv zeta. cbn [vy vadd vscale].
  replace (vy p + 0 * curTimeSeconds u) with (vy p) by lra.
  eexists. reflexivity.
Qed.

Lemma sampleFogDensity_at_top (p : vec3) :
  fogFadeOutRangeY u > 0 -> vy p >= fogMaxY u ->
  sampleFogDensity g u p = 0.
Proof.
  intros Hr Hy. destruct (sampleFogDensity_fade p) as [n ->].
  rewrite fadeOut_at_top by assumption. lra.
Qed.

End FadeOut.

(** *** The density field with undefined results tracked *)

Section PartialDensity.
Variable g : Glsl.
Variable u : Uniforms.

(** Where the tracked built-ins are defined they are the built-ins,
    whatever the implementation. *)
Lemma partial_pow_sound (x y v : R) :
  Partial.pow x y = Some v -> pow g x y = v.
Proof.
  unfold Partial.pow, pow.
  destruct (Rlt_dec 0 x); [congruence|].
  destruct (Req_dec_T x 0); [| discriminate].
  destruct (Rlt_dec 0 y); [congruence | discriminate].
Qed.

Lemma partial_smoothstep_sound (e0 e1 x v : R) :
  Partial.smoothstep e0 e1 x = Some v -> smoothstep g e0 e1 x = v.
Proof.
  unfold Partial.smoothstep, smoothstep.
  destruct (Rlt_dec e0 e1); [cbv zeta; congruence | discriminate].
Qed.


Lemma partial_pow_defined (x y : R) :
  0 < x \/ (x = 0 /\ 0 < y) -> Partial.pow x y = Some (pow g x y).
Proof.
  intros H. unfold Partial.pow, pow.
  destruct (Rlt_dec 0 x); [reflexivity|].
  destruct (Req_dec_T x 0); [| exfalso; lra].
  destruct (Rlt_dec 0 y); [reflexivity | exfalso; lra].
Qed.

Lemma partial_fade_sound (y v : R) :
  Partial.computeFadeOutYFactor u y = Some v ->
  computeFadeOutYFactor g u y = v.
Proof.
  unfold Partial.computeFadeOutYFactor, computeFadeOutYFactor, Partial.bind.
  destruct (Partial.smoothstep _ _ y) as [s |] eqn:S; [| discriminate].
  destruct (Partial.pow s _) as [p |] eqn:P; [| discriminate].
  apply partial_smoothstep_sound in S. rewrite S.
  apply partial_pow_sound in P. rewrite P. congruence.
Qed.

(** A defined density is the density of the embedding over the reals,
    whatever the implementation. *)
Lemma partial_sampleFogDensity_sound (p : vec3) (v : R) :
  Partial.sampleFogDensity u p = Some v -> sampleFogDensity g u p = v.
Proof.
  unfold Partial.sampleFogDensity, sampleFogDensity, Partial.bind. cbv zeta.
  set (q := vadd p _).
  destruct (Partial.pow _ (noisePow u)) as [n |] eqn:N; [| discriminate].
  apply partial_pow_sound in N. rewrite N.
  destruct (Rle_dec (vy q) (heightFogEndY u)).
  - destruct (Partial.smoothstep _ _ (vy q)) as [s |] eqn:S; [| discriminate].
    apply partial_smoothstep_sound in S. rewrite S.
    destruct (Partial.computeFadeOutYFactor u (vy q)) as [f |] eqn:F;
      [| discriminate].
    apply partial_fade_sound in F. rewrite F. congruence.
  - destruct (Partial.computeFadeOutYFactor u (vy q)) as [f |] eqn:F;
      [| discriminate].
    apply partial_fade_sound in F. rewrite F. congruence.
Qed.
End PartialDensity.

Section PartialFadeOut.
Variable u : Uniforms.




End PartialFadeOut.

(** ** Integrator: one iteration *)

Section Iteration.
Variable g : Glsl.
Variable u : Uniforms.
Variable r : Ray.

Lemma totalDistance_body (st : MarchState) :
  totalDistance (body g u r st) = totalDistance st + stepLength u r.
Proof.
  unfold body.
  destruct (sampleOneStep g u _ _ _ _ _ _). reflexivity.
Qed.

Lemma totalIters_body (st : MarchState) :
  totalIters (body g u r st) = int_add (totalIters st) 1.
Proof.
  unfold body.
  destruct (sampleOneStep g u _ _ _ _ _ _). reflexivity.
Qed.

(** The opacity update of one body: nothing below the 0.01 gate,
    otherwise the step's density weighted by the remaining opacity. *)
Lemma density_body (st : MarchState) :
  density (body g u r st) =
    let raw := sampleFogDensity g u (samplePos r (totalDistance st)) in
    if Rgt_dec raw 0.01
    then density st
         + raw * stepLength u r * fogDensityMultiplier u * (1 - density st)
    else density st.
Proof.
  unfold body, sampleOneStep, samplePos. cbv zeta.
  destruct (Rgt_dec _ 0.01); reflexivity.
Qed.

Lemma iteration_Continue (st st' : MarchState) :
  iteration g u r st = Continue st' ->
  st' = body g u r st /\
  totalDistance st < rayLength r /\
  (totalIters st <= maxRaymarchStepCount u)%Z /\
  density st' < maxDensity u - 0.01.
Proof.
  unfold iteration.
  destruct (Rlt_dec (totalDistance st) (rayLength r)); [| discriminate].
  destruct (Z.gtb_spec (totalIters st) (maxRaymarchStepCount u));
    [discriminate|].
  cbv zeta. destruct (Rge_dec _ _); [discriminate|].
  intros E. injection E as <-. repeat split; try assumption. lra.
Qed.

Lemma iteration_Break (st st' : MarchState) :
  iteration g u r st = Break st' ->
  st' = body g u r st /\
  totalDistance st < rayLength r /\
  (totalIters st <= maxRaymarchStepCount u)%Z /\
  density st' >= maxDensity u - 0.01.
Proof.
  unfold iteration.
  destruct (Rlt_dec (totalDistance st) (rayLength r)); [| discriminate].
  destruct (Z.gtb_spec (totalIters st) (maxRaymarchStepCount u));
    [discriminate|].
  cbv zeta. destruct (Rge_dec _ _); [| discriminate].
  intros E. injection E as <-. repeat split; assumption.
Qed.

(** When the loop condition holds and the cap test passes, the body is
    executed. *)
Lemma iteration_enters (st : MarchState) :
  totalDistance st < rayLength r ->
  (totalIters st <= maxRaymarchStepCount u)%Z ->
  iteration g u r st = Continue (body g u r st) \/
  iteration g u r st = Break (body g u r st).
Proof.
  intros Hd Hi. unfold iteration.
  destruct (Rlt_dec (totalDistance st) (rayLength r)); [| contradiction].
  destruct (Z.gtb_spec (totalIters st) (maxRaymarchStepCount u)); [lia|].
  cbv zeta. destruct (Rge_dec _ _); auto.
Qed.

Lemma bodies_shift (n : nat) (st : MarchState) :
  bodies g u r n (body g u r st) = body g u r (bodies g u r n st).
Proof. induction n as [| n IH]; cbn; [reflexivity | now rewrite IH]. Qed.

Lemma totalDistance_bodies (n : nat) (st : MarchState) :
  totalDistance (bodies g u r n st) = totalDistance st + INR n * stepLength u r.
Proof.
  induction n as [| n IH].
  - cbn. lra.
  - cbn [bodies]. rewrite totalDistance_body, IH, S_INR. lra.
Qed.

(** *** The trace of a run *)

Lemma trace_nth (fuel : nat) :
  forall (st s : MarchState) (n : nat),
    nth_error (fst (march_run g u fuel r st)) n = Some s ->
    s = bodies g u r (S n) st.
Proof.
  induction fuel as [| fuel IH]; intros st s n H.
  - destruct n; discriminate.
  - cbn [march_run] in H.
    destruct (iteration g u r st) as [st' | st' | |] eqn:E.
    + apply iteration_Continue in E. destruct E as [-> _].
      destruct (march_run g u fuel r (body g u r st)) as [tr e] eqn:R.
      cbn [fst] in H. destruct n as [| n].
      * cbn in H. injection H as <-. reflexivity.
      * cbn [nth_error] in H.
        replace tr with (fst (march_run g u fuel r (body g u r st))) in H
          by now rewrite R.
        apply IH in H. rewrite H. cbn [bodies]. now rewrite !bodies_shift.
    + apply iteration_Break in E. destruct E as [-> _].
      cbn [fst] in H. destruct n as [| [| n]]; try discriminate.
      cbn in H. injection H as <-. reflexivity.
    + destruct n; discriminate.
    + destruct n; discriminate.
Qed.

(** A state that is followed by another body was not saturated. *)
Lemma trace_unsaturated (fuel : nat) :
  forall (st s s' : MarchState) (n : nat),
    nth_error (fst (march_run g u fuel r st)) n = Some s ->
    nth_error (fst (march_run g u fuel r st)) (S n) = Some s' ->
    density s < maxDensity u - 0.01.
Proof.
  induction fuel as [| fuel IH]; intros st s s' n H H'.
  - destruct n; discriminate.
  - cbn [march_run] in H, H'.
    destruct (iteration g u r st) as [st' | st' | |] eqn:E.
    + apply iteration_Continue in E. destruct E as (-> & _ & _ & Hd).
      destruct (march_run g u fuel r (body g u r st)) as [tr e] eqn:R.
      cbn [fst] in H, H'.
      replace tr with (fst (march_run g u fuel r (body g u r st))) in H, H'
        by now rewrite R.
      destruct n as [| n].
      * cbn in H. injection H as <-. exact Hd.
      * cbn [nth_error] in H, H'. exact (IH _ _ _ _ H H').
    + cbn [fst] in H'. destruct n; discriminate.
    + destruct n; discriminate.
    + destruct n; discriminate.
Qed.

(** The states of a run are the iterates of the body. *)
Lemma march_states_nth (fuel n : nat) (st : MarchState) :
  nth_error (march_states g u fuel r) n = Some st ->
  st = bodies g u r n initState.
Proof.
  unfold march_states, march_trace. destruct n as [| n]; cbn [nth_error].
  - intros H. injection H as <-. reflexivity.
  - apply trace_nth.
Qed.

Lemma march_states_prefix (fuel n : nat) (st : MarchState) :
  nth_error (march_states g u fuel r) n = Some st ->
  forall i, (i <= n)%nat ->
    nth_error (march_states g u fuel r) i = Some (bodies g u r i initState).
Proof.
  intros H i Hi.
  destruct (nth_error (march_states g u fuel r) i) as [s |] eqn:E.
  - f_equal. now apply (march_states_nth fuel).
  - apply nth_error_None in E.
    assert (n < length (march_states g u fuel r))%nat
      by (apply nth_error_Some; congruence).
    lia.
Qed.
End Iteration.

(** ** Integrator: accumulation *)

Section Accumulation.
Variable g : Glsl.
Variable u : Uniforms.
Variable r : Ray.

Lemma density_bodies_S (n : nat) :
  density (bodies g u r (S n) initState) =
    if Rgt_dec (rawDensityAt g u r n) 0.01
    then density (bodies g u r n initState)
         + rawDensityAt g u r n * stepLength u r * fogDensityMultiplier u
           * (1 - density (bodies g u r n initState))
    else density (bodies g u r n initState).
Proof.
  cbn [bodies]. rewrite density_body. cbv zeta.
  rewrite totalDistance_bodies. cbn [totalDistance initState].
  unfold rawDensityAt. now rewrite Rplus_0_l.
Qed.

(** Transmittance decays geometrically under a constant density. *)
Lemma closed_form_bodies (k : R) (n : nat) :
  k > 0.01 ->
  (forall i, (i < n)%nat -> rawDensityAt g u r i = k) ->
  density (bodies g u r n initState)
  = 1 - (1 - k * stepLength u r * fogDensityMultiplier u) ^ n.
Proof.
  intros Hk. induction n as [| n IH]; intros Hraw.
  - cbn. lra.
  - rewrite density_bodies_S, (Hraw n) by lia.
    destruct (Rgt_dec k 0.01) as [_ | N]; [| contradiction].
    rewrite IH by (intros i Hi; apply Hraw; lia).
    rewrite <- tech_pow_Rmult. ring.
Qed.

(** C1: when the density field returns the same constant k > 0.01 at
    every sampled position, with the loop's fixed step length s and
    0 <= k*s*fogDensityMultiplier <= 1, the accumulated density, which
    starts at 0, equals 1 - (1 - k*s*fogDensityMultiplier)^n after n
    iterations. *)
Theorem C1_constant_density_closed_form
    (fuel n : nat) (st : MarchState) (k : R) :
  k > 0.01 ->
  (forall i, (i < n)%nat ->
     sampleFogDensity g u (samplePos r (INR i * stepLength u r)) = k) ->
  0 <= k * stepLength u r * fogDensityMultiplier u <= 1 ->
  nth_error (march_states g u fuel r) n = Some st ->
  density st = 1 - (1 - k * stepLength u r * fogDensityMultiplier u) ^ n.
Proof.
  intros Hk Hraw _ Hn.
  apply march_states_nth in Hn. subst st.
  apply closed_form_bodies; assumption.
Qed.

(** One opacity-weighted step keeps the opacity in [0,1] and does not
    decrease it, when the step's own density is in [0,1]. *)
Lemma density_bodies_step (n : nat) :
  (rawDensityAt g u r n > 0.01 ->
   0 <= rawDensityAt g u r n * stepLength u r * fogDensityMultiplier u <= 1) ->
  0 <= density (bodies g u r n initState) <= 1 ->
  0 <= density (bodies g u r (S n) initState) <= 1 /\
  density (bodies g u r n initState)
  <= density (bodies g u r (S n) initState).
Proof.
  intros Hd Ha. rewrite density_bodies_S.
  destruct (Rgt_dec (rawDensityAt g u r n) 0.01) as [G | _]; [| lra].
  specialize (Hd G).
  set (d := rawDensityAt g u r n * stepLength u r * fogDensityMultiplier u) in *.
  set (a := density (bodies g u r n initState)) in *.
  nra.
Qed.

Lemma density_bodies_unit (m : nat) :
  (forall i, (i < m)%nat -> rawDensityAt g u r i > 0.01 ->
     0 <= rawDensityAt g u r i * stepLength u r * fogDensityMultiplier u <= 1) ->
  forall n, (n <= m)%nat -> 0 <= density (bodies g u r n initState) <= 1.
Proof.
  intros Hd. induction n as [| n IH]; intros Hn.
  - cbn. lra.
  - apply density_bodies_step.
    + apply Hd. lia.
    + apply IH. lia.
Qed.

(** With a non-negative step density and a saturation threshold of at
    most 1, the opacity grows from 0 as long as it stays below the
    threshold. *)
Lemma density_bodies_monotone (n : nat) :
  0 <= stepLength u r * fogDensityMultiplier u ->
  maxDensity u <= 1.01 ->
  (forall j, (0 < j <= n)%nat ->
     density (bodies g u r j initState) < maxDensity u - 0.01) ->
  0 <= density (bodies g u r n initState)
    <= density (bodies g u r (S n) initState).
Proof.
  intros Hsm Hmax. induction n as [| n IH]; intros Hbelow.
  - rewrite density_bodies_S. cbn [bodies density initState].
    destruct (Rgt_dec (rawDensityAt g u r 0) 0.01) as [G | _]; [| lra].
    set (raw := rawDensityAt g u r 0) in *. nra.
  - assert (H0 : 0 <= density (bodies g u r (S n) initState)).
    { destruct IH as [I0 I1]; [intros j Hj; apply Hbelow; lia | lra]. }
    split; [exact H0|].
    rewrite (density_bodies_S (S n)).
    destruct (Rgt_dec (rawDensityAt g u r (S n)) 0.01) as [G | _]; [| lra].
    specialize (Hbelow (S n) ltac:(lia)).
    set (raw := rawDensityAt g u r (S n)) in *.
    set (a := density (bodies g u r (S n) initState)) in *.
    assert (0 <= raw * (stepLength u r * fogDensityMultiplier u)) by nra.
    assert (0 <= 1 - a) by lra.
    replace (raw * stepLength u r * fogDensityMultiplier u * (1 - a))
      with (raw * (stepLength u r * fogDensityMultiplier u) * (1 - a)) by ring.
    nra.
Qed.

(** Every state of a run that is followed by another one is below the
    saturation threshold, the initial state apart. *)
Lemma march_states_unsaturated (fuel i : nat) (st st' : MarchState) :
  (0 < i)%nat ->
  nth_error (march_states g u fuel r) i = Some st ->
  nth_error (march_states g u fuel r) (S i) = Some st' ->
  density st < maxDensity u - 0.01.
Proof.
  intros Hpos Hi Hi'. destruct i as [| i]; [lia|].
  unfold march_states in Hi, Hi'. cbn [nth_error] in Hi, Hi'.
  exact (trace_unsaturated g u r fuel _ _ _ _ Hi Hi').
Qed.

(** Under the same two conditions a step of a run does not lower the
    opacity, which is never negative. *)
Lemma march_states_density_step (fuel i : nat) (st st' : MarchState) :
  0 <= stepLength u r * fogDensityMultiplier u ->
  maxDensity u <= 1.01 ->
  nth_error (march_states g u fuel r) i = Some st ->
  nth_error (march_states g u fuel r) (S i) = Some st' ->
  0 <= density st <= density st'.
Proof.
  intros Hsm Hmax Hi Hi'.
  pose proof (march_states_nth g u r fuel (S i) st' Hi') as ->.
  assert (Hbelow : forall j, (0 < j <= i)%nat ->
            density (bodies g u r j initState) < maxDensity u - 0.01).
  { intros j Hj.
    pose proof (march_states_prefix g u r fuel (S i) _ Hi' j ltac:(lia))
      as A.
    pose proof (march_states_prefix g u r fuel (S i) _ Hi' (S j) ltac:(lia))
      as B.
    exact (march_states_unsaturated fuel j _ _ ltac:(lia) A B). }
  pose proof (march_states_nth g u r fuel i st Hi) as ->.
  apply density_bodies_monotone; assumption.
Qed.

Lemma march_states_density_le (fuel d i : nat) (st st' : MarchState) :
  0 <= stepLength u r * fogDensityMultiplier u ->
  maxDensity u <= 1.01 ->
  nth_error (march_states g u fuel r) i = Some st ->
  nth_error (march_states g u fuel r) (i + d) = Some st' ->
  0 <= density st <= density st'.
Proof.
  intros Hsm Hmax Hi. revert st'.
  induction d as [| d IH]; intros st' Hj.
  - rewrite Nat.add_0_r in Hj. rewrite Hi in Hj. injection Hj as <-.
    destruct i as [| i].
    + cbn in Hi. injection Hi as <-. cbn. lra.
    + pose proof (march_states_prefix g u r fuel _ _ Hi i ltac:(lia)) as Hp.
      pose proof (march_states_density_step fuel i _ _ Hsm Hmax Hp Hi). lra.
  - replace (i + S d)%nat with (S (i + d)) in Hj by lia.
    pose proof (march_states_prefix g u r fuel _ _ Hj (i + d)%nat ltac:(lia))
      as Hp.
    specialize (IH _ Hp).
    pose proof (march_states_density_step fuel (i + d) _ _ Hsm Hmax Hp Hj).
    lra.
Qed.

(** Under the same two conditions a step whose own density is at most 1
    leaves an opacity of at most 1. *)
Lemma march_states_density_unit (fuel i : nat) (st st' : MarchState) :
  0 <= stepLength u r * fogDensityMultiplier u ->
  maxDensity u <= 1.01 ->
  nth_error (march_states g u fuel r) i = Some st ->
  nth_error (march_states g u fuel r) (S i) = Some st' ->
  (rawDensityAt g u r i > 0.01 ->
   rawDensityAt g u r i * stepLength u r * fogDensityMultiplier u <= 1) ->
  density st' <= 1.
Proof.
  intros Hsm Hmax Hi Hi' Hd.
  pose proof (march_states_density_step fuel i st st' Hsm Hmax Hi Hi')
    as [H0 _].
  assert (H1 : density st <= 1).
  { destruct i as [| i].
    - cbn in Hi. injection Hi as <-. cbn. lra.
    - pose proof (march_states_unsaturated fuel (S i) st st' ltac:(lia)
                    Hi Hi'). lra. }
  pose proof (march_states_nth g u r fuel (S i) st' Hi') as ->.
  pose proof (march_states_nth g u r fuel i st Hi) as E. rewrite E in H0, H1.
  rewrite density_bodies_S.
  destruct (Rgt_dec (rawDensityAt g u r i) 0.01) as [G | _]; [| exact H1].
  specialize (Hd G).
  set (d := rawDensityAt g u r i * stepLength u r * fogDensityMultiplier u)
    in *.
  set (a := density (bodies g u r i initState)) in *.
  nra.
Qed.

(** C2 (amended): for every ray integration, an accumulated density that
    is followed by a further iteration, after at least one iteration, is
    below maxDensity - 0.01: the loop breaks at the first step that
    reaches this threshold, and the value it ends with is not clamped to
    maxDensity.  When stepLength * fogDensityMultiplier >= 0 and
    maxDensity <= 1.01, the accumulated density is non-decreasing across
    every iteration and at least 0 at all times, and it is at most 1
    after every step whose own density rawDensity * stepLength *
    fogDensityMultiplier is at most 1. *)
Theorem C2_accumulated_density_monotone_below_threshold
    (fuel i : nat) (st st' : MarchState) :
  nth_error (march_states g u fuel r) i = Some st ->
  nth_error (march_states g u fuel r) (S i) = Some st' ->
  ((0 < i)%nat -> density st < maxDensity u - 0.01) /\
  (0 <= stepLength u r * fogDensityMultiplier u ->
   maxDensity u <= 1.01 ->
   0 <= density st <= density st' /\
   ((sampleFogDensity g u (samplePos r (INR i * stepLength u r)) > 0.01 ->
     sampleFogDensity g u (samplePos r (INR i * stepLength u r))
     * stepLength u r * fogDensityMultiplier u <= 1) ->
    density st' <= 1)).
Proof.
  intros Hi Hi'. split.
  - intros Hpos. exact (march_states_unsaturated fuel i st st' Hpos Hi Hi').
  - intros Hsm Hmax. split.
    + exact (march_states_density_step fuel i st st' Hsm Hmax Hi Hi').
    + exact (march_states_density_unit fuel i st st' Hsm Hmax Hi Hi').
Qed.
End Accumulation.

(** ** Integrator: Init *)

Section Init.
Variable g : Glsl.
Variable u : Uniforms.

(** The clamp of the ray length to the cap is a minimum. *)
Lemma Rmin_clamp_length (len cap : R) :
  (if Rgt_dec len cap then cap else len) = Rmin len cap.
Proof.
  destruct (Rgt_dec len cap) as [G | N].
  - rewrite Rmin_right by lra. reflexivity.
  - rewrite Rmin_left by lra. reflexivity.
Qed.

(** What [march] has computed when it reaches the loop. *)
Lemma march_init_Some (s e : vec3) (sc : ivec2) (r : Ray) :
  march_init g u s e sc = Some r ->
  let s' := fst (clipped g u s e) in
  let e' := snd (clipped g u s e) in
  let len := vlength (vsub e' s') in
  s' <> e' /\
  rayDir r = normalize g (vsub e' s') /\
  maxRayLength r = baseMaxRayLength u + Rmin (len * 0.2) 1500 /\
  rayLength r = Rmin len (maxRayLength r) /\
  baseStepLength r = fdiv g (rayLength r) (IZR (baseRaymarchStepCount u)) /\
  jitter r =
    (blueNoise u (IVec2 (Z.rem (ix sc) (blueNoiseResolution u))
                        (Z.rem (iy sc) (blueNoiseResolution u))) - 0.5) * 0.1 /\
  rayStart r = vadd s' (vscale (rayDir r) (jitter r)).
Proof.
  unfold march_init. destruct (clipped g u s e) as [s' e']. cbn [fst snd].
  destruct (vec3_eq_dec s' e') as [E | N]; [discriminate|].
  cbv zeta. rewrite Rmin_clamp_length.
  intros H. injection H as <-. cbn. repeat split; auto.
Qed.

(** C4 (amended): in Init the maximum ray length is baseMaxRayLength +
    min(len * 0.2, 1500) where len is the length of the segment after slab
    clipping (before the clamp to the cap), and the marched ray length is
    len clamped to this cap. *)
Theorem C4_max_ray_length_from_clipped_segment
    (s e : vec3) (sc : ivec2) (r : Ray) :
  march_init g u s e sc = Some r ->
  maxRayLength r =
    baseMaxRayLength u
    + Rmin (vlength (vsub (snd (clipped g u s e)) (fst (clipped g u s e)))
            * 0.2) 1500 /\
  rayLength r =
    Rmin (vlength (vsub (snd (clipped g u s e)) (fst (clipped g u s e))))
         (maxRayLength r).
Proof.
  intros H. apply march_init_Some in H. cbv zeta in H.
  destruct H as (_ & _ & Hmax & Hlen & _). split; assumption.
Qed.

(** C6 (amended): every step length of the loop is
    max(baseStepLength, minStepLength) + jitter*0.2 with
    jitter = (blueNoiseSample - 0.5)*0.1; for every blue-noise sample in
    [0,1] it is at least minStepLength - 0.01, and at least minStepLength
    when the sample is at least 0.5. *)
Theorem C6_step_length_lower_bound (s e : vec3) (sc : ivec2) (r : Ray) :
  march_init g u s e sc = Some r ->
  0 <= blueNoise u (IVec2 (Z.rem (ix sc) (blueNoiseResolution u))
                          (Z.rem (iy sc) (blueNoiseResolution u))) <= 1 ->
  stepLength u r >= minStepLength u - 0.01 /\
  (blueNoise u (IVec2 (Z.rem (ix sc) (blueNoiseResolution u))
                      (Z.rem (iy sc) (blueNoiseResolution u))) >= 0.5 ->
   stepLength u r >= minStepLength u).
Proof.
  intros H Hb. apply march_init_Some in H. cbv zeta in H.
  destruct H as (_ & _ & _ & _ & _ & Hj & _).
  unfold stepLength. rewrite Hj.
  pose proof (Rmax_r (baseStepLength r) (minStepLength u)).
  split; [| intros Hhalf]; lra.
Qed.

(** [march_init] on a segment along the x axis that lies in the slab. *)
Lemma march_init_along_x (y L : R) (sc : ivec2) :
  fogMinY u <= y <= fogMaxY u -> 0 < L ->
  exists r : Ray,
    march_init g u (Vec3 0 y 0) (Vec3 L y 0) sc = Some r /\
    rayDir r = Vec3 1 0 0 /\
    maxRayLength r = baseMaxRayLength u + Rmin (L * 0.2) 1500 /\
    rayLength r = Rmin L (maxRayLength r) /\
    baseStepLength r = fdiv g (rayLength r) (IZR (baseRaymarchStepCount u)) /\
    jitter r =
      (blueNoise u (IVec2 (Z.rem (ix sc) (blueNoiseResolution u))
                          (Z.rem (iy sc) (blueNoiseResolution u))) - 0.5) * 0.1 /\
    rayStart r = Vec3 (jitter r) y 0.
Proof.
  intros Hy HL.
  assert (Hc : clipped g u (Vec3 0 y 0) (Vec3 L y 0) = (Vec3 0 y 0, Vec3 L y 0)).
  { unfold clipped. rewrite clipRayEndpoints_in_slab by (cbn; lra). reflexivity. }
  assert (Hl : vlength (vsub (Vec3 L y 0) (Vec3 0 y 0)) = L).
  { unfold vlength. cbn [vsub vx vy vz].
    replace ((L - 0) * (L - 0) + (y - y) * (y - y) + (0 - 0) * (0 - 0))
      with (L * L) by ring.
    apply sqrt_square. lra. }
  assert (Hn : normalize g (vsub (Vec3 L y 0) (Vec3 0 y 0)) = Vec3 1 0 0).
  { unfold normalize. rewrite Hl. cbn [vsub vx vy vz].
    rewrite !fdiv_nonzero by lra. f_equal; field; lra. }
  destruct (march_init g u (Vec3 0 y 0) (Vec3 L y 0) sc) as [r |] eqn:E.
  - exists r. split; [reflexivity|].
    apply march_init_Some in E. cbv zeta in E.
    rewrite Hc in E. cbn [fst snd] in E. rewrite Hl, Hn in E.
    destruct E as (_ & Hd & Hm & Hr & Hb & Hj & Hs).
    repeat split; try assumption.
    rewrite Hs, Hd. unfold vadd, vscale. cbn [vx vy vz]. f_equal; lra.
  - exfalso. unfold march_init in E. rewrite Hc in E.
    destruct (vec3_eq_dec (Vec3 0 y 0) (Vec3 L y 0)) as [F | N];
      [| discriminate].
    injection F as F. lra.
Qed.
End Init.

(** ** Integrator: the loop *)

Section Loop.
Variable g : Glsl.
Variable u : Uniforms.
Variable r : Ray.

Lemma iteration_continue_intro (st : MarchState) :
  totalDistance st < rayLength r ->
  (totalIters st <= maxRaymarchStepCount u)%Z ->
  density (body g u r st) < maxDensity u - 0.01 ->
  iteration g u r st = Continue (body g u r st).
Proof.
  intros Hd Hi Hs.
  destruct (iteration_enters g u r st Hd Hi) as [E | E]; [exact E|].
  apply iteration_Break in E. lra.
Qed.

Lemma iteration_exit_intro (st : MarchState) :
  ~ totalDistance st < rayLength r -> iteration g u r st = Exit.
Proof.
  intros H. unfold iteration.
  destruct (Rlt_dec (totalDistance st) (rayLength r)); [contradiction|].
  reflexivity.
Qed.

(** Below the 0.01 gate a body leaves the opacity as it is. *)
Lemma density_body_gated (st : MarchState) :
  sampleFogDensity g u (samplePos r (totalDistance st)) <= 0.01 ->
  density (body g u r st) = density st.
Proof.
  intros H. rewrite density_body. cbv zeta.
  destruct (Rgt_dec _ 0.01) as [G | _]; [lra | reflexivity].
Qed.

(** With a positive ray length and a non-negative cap the first body is
    executed. *)
Lemma march_states_first (fuel : nat) :
  0 < rayLength r -> (0 <= maxRaymarchStepCount u)%Z ->
  nth_error (march_states g u (S fuel) r) 1 = Some (body g u r initState).
Proof.
  intros Hl Hc. unfold march_states, march_trace.
  cbn [nth_error march_run].
  destruct (iteration_enters g u r initState Hl Hc) as [E | E]; rewrite E.
  - destruct (march_run g u fuel r (body g u r initState)). reflexivity.
  - reflexivity.
Qed.

(** The first two bodies of a run whose first step neither saturates nor
    covers the ray. *)
Lemma march_states_second (fuel : nat) :
  0 < rayLength r -> stepLength u r < rayLength r ->
  (1 <= maxRaymarchStepCount u)%Z ->
  density (body g u r initState) < maxDensity u - 0.01 ->
  nth_error (march_states g u (S (S fuel)) r) 1
  = Some (bodies g u r 1 initState) /\
  nth_error (march_states g u (S (S fuel)) r) 2
  = Some (bodies g u r 2 initState).
Proof.
  intros Hl Hs Hc Hd.
  assert (E2 : nth_error (march_states g u (S (S fuel)) r) 2
               = Some (bodies g u r 2 initState)).
  { unfold march_states, march_trace. cbn [nth_error march_run bodies].
    rewrite (iteration_continue_intro initState);
      [| cbn; lra | cbn; lia | exact Hd].
    set (b1 := body g u r initState).
    assert (Ht : totalDistance b1 < rayLength r).
    { unfold b1. rewrite totalDistance_body. cbn [totalDistance initState]. lra. }
    assert (Hi : (totalIters b1 <= maxRaymarchStepCount u)%Z).
    { unfold b1. rewrite totalIters_body. cbn. lia. }
    destruct (iteration_enters g u r b1 Ht Hi) as [E | E]; rewrite E.
    - destruct (march_run g u fuel r (body g u r b1)). reflexivity.
    - reflexivity. }
  split; [| exact E2].
  exact (march_states_prefix g u r _ 2 _ E2 1%nat ltac:(lia)).
Qed.

Lemma wrap32_small (z : Z) : (- 2 ^ 31 <= z < 2 ^ 31)%Z -> wrap32 z = z.
Proof. intros H. unfold wrap32. rewrite Z.mod_small; lia. Qed.

(** The loop leaves after at most [maxRaymarchStepCount + 1] bodies, and
    [fuel] beyond that is never used up. *)
Lemma march_run_bound (fuel : nat) :
  forall st : MarchState,
    (0 <= totalIters st)%Z ->
    (maxRaymarchStepCount u < INT_MAX)%Z ->
    (length (fst (march_run g u fuel r st))
     <= Z.to_nat (maxRaymarchStepCount u + 1 - totalIters st))%nat /\
    ((Z.to_nat (maxRaymarchStepCount u + 1 - totalIters st) < fuel)%nat ->
     snd (march_run g u fuel r st) <> None).
Proof.
  unfold INT_MAX.
  induction fuel as [| fuel IH]; intros st H0 Hmax.
  - cbn. split; lia.
  - cbn [march_run].
    destruct (iteration g u r st) as [st' | st' | |] eqn:E.
    + apply iteration_Continue in E. destruct E as (-> & _ & Hi & _).
      assert (Ht : totalIters (body g u r st) = (totalIters st + 1)%Z).
      { rewrite totalIters_body. unfold int_add. apply wrap32_small. lia. }
      specialize (IH (body g u r st)). rewrite Ht in IH.
      destruct IH as [IH1 IH2]; [lia | lia |].
      destruct (march_run g u fuel r (body g u r st)) as [tr e].
      cbn [fst snd length] in *. split.
      * lia.
      * intros Hf. apply IH2. lia.
    + apply iteration_Break in E. destruct E as (-> & _ & Hi & _).
      cbn. split; [lia | discriminate].
    + cbn. split; [lia | discriminate].
    + cbn. split; [lia | discriminate].
Qed.

(** The number of executed bodies is at most the cap plus one. *)
Lemma iteration_count_le_succ_cap (fuel : nat) :
  (maxRaymarchStepCount u < INT_MAX)%Z ->
  (length (march_trace g u fuel r)
   <= Z.to_nat (maxRaymarchStepCount u + 1))%nat.
Proof.
  intros Hmax. unfold march_trace.
  assert (H0 : (0 <= totalIters initState)%Z) by (cbn; lia).
  destruct (march_run_bound fuel initState H0 Hmax) as [H _].
  cbn [totalIters initState] in H. now rewrite Z.sub_0_r in H.
Qed.

(** The loop terminates: [march_fuel] bodies are enough. *)
Lemma march_loop_terminates :
  (maxRaymarchStepCount u < INT_MAX)%Z ->
  march_loop g u (march_fuel u) r <> None.
Proof.
  intros Hmax. unfold march_loop, march_fuel.
  assert (H0 : (0 <= totalIters initState)%Z) by (cbn; lia).
  destruct (march_run_bound (S (Z.to_nat (maxRaymarchStepCount u + 1)))
                            initState H0 Hmax) as [_ H].
  apply H. cbn [totalIters initState]. rewrite Z.sub_0_r. lia.
Qed.
End Loop.

(** [march] returns a colour. *)
Lemma march_total (g : Glsl) (u : Uniforms) (s e : vec3) (sc : ivec2) :
  (maxRaymarchStepCount u < INT_MAX)%Z ->
  march g u (march_fuel u) s e sc <> None.
Proof.
  intros Hmax. unfold march.
  destruct (march_init g u s e sc) as [r |]; [| discriminate].
  pose proof (march_loop_terminates g u r Hmax) as H.
  destruct (march_loop g u (march_fuel u) r) as [[st |] |];
    [discriminate | discriminate | contradiction].
Qed.

(** ** Concrete inputs evaluated *)

Lemma ray_ext (a b : Ray) :
  rayStart a = rayStart b -> rayDir a = rayDir b ->
  maxRayLength a = maxRayLength b -> rayLength a = rayLength b ->
  baseStepLength a = baseStepLength b -> jitter a = jitter b ->
  a = b.
Proof.
  destruct a, b. cbn. intros. subst. reflexivity.
Qed.

Lemma clamp_unit_range (x : R) : 0 <= clamp x 0 1 <= 1.
Proof.
  unfold clamp. split.
  - apply Rmin_glb; [apply Rmax_r | lra].
  - apply Rmin_r.
Qed.

Lemma smoothstep_range (g : Glsl) (e0 e1 x : R) :
  e0 < e1 -> 0 <= smoothstep g e0 e1 x <= 1.
Proof.
  intros He. unfold smoothstep.
  destruct (Rlt_dec e0 e1) as [_ | N]; [| contradiction].
  cbv zeta.
  pose proof (clamp_unit_range ((x - e0) / (e1 - e0))) as [H0 H1].
  set (t := clamp ((x - e0) / (e1 - e0)) 0 1) in *.
  assert (0 <= t * t) by nra.
  assert (0 <= (1 - t) * (1 - t) * (1 + 2 * t)).
  { apply Rmult_le_pos; [nra | lra]. }
  split; nra.
Qed.

Lemma octaves_saturatedFog (p : vec3) :
  fst (octaves saturatedFog p (noiseBias saturatedFog)) = 2.18.
Proof.
  unfold octaves, sampleFogDensityLOD, sampleFogFromNoise. cbn. lra.
Qed.

(** Under [saturatedFog] the noise term saturates at 1; below the fade-out
    band only the height fog varies. *)
Lemma sampleFogDensity_saturatedFog (g : Glsl) (p : vec3) :
  vy p <= 2.9 ->
  sampleFogDensity g saturatedFog p
  = 1 + (1 - smoothstep g (-10) 8 (vy p)) * 0.1852.
Proof.
  intros Hy. unfold sampleFogDensity. cbv zeta.
  rewrite octaves_saturatedFog.
  replace (clamp (2.18 * 0.5 + 0.5) (-1) 1) with 1.
  2:{ unfold clamp. rewrite Rmax_left by lra.
      rewrite Rmin_right by lra. reflexivity. }
  rewrite pow_one.
  cbn [vy vadd vscale].
  replace (vy p + 0 * curTimeSeconds saturatedFog) with (vy p) by lra.
  rewrite fadeOut_below_range by (cbn; lra).
  destruct (Rle_dec (vy p) (heightFogEndY saturatedFog)) as [L | N].
  - cbn. lra.
  - exfalso. apply N. cbn. lra.
Qed.

Lemma originDensity_range : 1 <= originDensity <= 1.1852.
Proof.
  unfold originDensity.
  rewrite sampleFogDensity_saturatedFog by (cbn; lra).
  pose proof (smoothstep_range glsl_zero (-10) 8 (vy vzero)). lra.
Qed.

(** Along the x axis through the origin the density is the one at the
    origin. *)
Lemma sampleFogDensity_along_x (r : Ray) (t : R) :
  rayStart r = Vec3 0 0 0 -> rayDir r = Vec3 1 0 0 ->
  sampleFogDensity glsl_zero saturatedFog (samplePos r t) = originDensity.
Proof.
  intros Hs Hd. unfold originDensity, samplePos. rewrite Hs, Hd.
  rewrite !sampleFogDensity_saturatedFog by (cbn; lra).
  cbn. replace (0 + 0 * t) with 0 by lra. reflexivity.
Qed.

(** Evaluation of [march_init] on a segment along the x axis to a ray
    given by its numerals. *)
Ltac eval_Rmin :=
  unfold Rmin;
  repeat match goal with
         | |- context [Rle_dec ?a ?b] => destruct (Rle_dec a b)
         end;
  lra.

Ltac init_along_x y L :=
  lazymatch goal with
  | |- march_init ?g ?u _ _ ?sc = Some ?ray =>
      let r := fresh "r" in
      let Hd := fresh "Hd" in
      let Hm := fresh "Hm" in
      let Hr := fresh "Hr" in
      let Hb := fresh "Hb" in
      let Hj := fresh "Hj" in
      let Hs := fresh "Hs" in
      let Hm' := fresh "Hm'" in
      let Hr' := fresh "Hr'" in
      destruct (march_init_along_x g u y L sc)
        as (r & -> & Hd & Hm & Hr & Hb & Hj & Hs); [cbn; lra | lra |];
      cbn in Hm, Hj;
      assert (Hm' : maxRayLength r = maxRayLength ray)
        by (rewrite Hm; cbn; eval_Rmin);
      assert (Hr' : rayLength r = rayLength ray)
        by (rewrite Hr, Hm'; cbn; eval_Rmin);
      f_equal; apply ray_ext; cbn; try assumption;
      [ rewrite Hs, Hj; f_equal; lra
      | rewrite Hb, Hr'; cbn; rewrite fdiv_nonzero by lra; lra
      | rewrite Hj; lra ]
  end.

Lemma march_init_unitRay :
  march_init glsl_zero saturatedFog (Vec3 0 0 0) (Vec3 1 0 0) (IVec2 0 0)
  = Some unitRay.
Proof. init_along_x 0 1. Qed.

Lemma march_init_longRay :
  march_init glsl_zero saturatedFog (Vec3 0 0 0) (Vec3 7500 0 0) (IVec2 0 0)
  = Some longRay.
Proof. init_along_x 0 7500. Qed.

Lemma march_init_shortRay :
  march_init glsl_zero darkBlueNoise (Vec3 0 0 0) (Vec3 1 0 0) (IVec2 0 0)
  = Some shortRay.
Proof. init_along_x 0 1. Qed.

Lemma march_init_topRay :
  march_init glsl_zero cappedAtTwo (Vec3 0 4.4 0) (Vec3 1 4.4 0) (IVec2 0 0)
  = Some topRay.
Proof. init_along_x 4.4 1. Qed.

Lemma stepLength_unitRay : stepLength saturatedFog unitRay = 0.2.
Proof. unfold stepLength. cbn. rewrite Rmax_right by lra. lra. Qed.

Lemma stepLength_longRay : stepLength saturatedFog longRay = 22.5.
Proof. unfold stepLength. cbn. rewrite Rmax_left by lra. lra. Qed.

Lemma stepLength_shortRay : stepLength darkBlueNoise shortRay = 0.19.
Proof. unfold stepLength. cbn. rewrite Rmax_right by lra. lra. Qed.

Lemma stepLength_topRay : stepLength cappedAtTwo topRay = 0.49.
Proof. unfold stepLength. cbn. rewrite Rmax_left by lra. lra. Qed.

Lemma sampleFogDensity_low_range (g : Glsl) (p : vec3) :
  vy p <= 2.9 -> 1 <= sampleFogDensity g saturatedFog p <= 1.1852.
Proof.
  intros Hy. rewrite sampleFogDensity_saturatedFog by exact Hy.
  pose proof (smoothstep_range g (-10) 8 (vy p)). lra.
Qed.




Lemma march_init_denseCap :
  march_init glsl_zero denseCap (Vec3 0 0 0) (Vec3 7500 0 0) (IVec2 0 0)
  = Some longRay.
Proof. init_along_x 0 7500. Qed.

Lemma march_init_backwardRay :
  march_init glsl_zero noMinStep (Vec3 0 0 0) (Vec3 0.4 0 0) (IVec2 0 0)
  = Some backwardRay.
Proof. init_along_x 0 0.4. Qed.

Lemma stepLength_denseCap : stepLength denseCap longRay = 22.5.
Proof. unfold stepLength. cbn. rewrite Rmax_left by lra. lra. Qed.

Lemma stepLength_backwardRay : stepLength noMinStep backwardRay = -0.005.
Proof. unfold stepLength. cbn. rewrite Rmax_left by lra. lra. Qed.

(** The raw densities sampled along the concrete rays, all of which run
    at height 0. *)
Lemma rawDensityAt_denseCap (i : nat) :
  1 <= rawDensityAt glsl_zero denseCap longRay i <= 1.1852.
Proof.
  unfold rawDensityAt.
  change (sampleFogDensity glsl_zero denseCap)
    with (sampleFogDensity glsl_zero saturatedFog).
  apply sampleFogDensity_low_range. unfold samplePos. cbn. lra.
Qed.

Lemma rawDensityAt_backwardRay (i : nat) :
  1 <= rawDensityAt glsl_zero noMinStep backwardRay i <= 1.1852.
Proof.
  unfold rawDensityAt.
  change (sampleFogDensity glsl_zero noMinStep)
    with (sampleFogDensity glsl_zero saturatedFog).
  apply sampleFogDensity_low_range. unfold samplePos. cbn. lra.
Qed.

Lemma rawDensityAt_unitRay (i : nat) :
  1 <= rawDensityAt glsl_zero saturatedFog unitRay i <= 1.1852.
Proof.
  unfold rawDensityAt.
  apply sampleFogDensity_low_range. unfold samplePos. cbn. lra.
Qed.

Lemma rawDensityAt_shortRay (i : nat) :
  1 <= rawDensityAt glsl_zero darkBlueNoise shortRay i <= 1.1852.
Proof.
  unfold rawDensityAt.
  change (sampleFogDensity glsl_zero darkBlueNoise)
    with (sampleFogDensity glsl_zero saturatedFog).
  apply sampleFogDensity_low_range. unfold samplePos. cbn. lra.
Qed.

(** The opacity after the first body of a run whose first sample passes
    the gate. *)
Lemma density_first_body (g : Glsl) (u : Uniforms) (r : Ray) :
  rawDensityAt g u r 0 > 0.01 ->
  density (bodies g u r 1 initState)
  = rawDensityAt g u r 0 * stepLength u r * fogDensityMultiplier u.
Proof.
  intros G. rewrite density_bodies_S.
  destruct (Rgt_dec (rawDensityAt g u r 0) 0.01) as [_ | N]; [| contradiction].
  cbn [bodies density initState]. ring.
Qed.

Lemma unitRay_two_bodies :
  nth_error (march_states glsl_zero saturatedFog 2 unitRay) 1
  = Some (bodies glsl_zero saturatedFog unitRay 1 initState) /\
  nth_error (march_states glsl_zero saturatedFog 2 unitRay) 2
  = Some (bodies glsl_zero saturatedFog unitRay 2 initState).
Proof.
  apply march_states_second.
  - cbn. lra.
  - rewrite stepLength_unitRay. cbn. lra.
  - cbn. lia.
  - change (body glsl_zero saturatedFog unitRay initState)
      with (bodies glsl_zero saturatedFog unitRay 1 initState).
    pose proof (rawDensityAt_unitRay 0).
    rewrite density_first_body by lra. rewrite stepLength_unitRay. cbn. lra.
Qed.

Lemma shortRay_two_bodies :
  nth_error (march_states glsl_zero darkBlueNoise 2 shortRay) 1
  = Some (bodies glsl_zero darkBlueNoise shortRay 1 initState) /\
  nth_error (march_states glsl_zero darkBlueNoise 2 shortRay) 2
  = Some (bodies glsl_zero darkBlueNoise shortRay 2 initState).
Proof.
  apply march_states_second.
  - cbn. lra.
  - rewrite stepLength_shortRay. cbn. lra.
  - cbn. lia.
  - change (body glsl_zero darkBlueNoise shortRay initState)
      with (bodies glsl_zero darkBlueNoise shortRay 1 initState).
    pose proof (rawDensityAt_shortRay 0).
    rewrite density_first_body by lra. rewrite stepLength_shortRay. cbn. lra.
Qed.

(** ** Where the code departs from the specification *)

(** C2, as stated, fails in each of its parts.
    The bound: with the default parameters, a saturated noise texture and
    the segment (0,0,0)-(7500,0,0), the first step is 22.5 long and takes
    the accumulated density from 0 to more than 1.9, above maxDensity = 1.
    Monotonicity: with maxDensity = 3 the same run goes on after that
    step, and the second step, weighted by a negative remaining opacity,
    lowers the density.
    Non-negativity: with minStepLength = 0 and a blue-noise sample of 0 the
    segment (0,0,0)-(0.4,0,0) is marched with the step 0.005 - 0.01 < 0,
    and the first step takes the density below 0. *)
Lemma C2_counterexample :
  (march_init glsl_zero saturatedFog (Vec3 0 0 0) (Vec3 7500 0 0) (IVec2 0 0)
   = Some longRay /\
   nth_error (march_states glsl_zero saturatedFog 1 longRay) 1
   = Some (body glsl_zero saturatedFog longRay initState) /\
   ~ (0 <= density (body glsl_zero saturatedFog longRay initState)
      <= maxDensity saturatedFog)) /\
  (march_init glsl_zero denseCap (Vec3 0 0 0) (Vec3 7500 0 0) (IVec2 0 0)
   = Some longRay /\
   maxDensity denseCap = 3 /\
   0 <= stepLength denseCap longRay * fogDensityMultiplier denseCap /\
   nth_error (march_states glsl_zero denseCap 2 longRay) 1
   = Some (bodies glsl_zero denseCap longRay 1 initState) /\
   nth_error (march_states glsl_zero denseCap 2 longRay) 2
   = Some (bodies glsl_zero denseCap longRay 2 initState) /\
   ~ (density (bodies glsl_zero denseCap longRay 1 initState)
      <= density (bodies glsl_zero denseCap longRay 2 initState))) /\
  (march_init glsl_zero noMinStep (Vec3 0 0 0) (Vec3 0.4 0 0) (IVec2 0 0)
   = Some backwardRay /\
   maxDensity noMinStep <= 1.01 /\
   stepLength noMinStep backwardRay * fogDensityMultiplier noMinStep < 0 /\
   nth_error (march_states glsl_zero noMinStep 1 backwardRay) 0
   = Some initState /\
   nth_error (march_states glsl_zero noMinStep 1 backwardRay) 1
   = Some (body glsl_zero noMinStep backwardRay initState) /\
   ~ (density initState
      <= density (body glsl_zero noMinStep backwardRay initState)) /\
   ~ (0 <= density (body glsl_zero noMinStep backwardRay initState))).
Proof.
  split; [| split].
  - split; [exact march_init_longRay|]. split.
    + apply march_states_first; [cbn; lra | cbn; lia].
    + rewrite density_body. cbv zeta.
      rewrite sampleFogDensity_along_x by reflexivity.
      pose proof originDensity_range as Hk.
      destruct (Rgt_dec originDensity 0.01) as [_ | N]; [| lra].
      rewrite stepLength_longRay. cbn. lra.
  - pose proof (rawDensityAt_denseCap 0) as K0.
    pose proof (rawDensityAt_denseCap 1) as K1.
    assert (D1 : density (bodies glsl_zero denseCap longRay 1 initState)
                 = rawDensityAt glsl_zero denseCap longRay 0 * 22.5 * 0.086).
    { rewrite density_first_body by lra. rewrite stepLength_denseCap.
      reflexivity. }
    split; [exact march_init_denseCap|]. split; [reflexivity|].
    split; [rewrite stepLength_denseCap; cbn; lra|].
    destruct (march_states_second glsl_zero denseCap longRay 0) as [E1 E2].
    + cbn. lra.
    + rewrite stepLength_denseCap. cbn. lra.
    + cbn. lia.
    + change (body glsl_zero denseCap longRay initState)
        with (bodies glsl_zero denseCap longRay 1 initState).
      rewrite D1. cbn. lra.
    + split; [exact E1|]. split; [exact E2|].
      rewrite (density_bodies_S glsl_zero denseCap longRay 1).
      destruct (Rgt_dec (rawDensityAt glsl_zero denseCap longRay 1) 0.01)
        as [_ | N]; [| lra].
      rewrite D1, stepLength_denseCap.
      change (fogDensityMultiplier denseCap) with 0.086.
      set (k0 := rawDensityAt glsl_zero denseCap longRay 0) in *.
      set (k1 := rawDensityAt glsl_zero denseCap longRay 1) in *.
      nra.
  - pose proof (rawDensityAt_backwardRay 0) as K0.
    assert (D1 : density (body glsl_zero noMinStep backwardRay initState)
                 = rawDensityAt glsl_zero noMinStep backwardRay 0
                   * (-0.005) * 0.086).
    { change (body glsl_zero noMinStep backwardRay initState)
        with (bodies glsl_zero noMinStep backwardRay 1 initState).
      rewrite density_first_body by lra. rewrite stepLength_backwardRay.
      reflexivity. }
    split; [exact march_init_backwardRay|]. split; [cbn; lra|].
    split; [rewrite stepLength_backwardRay; cbn; lra|].
    split; [reflexivity|]. split.
    + apply march_states_first; [cbn; lra | cbn; lia].
    + rewrite D1. cbn [density initState]. split; lra.
Qed.

(** C4, as stated, fails: the segment (0,10,0)-(0,0,0) has length 10
    before slab clipping and 4.4 after it; the code's maximum ray length
    is 300 + min(4.4 * 0.2, 1500) = 300.88, not 300 + min(10 * 0.2, 1500). *)
Lemma C4_counterexample :
  exists r : Ray,
    march_init glsl_zero saturatedFog (Vec3 0 10 0) (Vec3 0 0 0) (IVec2 0 0)
    = Some r /\
    vlength (vsub (Vec3 0 0 0) (Vec3 0 10 0)) = 10 /\
    maxRayLength r = 300.88 /\
    maxRayLength r <> baseMaxRayLength saturatedFog + Rmin (10 * 0.2) 1500.
Proof.
  assert (Hl : vlength (vsub (Vec3 0 0 0) (Vec3 0 10 0)) = 10).
  { unfold vlength. cbn [vsub vx vy vz].
    replace ((0 - 0) * (0 - 0) + (0 - 10) * (0 - 10) + (0 - 0) * (0 - 0))
      with (10 * 10) by ring.
    apply sqrt_square. lra. }
  assert (Hc : clipped glsl_zero saturatedFog (Vec3 0 10 0) (Vec3 0 0 0)
               = (Vec3 0 4.4 0, Vec3 0 0 0)).
  { rewrite clipped_inside by (unfold outside; cbn; lra). cbv zeta.
    unfold normalize. rewrite Hl. cbn [vsub vx vy vz].
    rewrite !fdiv_nonzero by lra.
    cbn [fogMinY fogMaxY saturatedFog defaultUniforms vy].
    repeat (split_Rlt; cbn [vy] in *; try lra).
    unfold hit. cbn [vy]. rewrite fdiv_nonzero by lra.
    unfold vadd, vscale. cbn [vx vy vz]. f_equal. f_equal; field. }
  assert (Hl' : vlength (vsub (Vec3 0 0 0) (Vec3 0 4.4 0)) = 4.4).
  { unfold vlength. cbn [vsub vx vy vz].
    replace ((0 - 0) * (0 - 0) + (0 - 4.4) * (0 - 4.4) + (0 - 0) * (0 - 0))
      with (4.4 * 4.4) by ring.
    apply sqrt_square. lra. }
  destruct (march_init glsl_zero saturatedFog (Vec3 0 10 0) (Vec3 0 0 0)
                       (IVec2 0 0)) as [r |] eqn:E.
  - exists r. split; [reflexivity|]. split; [exact Hl|].
    apply march_init_Some in E. cbv zeta in E.
    rewrite Hc in E. cbn [fst snd] in E. rewrite Hl' in E.
    destruct E as (_ & _ & Hm & _). cbn in Hm.
    rewrite Rmin_left in Hm by lra.
    split; [lra|]. cbn. rewrite Rmin_left by lra. lra.
  - exfalso. unfold march_init in E. rewrite Hc in E.
    destruct (vec3_eq_dec (Vec3 0 4.4 0) (Vec3 0 0 0)) as [F | N];
      [| discriminate].
    injection F as F. lra.
Qed.

(** C5 fails on the code: under maxRaymarchStepCount = 2 (and
    baseRaymarchStepCount = 2, blue-noise sample 0) the segment
    (0,4.4,0)-(1,4.4,0) is marched in three full iterations of step 0.49,
    after which the loop ends normally with totalIters = 3: the test
    totalIters > maxRaymarchStepCount lets one iteration more than the cap
    through. *)
Theorem C5_three_iterations_under_cap_two :
  march_init glsl_zero cappedAtTwo (Vec3 0 4.4 0) (Vec3 1 4.4 0) (IVec2 0 0)
  = Some topRay /\
  maxRaymarchStepCount cappedAtTwo = 2%Z /\
  march_run glsl_zero cappedAtTwo (march_fuel cappedAtTwo) topRay initState
  = ([bodies glsl_zero cappedAtTwo topRay 1 initState;
      bodies glsl_zero cappedAtTwo topRay 2 initState;
      bodies glsl_zero cappedAtTwo topRay 3 initState],
     Some (Done (bodies glsl_zero cappedAtTwo topRay 3 initState))) /\
  totalIters (bodies glsl_zero cappedAtTwo topRay 3 initState) = 3%Z.
Proof.
  split; [exact march_init_topRay|]. split; [reflexivity|].
  assert (Hraw : forall t,
             sampleFogDensity glsl_zero cappedAtTwo (samplePos topRay t) = 0).
  { intros t. apply sampleFogDensity_at_top; [cbn; lra|].
    unfold samplePos. cbn. lra. }
  assert (Hden : forall st,
             density (body glsl_zero cappedAtTwo topRay st) = density st).
  { intros st. apply density_body_gated. rewrite Hraw. lra. }
  cbn [bodies].
  set (b1 := body glsl_zero cappedAtTwo topRay initState).
  set (b2 := body glsl_zero cappedAtTwo topRay b1).
  set (b3 := body glsl_zero cappedAtTwo topRay b2).
  assert (Hd1 : totalDistance b1 = 0.49).
  { unfold b1. rewrite totalDistance_body, stepLength_topRay. cbn. lra. }
  assert (Hd2 : totalDistance b2 = 0.98).
  { unfold b2. rewrite totalDistance_body, stepLength_topRay, Hd1. lra. }
  assert (Hd3 : totalDistance b3 = 1.47).
  { unfold b3. rewrite totalDistance_body, stepLength_topRay, Hd2. lra. }
  assert (Hi1 : totalIters b1 = 1%Z).
  { unfold b1. now rewrite totalIters_body. }
  assert (Hi2 : totalIters b2 = 2%Z).
  { unfold b2. rewrite totalIters_body, Hi1. reflexivity. }
  assert (Hi3 : totalIters b3 = 3%Z).
  { unfold b3. rewrite totalIters_body, Hi2. reflexivity. }
  assert (Hz1 : density b1 = 0) by (unfold b1; now rewrite Hden).
  assert (Hz2 : density b2 = 0) by (unfold b2; now rewrite Hden, Hz1).
  assert (Hz3 : density b3 = 0) by (unfold b3; now rewrite Hden, Hz2).
  split; [| exact Hi3].
  change (march_fuel cappedAtTwo) with 4%nat. cbn [march_run].
  rewrite (iteration_continue_intro glsl_zero cappedAtTwo topRay initState);
    [| cbn; lra | cbn; lia | fold b1; rewrite Hz1; cbn; lra ].
  fold b1.
  rewrite (iteration_continue_intro glsl_zero cappedAtTwo topRay b1);
    [| rewrite Hd1; cbn; lra | rewrite Hi1; cbn; lia
     | fold b2; rewrite Hz2; cbn; lra ].
  fold b2.
  rewrite (iteration_continue_intro glsl_zero cappedAtTwo topRay b2);
    [| rewrite Hd2; cbn; lra | rewrite Hi2; cbn; lia
     | fold b3; rewrite Hz3; cbn; lra ].
  fold b3.
  rewrite (iteration_exit_intro glsl_zero cappedAtTwo topRay b3);
    [| rewrite Hd3; cbn; lra ].
  reflexivity.
Qed.

(** C6, as stated, fails: with the default parameters and a blue-noise
    sample of 0 the jitter is -0.05, and the segment (0,0,0)-(1,0,0) is
    marched with steps of 0.19, below minStepLength = 0.2. *)
Lemma C6_counterexample :
  march_init glsl_zero darkBlueNoise (Vec3 0 0 0) (Vec3 1 0 0) (IVec2 0 0)
  = Some shortRay /\
  nth_error (march_states glsl_zero darkBlueNoise 1 shortRay) 1
  = Some (body glsl_zero darkBlueNoise shortRay initState) /\
  totalDistance (body glsl_zero darkBlueNoise shortRay initState)
  = stepLength darkBlueNoise shortRay /\
  ~ (stepLength darkBlueNoise shortRay >= minStepLength darkBlueNoise).
Proof.
  split; [exact march_init_shortRay|]. split.
  - apply march_states_first; [cbn; lra | cbn; lia].
  - split.
    + rewrite totalDistance_body. cbn [totalDistance initState]. lra.
    + rewrite stepLength_shortRay. cbn. lra.
Qed.

(** C8, as stated, fails: in binary32, at the default bounds, clipping the
    segment (0,8,0)-(4,2,0) moves the start to a point whose y is one unit
    in the last place above fogMaxY, and clipping the result moves it
    again. *)
Lemma C8_counterexample :
  Float32.lt Float32.defaultFogMaxY
    (Float32.vy
       (fst (Float32.clipRayEndpoints
               Float32.defaultFogMinY Float32.defaultFogMaxY
               Float32.crossingStart Float32.crossingEnd)))
  = true /\
  Float32.clipRayEndpoints Float32.defaultFogMinY Float32.defaultFogMaxY
    (fst (Float32.clipRayEndpoints
            Float32.defaultFogMinY Float32.defaultFogMaxY
            Float32.crossingStart Float32.crossingEnd))
    (snd (Float32.clipRayEndpoints
            Float32.defaultFogMinY Float32.defaultFogMaxY
            Float32.crossingStart Float32.crossingEnd))
  <> Float32.clipRayEndpoints Float32.defaultFogMinY Float32.defaultFogMaxY
       Float32.crossingStart Float32.crossingEnd.
Proof.
  split; [vm_compute; reflexivity|]. vm_compute. discriminate.
Qed.


(** ** The theorems at concrete inputs *)

(** The closed form after the first step of the segment (0,0,0)-(1,0,0)
    under [saturatedFog]. *)
Lemma C1_witness :
  originDensity > 0.01 /\
  (forall i, (i < 1)%nat ->
     sampleFogDensity glsl_zero saturatedFog
       (samplePos unitRay (INR i * stepLength saturatedFog unitRay))
     = originDensity) /\
  0 <= originDensity * stepLength saturatedFog unitRay
       * fogDensityMultiplier saturatedFog <= 1 /\
  nth_error (march_states glsl_zero saturatedFog 1 unitRay) 1
  = Some (body glsl_zero saturatedFog unitRay initState) /\
  density (body glsl_zero saturatedFog unitRay initState)
  = 1 - (1 - originDensity * stepLength saturatedFog unitRay
             * fogDensityMultiplier saturatedFog) ^ 1.
Proof.
  pose proof originDensity_range as Hk.
  assert (H1 : originDensity > 0.01) by lra.
  assert (H2 : forall i, (i < 1)%nat ->
             sampleFogDensity glsl_zero saturatedFog
               (samplePos unitRay (INR i * stepLength saturatedFog unitRay))
             = originDensity)
    by (intros i _; apply sampleFogDensity_along_x; reflexivity).
  assert (H3 : 0 <= originDensity * stepLength saturatedFog unitRay
                    * fogDensityMultiplier saturatedFog <= 1)
    by (rewrite stepLength_unitRay; cbn; lra).
  assert (H4 : nth_error (march_states glsl_zero saturatedFog 1 unitRay) 1
               = Some (body glsl_zero saturatedFog unitRay initState))
    by (apply march_states_first; [cbn; lra | cbn; lia]).
  repeat split; try assumption; try lra.
  exact (C1_constant_density_closed_form glsl_zero saturatedFog unitRay
           1 1 _ originDensity H1 H2 H3 H4).
Defined.

(** The second state of the run of the segment (0,0,0)-(1,0,0) under
    [saturatedFog], which a third one follows. *)
Lemma C2_witness :
  nth_error (march_states glsl_zero saturatedFog 2 unitRay) 1
  = Some (bodies glsl_zero saturatedFog unitRay 1 initState) /\
  nth_error (march_states glsl_zero saturatedFog 2 unitRay) 2
  = Some (bodies glsl_zero saturatedFog unitRay 2 initState) /\
  0 <= stepLength saturatedFog unitRay * fogDensityMultiplier saturatedFog /\
  maxDensity saturatedFog <= 1.01 /\
  (sampleFogDensity glsl_zero saturatedFog
     (samplePos unitRay (INR 1 * stepLength saturatedFog unitRay)) > 0.01 ->
   sampleFogDensity glsl_zero saturatedFog
     (samplePos unitRay (INR 1 * stepLength saturatedFog unitRay))
   * stepLength saturatedFog unitRay * fogDensityMultiplier saturatedFog
   <= 1) /\
  density (bodies glsl_zero saturatedFog unitRay 1 initState)
  < maxDensity saturatedFog - 0.01 /\
  0 <= density (bodies glsl_zero saturatedFog unitRay 1 initState)
    <= density (bodies glsl_zero saturatedFog unitRay 2 initState) /\
  density (bodies glsl_zero saturatedFog unitRay 2 initState) <= 1.
Proof.
  destruct unitRay_two_bodies as [H1 H2].
  assert (Hs : 0 <= stepLength saturatedFog unitRay
                    * fogDensityMultiplier saturatedFog)
    by (rewrite stepLength_unitRay; cbn; lra).
  assert (Hm : maxDensity saturatedFog <= 1.01) by (cbn; lra).
  assert (Hd : sampleFogDensity glsl_zero saturatedFog
                 (samplePos unitRay (INR 1 * stepLength saturatedFog unitRay))
               > 0.01 ->
               sampleFogDensity glsl_zero saturatedFog
                 (samplePos unitRay (INR 1 * stepLength saturatedFog unitRay))
               * stepLength saturatedFog unitRay
               * fogDensityMultiplier saturatedFog <= 1).
  { intros _. pose proof (rawDensityAt_unitRay 1) as K.
    unfold rawDensityAt in K.
    set (k := sampleFogDensity _ _ _) in *.
    rewrite stepLength_unitRay.
    change (fogDensityMultiplier saturatedFog) with 0.086. lra. }
  split; [exact H1|]. split; [exact H2|]. split; [exact Hs|].
  split; [exact Hm|]. split; [exact Hd|]. split.
  - exact (proj1 (C2_accumulated_density_monotone_below_threshold
                    glsl_zero saturatedFog unitRay 2 1 _ _ H1 H2)
                 Nat.lt_0_1).
  - split.
    + exact (proj1 (proj2 (C2_accumulated_density_monotone_below_threshold
                             glsl_zero saturatedFog unitRay 2 1 _ _ H1 H2)
                          Hs Hm)).
    + exact (proj2 (proj2 (C2_accumulated_density_monotone_below_threshold
                             glsl_zero saturatedFog unitRay 2 1 _ _ H1 H2)
                          Hs Hm) Hd).
Defined.

(** A segment from y = -100 to y = -200, below the default fogMinY = -40. *)
Lemma C3_witness :
  ((vy (Vec3 0 (-100) 0) < fogMinY saturatedFog /\
    vy (Vec3 5 (-200) 3) < fogMinY saturatedFog) \/
   (vy (Vec3 0 (-100) 0) > fogMaxY saturatedFog /\
    vy (Vec3 5 (-200) 3) > fogMaxY saturatedFog)) /\
  march glsl_zero saturatedFog 0 (Vec3 0 (-100) 0) (Vec3 5 (-200) 3)
        (IVec2 7 9)
  = Some (Vec4 0 0 0 0).
Proof.
  assert (H : (vy (Vec3 0 (-100) 0) < fogMinY saturatedFog /\
               vy (Vec3 5 (-200) 3) < fogMinY saturatedFog) \/
              (vy (Vec3 0 (-100) 0) > fogMaxY saturatedFog /\
               vy (Vec3 5 (-200) 3) > fogMaxY saturatedFog))
    by (left; cbn; lra).
  split; [exact H|].
  exact (C3_ray_outside_slab_is_transparent glsl_zero saturatedFog 0
           (Vec3 0 (-100) 0) (Vec3 5 (-200) 3) (IVec2 7 9) H).
Defined.

(** The cap of the segment (0,0,0)-(1,0,0), which lies in the slab. *)
Lemma C4_witness :
  march_init glsl_zero saturatedFog (Vec3 0 0 0) (Vec3 1 0 0) (IVec2 0 0)
  = Some unitRay /\
  maxRayLength unitRay =
    baseMaxRayLength saturatedFog
    + Rmin (vlength
              (vsub (snd (clipped glsl_zero saturatedFog
                            (Vec3 0 0 0) (Vec3 1 0 0)))
                    (fst (clipped glsl_zero saturatedFog
                            (Vec3 0 0 0) (Vec3 1 0 0)))) * 0.2) 1500 /\
  rayLength unitRay =
    Rmin (vlength
            (vsub (snd (clipped glsl_zero saturatedFog
                          (Vec3 0 0 0) (Vec3 1 0 0)))
                  (fst (clipped glsl_zero saturatedFog
                          (Vec3 0 0 0) (Vec3 1 0 0)))))
         (maxRayLength unitRay).
Proof.
  split; [exact march_init_unitRay|].
  exact (C4_max_ray_length_from_clipped_segment glsl_zero saturatedFog
           (Vec3 0 0 0) (Vec3 1 0 0) (IVec2 0 0) unitRay march_init_unitRay).
Defined.

(** The step length of the segment (0,0,0)-(1,0,0) with blue-noise sample
    0.5. *)
Lemma C6_witness :
  march_init glsl_zero saturatedFog (Vec3 0 0 0) (Vec3 1 0 0) (IVec2 0 0)
  = Some unitRay /\
  0 <= blueNoise saturatedFog
         (IVec2 (Z.rem 0 (blueNoiseResolution saturatedFog))
                (Z.rem 0 (blueNoiseResolution saturatedFog))) <= 1 /\
  stepLength saturatedFog unitRay >= minStepLength saturatedFog - 0.01 /\
  (blueNoise saturatedFog
     (IVec2 (Z.rem 0 (blueNoiseResolution saturatedFog))
            (Z.rem 0 (blueNoiseResolution saturatedFog))) >= 0.5 ->
   stepLength saturatedFog unitRay >= minStepLength saturatedFog).
Proof.
  assert (H : 0 <= blueNoise saturatedFog
                     (IVec2 (Z.rem 0 (blueNoiseResolution saturatedFog))
                            (Z.rem 0 (blueNoiseResolution saturatedFog)))
              <= 1)
    by (cbn; lra).
  split; [exact march_init_unitRay|]. split; [exact H|].
  exact (C6_step_length_lower_bound glsl_zero saturatedFog
           (Vec3 0 0 0) (Vec3 1 0 0) (IVec2 0 0) unitRay
           march_init_unitRay H).
Defined.

(** The horizontal segment (0,0,0)-(1,0,0) under the default bounds. *)
Lemma C7_witness :
  vy (Vec3 0 0 0) = vy (Vec3 1 0 0) /\
  snd (clipRayEndpoints glsl_zero saturatedFog (Vec3 0 0 0) (Vec3 1 0 0)) = []
  /\
  ((outside saturatedFog (Vec3 0 0 0) (Vec3 1 0 0) /\
    fst (clipRayEndpoints glsl_zero saturatedFog (Vec3 0 0 0) (Vec3 1 0 0))
    = (Vec3 1 0 0, Vec3 1 0 0)) \/
   (~ outside saturatedFog (Vec3 0 0 0) (Vec3 1 0 0) /\
    fst (clipRayEndpoints glsl_zero saturatedFog (Vec3 0 0 0) (Vec3 1 0 0))
    = (Vec3 0 0 0, Vec3 1 0 0))).
Proof.
  split; [reflexivity|].
  exact (C7_horizontal_segment_no_plane_intersection glsl_zero saturatedFog
           (Vec3 0 0 0) (Vec3 1 0 0) eq_refl).
Defined.

(** The crossing segment (0,10,0)-(0,0,0) over the reals, and in binary32
    the horizontal segment (0,2,0)-(4,2,0) inside the default slab. *)
Lemma C8_witness :
  clipped glsl_zero saturatedFog
    (fst (clipped glsl_zero saturatedFog (Vec3 0 10 0) (Vec3 0 0 0)))
    (snd (clipped glsl_zero saturatedFog (Vec3 0 10 0) (Vec3 0 0 0)))
  = clipped glsl_zero saturatedFog (Vec3 0 10 0) (Vec3 0 0 0) /\
  (Float32.outside Float32.defaultFogMinY Float32.defaultFogMaxY
     (Float32.Vec3 (Float32.of_Z 0) (Float32.of_Z 2) (Float32.of_Z 0))
     Float32.crossingEnd = true \/
   (Float32.inSlab Float32.defaultFogMinY Float32.defaultFogMaxY
      (Float32.Vec3 (Float32.of_Z 0) (Float32.of_Z 2) (Float32.of_Z 0))
    = true /\
    Float32.inSlab Float32.defaultFogMinY Float32.defaultFogMaxY
      Float32.crossingEnd = true)) /\
  Float32.clipRayEndpoints Float32.defaultFogMinY Float32.defaultFogMaxY
    (fst (Float32.clipRayEndpoints
            Float32.defaultFogMinY Float32.defaultFogMaxY
            (Float32.Vec3 (Float32.of_Z 0) (Float32.of_Z 2) (Float32.of_Z 0))
            Float32.crossingEnd))
    (snd (Float32.clipRayEndpoints
            Float32.defaultFogMinY Float32.defaultFogMaxY
            (Float32.Vec3 (Float32.of_Z 0) (Float32.of_Z 2) (Float32.of_Z 0))
            Float32.crossingEnd))
  = Float32.clipRayEndpoints Float32.defaultFogMinY Float32.defaultFogMaxY
      (Float32.Vec3 (Float32.of_Z 0) (Float32.of_Z 2) (Float32.of_Z 0))
      Float32.crossingEnd.
Proof.
  assert (H : Float32.outside Float32.defaultFogMinY Float32.defaultFogMaxY
                (Float32.Vec3 (Float32.of_Z 0) (Float32.of_Z 2)
                              (Float32.of_Z 0))
                Float32.crossingEnd = true \/
              (Float32.inSlab Float32.defaultFogMinY Float32.defaultFogMaxY
                 (Float32.Vec3 (Float32.of_Z 0) (Float32.of_Z 2)
                               (Float32.of_Z 0))
               = true /\
               Float32.inSlab Float32.defaultFogMinY Float32.defaultFogMaxY
                 Float32.crossingEnd = true))
    by (right; split; vm_compute; reflexivity).
  split.
  - exact (proj1 (C8_clipRayEndpoints_idempotent glsl_zero saturatedFog)
                 (Vec3 0 10 0) (Vec3 0 0 0)).
  - split; [exact H|].
    exact (proj2 (C8_clipRayEndpoints_idempotent glsl_zero saturatedFog)
                 _ _ _ _ H).
Defined.


(** The segment (0,10,0)-(0,0,0), which crosses the default fogMaxY. *)
Lemma C10_witness :
  fogMinY saturatedFog <= fogMaxY saturatedFog /\
  (fst (clipped glsl_zero saturatedFog (Vec3 0 10 0) (Vec3 0 0 0))
   = snd (clipped glsl_zero saturatedFog (Vec3 0 10 0) (Vec3 0 0 0)) \/
   (fogMinY saturatedFog
    <= vy (fst (clipped glsl_zero saturatedFog (Vec3 0 10 0) (Vec3 0 0 0)))
    <= fogMaxY saturatedFog /\
    fogMinY saturatedFog
    <= vy (snd (clipped glsl_zero saturatedFog (Vec3 0 10 0) (Vec3 0 0 0)))
    <= fogMaxY saturatedFog)).
Proof.
  assert (H : fogMinY saturatedFog <= fogMaxY saturatedFog) by (cbn; lra).
  split; [exact H|].
  exact (C10_clipped_segment_in_slab glsl_zero saturatedFog
           (Vec3 0 10 0) (Vec3 0 0 0) H).
Defined.

(* ------------------------------------------------------------------ *)
(** * Further properties of the code *)

(** ** SlabClipper: the divisions and the geometry *)

Section ClipperGeometry.
Variable g : Glsl.
Variable u : Uniforms.

Lemma along_0 (s e : vec3) : along s e 0 = s.
Proof. destruct s, e. unfold along, vadd, vscale, vsub. cbn. f_equal; ring. Qed.

Lemma along_1 (s e : vec3) : along s e 1 = e.
Proof. destruct s, e. unfold along, vadd, vscale, vsub. cbn. f_equal; ring. Qed.

(** Moving a point of the line to a plane gives the point of the line at
    the plane's parameter. *)
Lemma hit_along (s e : vec3) (c p : R) :
  vy s <> vy e ->
  hit g (along s e c) (normalize g (vsub e s)) p
  = along s e ((p - vy s) / (vy e - vy s)).
Proof.
  intros H.
  assert (Hy : vy (vsub e s) <> 0) by (cbn; lra).
  pose proof (vlength_pos _ Hy) as Hl.
  pose proof (normalize_vy_nonzero g s e H) as Hn.
  unfold hit. rewrite (fdiv_nonzero g _ _ Hn).
  unfold normalize. rewrite !fdiv_nonzero by lra.
  set (l := vlength (vsub e s)) in *.
  destruct s as [sx sy sz], e as [ex ey ez].
  unfold along, vadd, vscale, vsub. cbn [vx vy vz] in *.
  f_equal; field; split; lra.
Qed.

Lemma frac_range (a b p : R) :
  (a <= p <= b /\ a < b) \/ (b <= p <= a /\ b < a) ->
  0 <= (p - a) / (b - a) <= 1.
Proof.
  intros [[H L] | [H L]].
  - split.
    + apply Rmult_le_pos; [lra|]. left. apply Rinv_0_lt_compat. lra.
    + apply (Rmult_le_reg_r (b - a)); [lra|].
      unfold Rdiv. rewrite Rmult_assoc, Rinv_l by lra. lra.
  - replace ((p - a) / (b - a)) with ((a - p) / (a - b)) by (field; lra).
    split.
    + apply Rmult_le_pos; [lra|]. left. apply Rinv_0_lt_compat. lra.
    + apply (Rmult_le_reg_r (a - b)); [lra|].
      unfold Rdiv. rewrite Rmult_assoc, Rinv_l by lra. lra.
Qed.

Lemma frac_le (a b p q : R) :
  (p <= q /\ a < b) \/ (q <= p /\ b < a) ->
  (p - a) / (b - a) <= (q - a) / (b - a).
Proof.
  intros [[H L] | [H L]].
  - apply Rmult_le_compat_r; [| lra]. left. apply Rinv_0_lt_compat. lra.
  - replace ((p - a) / (b - a)) with ((a - p) / (a - b)) by (field; lra).
    replace ((q - a) / (b - a)) with ((a - q) / (a - b)) by (field; lra).
    apply Rmult_le_compat_r; [| lra]. left. apply Rinv_0_lt_compat. lra.
Qed.
End ClipperGeometry.

Section ClipperSafety.
Variable g : Glsl.
Variable u : Uniforms.

(** The log of a segment that passes the first test: one entry per
    endpoint that is moved, all along the segment's direction. *)
Lemma clipRayEndpoints_log (s e : vec3) :
  ~ outside u s e ->
  forall q, In q (snd (clipRayEndpoints g u s e)) ->
    pq_direction q = normalize g (vsub e s) /\
    (pq_plane q = fogMinY u \/ pq_plane q = fogMaxY u) /\
    vy s <> vy e.
Proof.
  intros H.
  destruct (Req_dec_T (vy s) (vy e)) as [E | N].
  - (* a horizontal segment that is not outside lies in the slab *)
    assert (Hs : fogMinY u <= vy s <= fogMaxY u) by (unfold outside in H; lra).
    rewrite clipRayEndpoints_in_slab by lra. cbn. contradiction.
  - rewrite <- outside_test in H. apply not_true_is_false in H.
    unfold clipRayEndpoints. rewrite H.
    unfold bind, ret, intersectRayXZPlane. cbv zeta.
    repeat split_Rlt; cbn [snd app In];
      intros q Hq;
      repeat (destruct Hq as [<- | Hq]; [cbn; auto |]);
      contradiction.
Qed.

(** The slab clipper never divides by zero: in exact arithmetic every
    plane intersection it computes, for any segment and any bounds, has a
    direction whose y is not 0. *)
Theorem clipRayEndpoints_divides_by_nonzero (s e : vec3) :
  forall q, In q (snd (clipRayEndpoints g u s e)) ->
    vy (pq_direction q) <> 0.
Proof.
  intros q Hq.
  destruct (Rlt_dec (vy s) (fogMinY u)) as [Hs1 | Hs1];
  destruct (Rlt_dec (vy e) (fogMinY u)) as [He1 | He1];
  destruct (Rlt_dec (fogMaxY u) (vy s)) as [Hs2 | Hs2];
  destruct (Rlt_dec (fogMaxY u) (vy e)) as [He2 | He2];
  try (rewrite clipRayEndpoints_outside in Hq by (unfold outside; lra);
       cbn in Hq; contradiction).
  all: destruct (clipRayEndpoints_log s e) with (q := q) as (-> & _ & N);
    [unfold outside; lra | exact Hq | now apply normalize_vy_nonzero].
Qed.
End ClipperSafety.

Section ClipperSegment.
Variable g : Glsl.
Variable u : Uniforms.

Lemma hit_start (s e : vec3) (p : R) :
  vy s <> vy e ->
  hit g s (normalize g (vsub e s)) p
  = along s e ((p - vy s) / (vy e - vy s)).
Proof.
  intros H. rewrite <- (along_0 s e) at 1. now apply hit_along.
Qed.

(** Facts about the parameters of the two planes, as far as the heights
    at hand give them. *)
Ltac plane_params s e :=
  try (assert (0 <= (fogMinY u - vy s) / (vy e - vy s) <= 1)
         by (apply frac_range; lra));
  try (assert (0 <= (fogMaxY u - vy s) / (vy e - vy s) <= 1)
         by (apply frac_range; lra));
  try (assert ((fogMinY u - vy s) / (vy e - vy s)
               <= (fogMaxY u - vy s) / (vy e - vy s))
         by (apply frac_le; lra));
  try (assert ((fogMaxY u - vy s) / (vy e - vy s)
               <= (fogMinY u - vy s) / (vy e - vy s))
         by (apply frac_le; lra)).

(** In exact real arithmetic clipping only shortens: with
    fogMinY <= fogMaxY both returned endpoints lie on the input segment,
    the start not after the end. *)
Theorem clipped_within_segment (s e : vec3) :
  fogMinY u <= fogMaxY u ->
  exists a b : R,
    fst (clipped g u s e) = along s e a /\
    snd (clipped g u s e) = along s e b /\
    0 <= a /\ a <= b /\ b <= 1.
Proof.
  intros Hb.
  destruct (Rlt_dec (vy s) (fogMinY u)) as [Hs1 | Hs1];
  destruct (Rlt_dec (vy e) (fogMinY u)) as [He1 | He1];
  destruct (Rlt_dec (fogMaxY u) (vy s)) as [Hs2 | Hs2];
  destruct (Rlt_dec (fogMaxY u) (vy e)) as [He2 | He2];
  try lra;
  try (exists 1, 1; unfold clipped;
       rewrite clipRayEndpoints_outside by (unfold outside; lra);
       cbn [fst snd]; rewrite along_1; repeat split; lra).
  all: rewrite clipped_inside by (unfold outside; lra); cbv zeta.
  all: assert (Hd : vy s <> vy e -> vy (normalize g (vsub e s)) <> 0)
         by apply normalize_vy_nonzero.
  all: repeat (split_Rlt; try rewrite !vy_hit by (apply Hd; lra); try lra).
  all: cbn [fst snd].
  all: try rewrite !hit_start by lra; try rewrite !hit_along by lra.
  all: plane_params s e.
  all: do 2 eexists;
    (split; [first [reflexivity | symmetry; apply along_0
                    | symmetry; apply along_1] |]);
    (split; [first [reflexivity | symmetry; apply along_0
                    | symmetry; apply along_1] |]);
    lra.
Qed.
End ClipperSegment.

(** ** Integrator: how the loop ends *)

Section LoopEnds.
Variable g : Glsl.
Variable u : Uniforms.
Variable r : Ray.

Lemma iteration_Capped (st : MarchState) :
  iteration g u r st = Capped ->
  totalDistance st < rayLength r /\
  (totalIters st > maxRaymarchStepCount u)%Z.
Proof.
  unfold iteration.
  destruct (Rlt_dec (totalDistance st) (rayLength r)); [| discriminate].
  destruct (Z.gtb_spec (totalIters st) (maxRaymarchStepCount u)).
  - intros _. split; [assumption | lia].
  - cbv zeta. destruct (Rge_dec _ _); discriminate.
Qed.

Lemma iteration_Exit (st : MarchState) :
  iteration g u r st = Exit -> ~ totalDistance st < rayLength r.
Proof.
  unfold iteration.
  destruct (Rlt_dec (totalDistance st) (rayLength r)); [| auto].
  destruct (Z.gtb_spec (totalIters st) (maxRaymarchStepCount u));
    [discriminate|].
  cbv zeta. destruct (Rge_dec _ _); discriminate.
Qed.

(** Fuel beyond what a run uses changes nothing. *)
Lemma march_run_more_fuel (fuel : nat) :
  forall (st : MarchState) (e : LoopEnd),
    snd (march_run g u fuel r st) = Some e ->
    forall k, march_run g u (fuel + k) r st = march_run g u fuel r st.
Proof.
  induction fuel as [| fuel IH]; intros st e H k.
  - discriminate.
  - cbn [march_run Nat.add] in *.
    destruct (iteration g u r st) as [st' | st' | |]; try reflexivity.
    destruct (march_run g u fuel r st') as [tr e'] eqn:R.
    cbn [snd] in H.
    rewrite (IH st' e); [now rewrite R | now rewrite R].
Qed.

(** What holds when the loop is left by its condition or by [break]. *)
Lemma march_run_Done (fuel : nat) :
  forall (st0 st : MarchState) (tr : list MarchState),
    march_run g u fuel r st0 = (tr, Some (Done st)) ->
    st = bodies g u r (length tr) st0 /\
    (~ totalDistance st < rayLength r \/
     density st >= maxDensity u - 0.01) /\
    (tr <> [] -> totalDistance st - stepLength u r < rayLength r).
Proof.
  induction fuel as [| fuel IH]; intros st0 st tr H.
  - discriminate.
  - cbn [march_run] in H.
    destruct (iteration g u r st0) as [st' | st' | |] eqn:E.
    + apply iteration_Continue in E. destruct E as (-> & Hd & _ & _).
      destruct (march_run g u fuel r (body g u r st0)) as [tr' e'] eqn:R.
      injection H as <- ->.
      destruct (IH _ _ _ R) as (Hst & Hend & Hover).
      cbn [length bodies]. rewrite <- bodies_shift.
      split; [exact Hst|]. split; [exact Hend|].
      intros _. destruct tr' as [| x tr'].
      * cbn in Hst. subst st. rewrite totalDistance_body. lra.
      * apply Hover. discriminate.
    + apply iteration_Break in E. destruct E as (-> & Hd & _ & Hs).
      injection H as <- <-. cbn [length bodies].
      split; [reflexivity|]. split; [right; exact Hs|].
      intros _. rewrite totalDistance_body. lra.
    + apply iteration_Exit in E. injection H as <- <-. cbn [length bodies].
      split; [reflexivity|]. split; [left; exact E|].
      intros N. contradiction.
    + discriminate.
Qed.

(** The state the loop is left with is the last state of the run. *)
Lemma march_loop_Done_last (fuel : nat) (st : MarchState) :
  march_loop g u fuel r = Some (Done st) ->
  nth_error (march_states g u fuel r) (length (march_trace g u fuel r))
  = Some st.
Proof.
  unfold march_loop. intros H.
  destruct (nth_error (march_states g u fuel r)
              (length (march_trace g u fuel r))) as [x |] eqn:E.
  - f_equal. rewrite (march_states_nth g u r fuel _ _ E).
    unfold march_trace.
    destruct (march_run g u fuel r initState) as [tr e] eqn:R.
    cbn [fst snd] in *. subst e.
    destruct (march_run_Done fuel _ _ _ R) as (Hst & _ & _).
    now rewrite Hst.
  - apply nth_error_None in E. unfold march_states in E. cbn in E. lia.
Qed.

(** With a non-negative step density and a threshold of at most 1, the
    opacity the loop is left with is not negative, and not below the
    opacity after the first body. *)
Lemma final_density_nonneg (fuel : nat) (st : MarchState) :
  0 <= stepLength u r * fogDensityMultiplier u ->
  maxDensity u <= 1.01 ->
  march_loop g u fuel r = Some (Done st) ->
  0 <= density st.
Proof.
  intros Hsm Hmax H.
  pose proof (march_loop_Done_last fuel st H) as L.
  pose proof (march_states_density_le g u r fuel
                (length (march_trace g u fuel r)) 0 initState st
                Hsm Hmax eq_refl L) as [_ Hle].
  cbn in Hle. exact Hle.
Qed.

Lemma final_density_above_first (fuel : nat) (st : MarchState) :
  0 <= stepLength u r * fogDensityMultiplier u ->
  maxDensity u <= 1.01 ->
  0 < rayLength r -> (0 <= maxRaymarchStepCount u)%Z ->
  march_loop g u (S fuel) r = Some (Done st) ->
  density (body g u r initState) <= density st.
Proof.
  intros Hsm Hmax Hl Hc H.
  pose proof (march_loop_Done_last (S fuel) st H) as L.
  pose proof (march_states_first g u r fuel Hl Hc) as F.
  assert (Hn : (1 <= length (march_trace g u (S fuel) r))%nat).
  { assert (1 < length (march_states g u (S fuel) r))%nat
      by (apply nth_error_Some; congruence).
    unfold march_states in *. cbn [length] in *. lia. }
  replace (length (march_trace g u (S fuel) r))
    with (1 + (length (march_trace g u (S fuel) r) - 1))%nat in L by lia.
  exact (proj2 (march_states_density_le g u r (S fuel) _ 1 _ st
                  Hsm Hmax F L)).
Qed.

(** In exact real arithmetic: when the loop ends without the sentinel,
    after n bodies, the distance travelled is n * stepLength; the loop
    condition is false or the density has reached maxDensity - 0.01; and
    the last step started before rayLength, so the ray is overshot by less
    than one step. *)
Theorem march_loop_Done_postcondition (fuel : nat) (st : MarchState) :
  march_loop g u fuel r = Some (Done st) ->
  totalDistance st
  = INR (length (march_trace g u fuel r)) * stepLength u r /\
  (totalDistance st >= rayLength r \/ density st >= maxDensity u - 0.01) /\
  ((0 < length (march_trace g u fuel r))%nat ->
   totalDistance st < rayLength r + stepLength u r).
Proof.
  unfold march_loop, march_trace. intros H.
  destruct (march_run g u fuel r initState) as [tr e] eqn:R.
  cbn [fst snd] in *. subst e.
  destruct (march_run_Done fuel _ _ _ R) as (Hst & Hend & Hover).
  split.
  - rewrite Hst, totalDistance_bodies. cbn [totalDistance initState]. lra.
  - split.
    + destruct Hend as [Hx | Hs]; [left; lra | right; exact Hs].
    + intros Hn. assert (tr <> []) by (destruct tr; [cbn in Hn; lia | discriminate]).
      specialize (Hover H). lra.
Qed.

(** Every body is entered below the ray length. *)
Lemma trace_entered_before_end (fuel : nat) :
  forall (st0 s' : MarchState) (n : nat),
    nth_error (fst (march_run g u fuel r st0)) n = Some s' ->
    totalDistance (bodies g u r n st0) < rayLength r.
Proof.
  induction fuel as [| fuel IH]; intros st0 s' n H.
  - destruct n; discriminate.
  - cbn [march_run] in H.
    destruct (iteration g u r st0) as [st' | st' | |] eqn:E.
    + apply iteration_Continue in E. destruct E as (-> & Hd & _ & _).
      destruct (march_run g u fuel r (body g u r st0)) as [tr e] eqn:R.
      cbn [fst] in H. destruct n as [| n]; [exact Hd|].
      cbn [nth_error] in H.
      replace tr with (fst (march_run g u fuel r (body g u r st0))) in H
        by now rewrite R.
      apply IH in H. cbn [bodies]. now rewrite <- bodies_shift.
    + apply iteration_Break in E. destruct E as (-> & Hd & _ & _).
      cbn [fst] in H. destruct n as [| [| n]]; try discriminate. exact Hd.
    + destruct n; discriminate.
    + destruct n; discriminate.
Qed.

(** In exact real arithmetic, the body of iteration i+1 is entered at
    distance i * stepLength < rayLength and leaves totalDistance at
    (i+1) * stepLength.  Distances are counted from the jittered start: the
    fog is sampled at the clipped start moved by jitter + i * stepLength
    along the ray, so the sampled points are those of the marched stretch
    shifted by the jitter, and can lie before the clipped start or past
    the point at rayLength by up to the size of the jitter. *)
Theorem march_samples_before_ray_end
    (s e : vec3) (sc : ivec2) (fuel i : nat) (st : MarchState) :
  march_init g u s e sc = Some r ->
  nth_error (march_trace g u fuel r) i = Some st ->
  totalDistance st = INR (S i) * stepLength u r /\
  INR i * stepLength u r < rayLength r /\
  samplePos r (INR i * stepLength u r)
  = vadd (fst (clipped g u s e))
         (vscale (rayDir r) (jitter r + INR i * stepLength u r)).
Proof.
  unfold march_trace. intros Hinit H. split; [| split].
  - apply trace_nth in H. subst st.
    rewrite totalDistance_bodies. cbn [totalDistance initState]. lra.
  - apply trace_entered_before_end in H.
    rewrite totalDistance_bodies in H. cbn [totalDistance initState] in H. lra.
  - apply march_init_Some in Hinit. cbv zeta in Hinit.
    destruct Hinit as (_ & _ & _ & _ & _ & _ & Hs).
    unfold samplePos. rewrite Hs.
    unfold vadd, vscale. cbn [vx vy vz]. f_equal; ring.
Qed.

Lemma march_run_Capped (fuel : nat) :
  forall (st0 : MarchState) (tr : list MarchState),
    march_run g u fuel r st0 = (tr, Some IterationCapped) ->
    (0 <= totalIters st0)%Z ->
    (maxRaymarchStepCount u < INT_MAX)%Z ->
    length tr = Z.to_nat (maxRaymarchStepCount u + 1 - totalIters st0) /\
    totalDistance (bodies g u r (length tr) st0) < rayLength r.
Proof.
  unfold INT_MAX.
  induction fuel as [| fuel IH]; intros st0 tr H H0 Hmax.
  - discriminate.
  - cbn [march_run] in H.
    destruct (iteration g u r st0) as [st' | st' | |] eqn:E.
    + apply iteration_Continue in E. destruct E as (-> & _ & Hi & _).
      assert (Ht : totalIters (body g u r st0) = (totalIters st0 + 1)%Z).
      { rewrite totalIters_body. unfold int_add. apply wrap32_small. lia. }
      destruct (march_run g u fuel r (body g u r st0)) as [tr' e'] eqn:R.
      injection H as <- ->.
      destruct (IH _ _ R) as [Hl Hd]; [lia | lia |].
      rewrite Ht in Hl. cbn [length bodies]. rewrite <- bodies_shift.
      split; [lia | exact Hd].
    + discriminate.
    + discriminate.
    + apply iteration_Capped in E. destruct E as [Hd Hi].
      injection H as <-. cbn [length bodies]. split; [lia | exact Hd].
Qed.

(** In exact real arithmetic the sentinel is returned only after
    maxRaymarchStepCount + 1 full iterations that did not reach the end of
    the ray. *)
Theorem march_loop_capped_after_cap_plus_one (fuel : nat) :
  (maxRaymarchStepCount u < INT_MAX)%Z ->
  march_loop g u fuel r = Some IterationCapped ->
  length (march_trace g u fuel r) = Z.to_nat (maxRaymarchStepCount u + 1) /\
  INR (Z.to_nat (maxRaymarchStepCount u + 1)) * stepLength u r < rayLength r.
Proof.
  unfold march_loop, march_trace. intros Hmax H.
  destruct (march_run g u fuel r initState) as [tr e] eqn:R.
  cbn [fst snd] in *. subst e.
  destruct (march_run_Capped fuel _ _ R) as [Hl Hd];
    [cbn; lia | exact Hmax |].
  cbn [totalIters initState] in Hl. rewrite Z.sub_0_r in Hl.
  split; [exact Hl|].
  rewrite totalDistance_bodies in Hd. cbn [totalDistance initState] in Hd.
  rewrite <- Hl. lra.
Qed.
End LoopEnds.

Section MarchResult.
Variable g : Glsl.
Variable u : Uniforms.

(** [march] terminates with a result that does not depend on the fuel of
    the model: for a cap below INT_MAX, every fuel from [march_fuel] on
    gives the same colour. *)
Theorem march_result_independent_of_fuel (s e : vec3) (sc : ivec2) :
  (maxRaymarchStepCount u < INT_MAX)%Z ->
  exists c : vec4,
    forall k : nat, march g u (march_fuel u + k) s e sc = Some c.
Proof.
  intros Hmax.
  destruct (march g u (march_fuel u) s e sc) as [c |] eqn:M;
    [| exfalso; exact (march_total g u s e sc Hmax M)].
  exists c. intros k. rewrite <- M. unfold march.
  destruct (march_init g u s e sc) as [r |]; [| reflexivity].
  pose proof (march_loop_terminates g u r Hmax) as T.
  unfold march_loop in *.
  destruct (snd (march_run g u (march_fuel u) r initState)) as [en |] eqn:R;
    [| contradiction].
  rewrite (march_run_more_fuel g u r _ _ _ R k). now rewrite R.
Qed.

(** With a non-negative step density, a threshold of at most 1, a
    non-negative post-multiplier and a positive post-exponent, the final
    [pow] of [march] is applied where GLSL defines it, and [march] returns
    a colour with all four components in [0,1]. *)
Lemma march_output_defined (s e : vec3) (sc : ivec2) :
  (maxRaymarchStepCount u < INT_MAX)%Z ->
  (forall r, march_init g u s e sc = Some r ->
     0 <= stepLength u r * fogDensityMultiplier u) ->
  maxDensity u <= 1.01 ->
  0 <= postDensityMultiplier u ->
  0 < postDensityPow u ->
  exists c : vec4,
    march g u (march_fuel u) s e sc = Some c /\
    (forall r st,
       march_init g u s e sc = Some r ->
       march_loop g u (march_fuel u) r = Some (Done st) ->
       exists a,
         Partial.pow (density st * postDensityMultiplier u)
                     (postDensityPow u) = Some a /\
         ca c = clamp a 0 1) /\
    0 <= cr c <= 1 /\ 0 <= cg c <= 1 /\ 0 <= cb c <= 1 /\ 0 <= ca c <= 1.
Proof.
  intros Hmax Hsm Hmd Hpm Hpp. unfold march.
  destruct (march_init g u s e sc) as [r |] eqn:I.
  - pose proof (march_loop_terminates g u r Hmax) as T.
    destruct (march_loop g u (march_fuel u) r) as [[st |] |] eqn:L;
      [| | contradiction].
    + eexists. split; [reflexivity|]. split.
      * intros r' st' Hr' Hl'. injection Hr' as <-.
        rewrite L in Hl'. injection Hl' as <-.
        pose proof (final_density_nonneg g u r _ st (Hsm r eq_refl) Hmd L)
          as Hd.
        assert (Hx : 0 <= density st * postDensityMultiplier u)
          by (apply Rmult_le_pos; assumption).
        exists (pow g (density st * postDensityMultiplier u)
                      (postDensityPow u)).
        split; [| reflexivity].
        apply partial_pow_defined.
        destruct Hx as [Hx | Hx];
          [left; exact Hx | right; split; [lra | exact Hpp]].
      * unfold clamp4. cbn [cr cg cb ca].
        repeat split; apply clamp_unit_range.
    + eexists. split; [reflexivity|]. split.
      * intros r' st' Hr' Hl'. injection Hr' as <-.
        rewrite L in Hl'. discriminate.
      * cbn. lra.
  - eexists. split; [reflexivity|]. split.
    + intros r' st' Hr'. discriminate.
    + cbn. lra.
Qed.

(** In exact real arithmetic, when stepLength * fogDensityMultiplier >= 0,
    maxDensity <= 1.01, postDensityMultiplier >= 0 and postDensityPow > 0,
    [march] returns a colour with all four components in [0,1], and the
    alpha of a ray that is marched to its end is the clamp of a [pow] that
    GLSL defines (non-negative base, positive exponent). *)
Theorem march_output_in_unit_range (s e : vec3) (sc : ivec2) :
  (maxRaymarchStepCount u < INT_MAX)%Z ->
  (forall r, march_init g u s e sc = Some r ->
     0 <= stepLength u r * fogDensityMultiplier u) ->
  maxDensity u <= 1.01 ->
  0 <= postDensityMultiplier u ->
  0 < postDensityPow u ->
  exists c : vec4,
    march g u (march_fuel u) s e sc = Some c /\
    (forall r st,
       march_init g u s e sc = Some r ->
       march_loop g u (march_fuel u) r = Some (Done st) ->
       exists a,
         Partial.pow (density st * postDensityMultiplier u)
                     (postDensityPow u) = Some a /\
         ca c = clamp a 0 1) /\
    0 <= cr c <= 1 /\ 0 <= cg c <= 1 /\ 0 <= cb c <= 1 /\ 0 <= ca c <= 1.
Proof. apply march_output_defined. Qed.
End MarchResult.

(** ** ColorModel and the accumulated colour *)

Section Colour.
Variable g : Glsl.
Variable u : Uniforms.

Lemma mix_between (x y a : R) :
  0 <= a <= 1 -> Rmin x y <= mix x y a <= Rmax x y.
Proof.
  intros Ha. unfold mix.
  destruct (Rle_dec x y) as [L | N].
  - rewrite Rmin_left, Rmax_right by lra. split; nra.
  - rewrite Rmin_right, Rmax_left by lra. split; nra.
Qed.

(** The fog colour is a blend of the two configured colours: each channel
    lies between theirs; it is the high-density colour from a raw density
    of 1/12 on and the low-density colour for a raw density of 0 or less. *)
Theorem computeColor_blend (curPos : vec3) (rawDensity : R) :
  (Rmin (vx (fogColorLowDensity u)) (vx (fogColorHighDensity u))
   <= vx (computeColor u curPos rawDensity)
   <= Rmax (vx (fogColorLowDensity u)) (vx (fogColorHighDensity u)) /\
   Rmin (vy (fogColorLowDensity u)) (vy (fogColorHighDensity u))
   <= vy (computeColor u curPos rawDensity)
   <= Rmax (vy (fogColorLowDensity u)) (vy (fogColorHighDensity u)) /\
   Rmin (vz (fogColorLowDensity u)) (vz (fogColorHighDensity u))
   <= vz (computeColor u curPos rawDensity)
   <= Rmax (vz (fogColorLowDensity u)) (vz (fogColorHighDensity u))) /\
  (rawDensity >= 1 / 12 ->
   computeColor u curPos rawDensity = fogColorHighDensity u) /\
  (rawDensity <= 0 ->
   computeColor u curPos rawDensity = fogColorLowDensity u).
Proof.
  unfold computeColor, vmix. cbn [vx vy vz].
  pose proof (clamp_unit_range (rawDensity * 12)) as Hc.
  split; [repeat split; apply mix_between; exact Hc |].
  split; intros H.
  - rewrite clamp_unit_above by lra. unfold mix.
    destruct (fogColorHighDensity u). cbn. f_equal; ring.
  - rewrite clamp_unit_below by lra. unfold mix.
    destruct (fogColorLowDensity u). cbn. f_equal; ring.
Qed.

Lemma computeColor_unit (curPos : vec3) (rawDensity : R) :
  channelsIn (fogColorLowDensity u) 0 1 ->
  channelsIn (fogColorHighDensity u) 0 1 ->
  channelsIn (computeColor u curPos rawDensity) 0 1.
Proof.
  unfold channelsIn. intros (Lx & Ly & Lz) (Hx & Hy & Hz).
  unfold computeColor, vmix. cbn [vx vy vz].
  pose proof (clamp_unit_range (rawDensity * 12)) as Hc.
  set (t := clamp (rawDensity * 12) 0 1) in *.
  unfold mix. repeat split; nra.
Qed.

Variable r : Ray.

Lemma accumulatedColor_bodies_S (n : nat) :
  accumulatedColor (bodies g u r (S n) initState) =
    if Rgt_dec (rawDensityAt g u r n) 0.01
    then vadd (accumulatedColor (bodies g u r n initState))
              (vscale
                 (vscale (computeColor u
                            (samplePos r (INR n * stepLength u r))
                            (rawDensityAt g u r n))
                         (rawDensityAt g u r n * stepLength u r
                          * fogDensityMultiplier u))
                 (1 - density (bodies g u r n initState)))
    else accumulatedColor (bodies g u r n initState).
Proof.
  cbn [bodies]. unfold body, sampleOneStep. cbv zeta.
  rewrite totalDistance_bodies. cbn [totalDistance initState].
  rewrite Rplus_0_l. unfold rawDensityAt, samplePos.
  destruct (Rgt_dec _ 0.01); reflexivity.
Qed.

Lemma accumulatedColor_bodies_below (m : nat) :
  channelsIn (fogColorLowDensity u) 0 1 ->
  channelsIn (fogColorHighDensity u) 0 1 ->
  (forall i, (i < m)%nat -> rawDensityAt g u r i > 0.01 ->
     0 <= rawDensityAt g u r i * stepLength u r * fogDensityMultiplier u
       <= 1) ->
  forall n, (n <= m)%nat ->
    channelsIn (accumulatedColor (bodies g u r n initState))
               0 (density (bodies g u r n initState)).
Proof.
  intros Hlo Hhi Hd. induction n as [| n IH]; intros Hn.
  - unfold channelsIn. cbn. lra.
  - specialize (IH ltac:(lia)).
    pose proof (density_bodies_unit g u r m Hd n ltac:(lia)) as Ha.
    rewrite accumulatedColor_bodies_S, density_bodies_S.
    destruct (Rgt_dec (rawDensityAt g u r n) 0.01) as [G | _]; [| exact IH].
    specialize (Hd n ltac:(lia) G).
    pose proof (computeColor_unit (samplePos r (INR n * stepLength u r))
                  (rawDensityAt g u r n) Hlo Hhi) as Hc.
    set (d := rawDensityAt g u r n * stepLength u r * fogDensityMultiplier u)
      in *.
    set (a := density (bodies g u r n initState)) in *.
    set (c := computeColor u _ _) in *.
    set (col := accumulatedColor (bodies g u r n initState)) in *.
    unfold channelsIn in *. cbn [vadd vscale vx vy vz].
    destruct IH as (Ix & Iy & Iz), Hc as (Cx & Cy & Cz).
    assert (0 <= d * (1 - a)) by nra.
    repeat split; nra.
Qed.

(** The accumulated colour is premultiplied by opacity: with both fog
    colours in [0,1] and every executed step's density in [0,1], each
    channel of the accumulated colour stays between 0 and the accumulated
    density. *)
Theorem accumulated_color_below_density (fuel : nat) :
  channelsIn (fogColorLowDensity u) 0 1 ->
  channelsIn (fogColorHighDensity u) 0 1 ->
  (forall i, (S i < length (march_states g u fuel r))%nat ->
     rawDensityAt g u r i > 0.01 ->
     0 <= rawDensityAt g u r i * stepLength u r * fogDensityMultiplier u
       <= 1) ->
  forall (i : nat) (st : MarchState),
    nth_error (march_states g u fuel r) i = Some st ->
    channelsIn (accumulatedColor st) 0 (density st).
Proof.
  intros Hlo Hhi Hd i st Hi.
  assert (Hlen : (i < length (march_states g u fuel r))%nat)
    by (apply nth_error_Some; congruence).
  pose proof (march_states_nth g u r fuel i st Hi) as ->.
  apply (accumulatedColor_bodies_below i); try assumption; [| lia].
  intros j Hj. apply Hd. lia.
Qed.

(** Below the gate nothing accumulates. *)
Lemma bodies_in_empty_fog (m : nat) :
  (forall i, (i < m)%nat -> rawDensityAt g u r i <= 0.01) ->
  forall n, (n <= m)%nat ->
    density (bodies g u r n initState) = 0 /\
    accumulatedColor (bodies g u r n initState) = vzero.
Proof.
  intros Hraw. induction n as [| n IH]; intros Hn.
  - split; reflexivity.
  - rewrite accumulatedColor_bodies_S, density_bodies_S.
    specialize (Hraw n ltac:(lia)).
    destruct (Rgt_dec (rawDensityAt g u r n) 0.01) as [G | _]; [lra|].
    apply IH. lia.
Qed.
End Colour.

(** A ray all of whose samples stay at or below the 0.01 gate comes out
    fully transparent black when the loop ends by itself, and as the
    sentinel when the iteration cap ends it. *)
Theorem march_through_empty_fog
    (g : Glsl) (u : Uniforms) (s e : vec3) (sc : ivec2) (r : Ray) :
  march_init g u s e sc = Some r ->
  (maxRaymarchStepCount u < INT_MAX)%Z ->
  (forall i, (i < length (march_trace g u (march_fuel u) r))%nat ->
     rawDensityAt g u r i <= 0.01) ->
  postDensityPow u > 0 ->
  (march_loop g u (march_fuel u) r = Some IterationCapped /\
   march g u (march_fuel u) s e sc = Some (Vec4 1 1 0 1)) \/
  ((exists st, march_loop g u (march_fuel u) r = Some (Done st)) /\
   march g u (march_fuel u) s e sc = Some (Vec4 0 0 0 0)).
Proof.
  intros Hinit Hmax Hraw Hp.
  pose proof (march_loop_terminates g u r Hmax) as T.
  unfold march. rewrite Hinit.
  unfold march_loop, march_trace in *.
  destruct (march_run g u (march_fuel u) r initState) as [tr en] eqn:R.
  cbn [fst snd] in *.
  destruct en as [[st |] |]; [| left; split; reflexivity | contradiction].
  right. split; [exists st; reflexivity|].
  destruct (march_run_Done g u r _ _ _ _ R) as (Hst & _ & _).
  destruct (bodies_in_empty_fog g u r (length tr) Hraw (length tr)
              (Nat.le_refl _)) as [Hd Hc].
  rewrite <- Hst in Hd, Hc. rewrite Hd, Hc, Rmult_0_l.
  rewrite pow_zero_pos by lra.
  unfold clamp4, vzero. cbn [cr cg cb ca vx vy vz].
  rewrite clamp_unit_below by lra. reflexivity.
Qed.

(** ** DensityField: ranges and drift *)

Section DensityRange.
Variable g : Glsl.
Variable u : Uniforms.


(** The six octaves add at most their total weight 1.695 to the bias, in
    either direction, when the noise texture returns values in [0,1]; the
    running total of the weights, which nothing reads, ends at 1.695. *)
Theorem octaves_within_total_weight (worldPos : vec3) (noise : R) :
  (forall q, 0 <= noiseTexture u q <= 1) ->
  noise - 1.695 <= fst (octaves u worldPos noise) <= noise + 1.695 /\
  snd (octaves u worldPos noise) = 1.695.
Proof.
  intros H.
  unfold octaves, sampleFogDensityLOD, sampleFogFromNoise. cbn.
  repeat match goal with
         | |- context [noiseTexture u ?x] =>
             let t := fresh "t" in
             pose proof (H x);
             set (t := noiseTexture u x) in *; clearbody t
         end.
  repeat split; lra.
Qed.


(** Time only carries the noise along the wind: the density at a position
    at time t is the density of the same field at time 0 at the position
    moved by the drift of t seconds. *)
Theorem sampleFogDensity_drifts_with_time (p : vec3) (t : R) :
  sampleFogDensity g (set_curTimeSeconds u t) p
  = sampleFogDensity g (set_curTimeSeconds u 0) (vadd p (drift u t)).
Proof.
  assert (E : vadd (vadd p (drift u t)) (drift u 0) = vadd p (drift u t)).
  { destruct p. unfold drift, vadd, vscale. cbn. f_equal; ring. }
  unfold sampleFogDensity. cbv zeta.
  change (vscale (Vec3 (fst (noiseMovementPerSecond (set_curTimeSeconds u t)))
                       0
                       (snd (noiseMovementPerSecond (set_curTimeSeconds u t))))
                 (curTimeSeconds (set_curTimeSeconds u t)))
    with (drift u t).
  change (vscale (Vec3 (fst (noiseMovementPerSecond (set_curTimeSeconds u 0)))
                       0
                       (snd (noiseMovementPerSecond (set_curTimeSeconds u 0))))
                 (curTimeSeconds (set_curTimeSeconds u 0)))
    with (drift u 0).
  rewrite E. reflexivity.
Qed.
End DensityRange.

(** ** RayReconstructor and [main] *)

Section Reconstruct.
Variable g : Glsl.
Variable f : Frame.

Lemma mulMV_vscale4 (m : mat4) (v : vec4) (k : R) :
  mulMV m (vscale4 v k) = vscale4 (mulMV m v) k.
Proof.
  unfold mulMV, vscale4, dot4. cbn [cr cg cb ca]. f_equal; ring.
Qed.

(** In exact real arithmetic reconstruction undoes projection: for a view
    matrix [V] with last row (0,0,0,1) and a projection [P] that the two
    camera uniforms invert, a world position whose clip-space w is not 0
    is recovered from its depth and screen coordinate. *)
Theorem computeWorldPosFromDepth_inverts_projection
    (P V : mat4) (p : vec3) :
  (forall v, mulMV (cameraProjectionMatrixInv f) (mulMV P v) = v) ->
  (forall v, mulMV (cameraMatrixWorld f) (mulMV V v) = v) ->
  row3 V = Vec4 0 0 0 1 ->
  ca (mulMV P (mulMV V (point4 p))) <> 0 ->
  computeWorldPosFromDepth g f (fst (projectToScreen P V p))
                           (snd (projectToScreen P V p))
  = p.
Proof.
  intros HP HV Hrow Hw.
  unfold computeWorldPosFromDepth, projectToScreen. cbv zeta.
  fold (point4 p). cbn [fst snd].
  set (h := mulMV V (point4 p)) in *.
  set (c := mulMV P h) in *.
  assert (Hh : ca h = 1).
  { unfold h, mulMV, point4, dot4. cbn [ca]. rewrite Hrow. cbn. ring. }
  assert (Hclip : Vec4 ((cr c / ca c + 1) / 2 * 2 - 1)
                       ((cg c / ca c + 1) / 2 * 2 - 1)
                       ((cb c / ca c + 1) / 2 * 2 - 1) 1
                  = vscale4 c (/ ca c)).
  { unfold vscale4. f_equal; field; exact Hw. }
  assert (Hinv : mulMV (cameraProjectionMatrixInv f) c = h)
    by (unfold c; apply HP).
  rewrite Hclip, mulMV_vscale4, Hinv.
  unfold vscale4. cbn [cr cg cb ca]. rewrite Hh.
  assert (Hi : 1 * / ca c <> 0)
    by (rewrite Rmult_1_l; apply Rinv_neq_0_compat; exact Hw).
  rewrite !fdiv_nonzero by exact Hi.
  replace (cr h * / ca c / (1 * / ca c)) with (cr h) by (field; exact Hw).
  replace (cg h * / ca c / (1 * / ca c)) with (cg h) by (field; exact Hw).
  replace (cb h * / ca c / (1 * / ca c)) with (cb h) by (field; exact Hw).
  replace (1 * / ca c / (1 * / ca c)) with (ca h) by (rewrite Hh; field; exact Hw).
  replace (Vec4 (cr h) (cg h) (cb h) (ca h)) with h by (destruct h; reflexivity).
  unfold h. rewrite HV. destruct p. reflexivity.
Qed.
End Reconstruct.

Section Main.
Variable g : Glsl.
Variable u : Uniforms.
Variable f : Frame.

(** A pixel whose camera position and reconstructed world position are
    both strictly below fogMinY, or both strictly above fogMaxY, shows the
    scene unchanged under direct compositing (the diffuse colour, alpha 1)
    and is fully transparent black otherwise. *)
Theorem main_outside_slab (fuel : nat) (vUv : R * R) :
  (vy (cameraPos f) < fogMinY u /\
   vy (computeWorldPosFromDepth g f (sceneDepth f vUv) vUv) < fogMinY u) \/
  (vy (cameraPos f) > fogMaxY u /\
   vy (computeWorldPosFromDepth g f (sceneDepth f vUv) vUv) > fogMaxY u) ->
  main g u f true fuel vUv
  = Some (Vec4 (vx (sceneDiffuse f vUv)) (vy (sceneDiffuse f vUv))
               (vz (sceneDiffuse f vUv)) 1) /\
  main g u f false fuel vUv = Some (Vec4 0 0 0 0).
Proof.
  intros H.
  assert (O : outside u (cameraPos f)
                (computeWorldPosFromDepth g f (sceneDepth f vUv) vUv))
    by (unfold outside; lra).
  assert (M : forall sc,
             march g u fuel (cameraPos f)
               (computeWorldPosFromDepth g f (sceneDepth f vUv) vUv) sc
             = Some (Vec4 0 0 0 0)).
  { intros sc. unfold march. rewrite march_init_collapsed; [reflexivity|].
    unfold clipped. rewrite (clipRayEndpoints_outside g u _ _ O). reflexivity. }
  unfold main. cbv zeta. rewrite M. split; [| reflexivity].
  unfold mix. cbn [cr cg cb ca]. f_equal. f_equal; ring.
Qed.

(** In exact real arithmetic, under the conditions that make the final
    [pow] of [march] defined, direct compositing keeps colours valid: with
    the scene's diffuse colour in [0,1] the output is the diffuse colour
    blended with the fog colour by the fog's alpha, all in [0,1], with
    alpha 1. *)
Theorem main_direct_compositing_in_unit_range (vUv : R * R) :
  channelsIn (sceneDiffuse f vUv) 0 1 ->
  (maxRaymarchStepCount u < INT_MAX)%Z ->
  (forall r,
     march_init g u (cameraPos f)
       (computeWorldPosFromDepth g f (sceneDepth f vUv) vUv)
       (IVec2 (ftoi (fst vUv * IZR (ix (resolution f))))
              (ftoi (snd vUv * IZR (iy (resolution f))))) = Some r ->
     0 <= stepLength u r * fogDensityMultiplier u) ->
  maxDensity u <= 1.01 ->
  0 <= postDensityMultiplier u ->
  0 < postDensityPow u ->
  exists fog c : vec4,
    march g u (march_fuel u) (cameraPos f)
      (computeWorldPosFromDepth g f (sceneDepth f vUv) vUv)
      (IVec2 (ftoi (fst vUv * IZR (ix (resolution f))))
             (ftoi (snd vUv * IZR (iy (resolution f))))) = Some fog /\
    (forall r st,
       march_init g u (cameraPos f)
         (computeWorldPosFromDepth g f (sceneDepth f vUv) vUv)
         (IVec2 (ftoi (fst vUv * IZR (ix (resolution f))))
                (ftoi (snd vUv * IZR (iy (resolution f))))) = Some r ->
       march_loop g u (march_fuel u) r = Some (Done st) ->
       exists a,
         Partial.pow (density st * postDensityMultiplier u)
                     (postDensityPow u) = Some a /\
         ca fog = clamp a 0 1) /\
    main g u f true (march_fuel u) vUv = Some c /\
    c = Vec4 (mix (vx (sceneDiffuse f vUv)) (cr fog) (ca fog))
             (mix (vy (sceneDiffuse f vUv)) (cg fog) (ca fog))
             (mix (vz (sceneDiffuse f vUv)) (cb fog) (ca fog))
             1 /\
    0 <= cr c <= 1 /\ 0 <= cg c <= 1 /\ 0 <= cb c <= 1.
Proof.
  intros (Dx & Dy & Dz) Hmax Hsm Hmd Hpm Hpp.
  destruct (march_output_defined g u _ _ _ Hmax Hsm Hmd Hpm Hpp)
    as (fog & M & Hpow & Fr & Fg & Fb & Fa).
  exists fog. eexists. split; [exact M|]. split; [exact Hpow|].
  unfold main. cbv zeta. rewrite M.
  split; [reflexivity|]. split; [reflexivity|].
  cbn [cr cg cb]. unfold mix. repeat split; nra.
Qed.
End Main.

(** ** The noise volume *)

Lemma ftoi_nonneg (x : R) : 0 <= x -> ftoi x = Int_part x.
Proof.
  intros H. unfold ftoi. destruct (Rle_dec 0 x); [reflexivity | contradiction].
Qed.

(** No texel of the generated noise volume is 255: a [Math.random()] value
    in [0,1) is stored as a byte between 0 and 254. *)
Theorem noiseTexel_at_most_254 (rnd : R) :
  0 <= rnd < 1 -> (0 <= noiseTexel rnd <= 254)%Z.
Proof.
  intros [H0 H1]. unfold noiseTexel, toUint8.
  rewrite ftoi_nonneg by lra.
  destruct (base_Int_part (rnd * 255)) as [Hl Hu].
  assert (Hlo : (-1 < Int_part (rnd * 255))%Z) by (apply lt_IZR; lra).
  assert (Hhi : (Int_part (rnd * 255) < 255)%Z) by (apply lt_IZR; lra).
  rewrite Z.mod_small; lia.
Qed.

(** ** The pass: [updateUniforms] *)

Module PassFacts.
Import Stdlib.Strings.String.
Import Pass.
Local Open Scope string_scope.

Section Facts.
Variable V : Type.
Variable white zero : V.

Implicit Types (t o : Obj V) (p : VolumetricPass V) (k key : string).

Lemma has_In k t : has k t = true <-> In k (keys t).
Proof.
  unfold has, keys. rewrite existsb_exists, in_map_iff. split.
  - intros (e & He & Hk). apply String.eqb_eq in Hk. exists e. auto.
  - intros (e & Hk & He). exists e. split; [exact He|]. now apply String.eqb_eq.
Qed.

Lemma assign_keys k v t t' : assign k v t = Some t' -> keys t' = keys t.
Proof.
  unfold assign. destruct (has k t); [| discriminate].
  intros H. injection H as <-. unfold keys. rewrite map_map.
  apply map_ext. intros e. destruct (fst e =? k); reflexivity.
Qed.

Lemma assign_Some k v t : In k (keys t) -> exists t', assign k v t = Some t'.
Proof.
  intros H. apply has_In in H. unfold assign. rewrite H. eauto.
Qed.

Lemma get_assign k v t t' k' :
  assign k v t = Some t' ->
  get k' t' = if k' =? k then v else get k' t.
Proof.
  unfold assign. destruct (has k t) eqn:Hh; [| discriminate].
  intros H. injection H as <-.
  induction t as [| [k0 x] t IH].
  - discriminate.
  - cbn [map fst get].
    destruct (String.eqb_spec k0 k) as [-> | N].
    + cbn [get]. destruct (String.eqb_spec k k') as [-> | N'].
      * now rewrite String.eqb_refl.
      * destruct (String.eqb_spec k' k) as [-> | _]; [contradiction|].
        destruct (has k t) eqn:Ht.
        -- rewrite (IH eq_refl).
           destruct (String.eqb_spec k' k) as [-> | _]; [contradiction | reflexivity].
        -- clear IH. 
           assert (G : forall t0, has k t0 = false ->
                     map (fun e : string * JsVal V => if fst e =? k then (fst e, v) else e) t0 = t0).
           { induction t0 as [| [a b] t0 IH0]; [reflexivity|].
             cbn. intros H. apply orb_false_iff in H. destruct H as [H1 H2].
             cbn in H1. rewrite H1. now rewrite IH0. }
           now rewrite G.
    + cbn [get]. cbn [has existsb fst] in Hh.
      apply String.eqb_neq in N. rewrite N in Hh. cbn in Hh.
      rewrite (IH Hh).
      destruct (String.eqb_spec k0 k') as [-> | N'].
      * rewrite N. reflexivity.
      * reflexivity.
Qed.

Lemma applyParam_spec t e :
  exists t', applyParam t e = Some t' /\ keys t' = keys t /\
    forall k, get k t' =
      if (k =? fst e) && has k t && negb (nullish (snd e))
         && negb (k =? "ambientLightColor")
         && negb (k =? "ambientLightIntensity")
      then snd e else get k t.
Proof.
  destruct e as [key value]. unfold applyParam. cbn [fst snd].
  destruct (nullish value) eqn:Hn; cbn [orb].
  { exists t. repeat split. intros k. now rewrite !andb_false_r. }
  destruct (has key t) eqn:Hh; cbn [negb orb].
  2:{ exists t. repeat split. intros k.
      destruct (String.eqb_spec k key) as [-> | N]; [| reflexivity].
      rewrite Hh. reflexivity. }
  destruct (key =? "ambientLightColor") eqn:Ha; cbn [orb].
  { exists t. repeat split. intros k.
    destruct (String.eqb_spec k key) as [-> | N]; [| reflexivity].
    rewrite Ha. cbn. now rewrite !andb_false_r. }
  destruct (key =? "ambientLightIntensity") eqn:Hi.
  { exists t. repeat split. intros k.
    destruct (String.eqb_spec k key) as [-> | N]; [| reflexivity].
    rewrite Hi. cbn. now rewrite !andb_false_r. }
  apply has_In in Hh. destruct (assign_Some key value t Hh) as [t' Ht'].
  exists t'. split; [exact Ht'|]. split; [exact (assign_keys _ _ _ _ Ht')|].
  intros k. rewrite (get_assign _ _ _ _ k Ht').
  destruct (String.eqb_spec k key) as [-> | N]; [| reflexivity].
  apply has_In in Hh. rewrite Hh, Ha, Hi. reflexivity.
Qed.

Lemma has_keys t t' k : keys t' = keys t -> has k t' = has k t.
Proof.
  intros E. destruct (has k t) eqn:H.
  - apply has_In. rewrite E. now apply has_In.
  - destruct (has k t') eqn:H'; [| reflexivity].
    apply has_In in H'. rewrite E in H'. apply has_In in H'. congruence.
Qed.

Lemma get_absent k (o : Obj V) : ~ In k (keys o) -> get k o = JsUndefined.
Proof.
  induction o as [| [k0 x] o IH]; [reflexivity|].
  cbn. intros H. destruct (String.eqb_spec k0 k) as [-> | N].
  - exfalso. apply H. now left.
  - apply IH. intros I. apply H. now right.
Qed.

(** The loop never throws, keeps the names of the table, and leaves in a
    uniform the parameter of its name when there is a non-nullish one that
    is not one of the two ambient names. *)
Lemma applyParams_spec (es : Obj V) :
  NoDup (keys es) ->
  forall t, exists t',
    applyParams es t = Some t' /\ keys t' = keys t /\
    forall k, get k t' =
      if has k t && negb (nullish (get k es))
         && negb (k =? "ambientLightColor")
         && negb (k =? "ambientLightIntensity")
      then get k es else get k t.
Proof.
  induction es as [| [k0 v0] es IH]; intros ND t.
  - exists t. repeat split. intros k. cbn. now rewrite andb_false_r.
  - cbn [keys map fst] in ND. inversion ND as [| ? ? Hnot ND']; subst.
    destruct (applyParam_spec t (k0, v0)) as (t1 & E1 & K1 & G1).
    destruct (IH ND' t1) as (t' & E' & K' & G').
    exists t'. cbn [applyParams]. rewrite E1. cbn [obind].
    split; [exact E'|]. split; [congruence|].
    intros k. rewrite G', G1. rewrite (has_keys t t1 k K1).
    cbn [fst snd get].
    destruct (String.eqb_spec k k0) as [-> | N].
    + rewrite String.eqb_refl.
      rewrite (get_absent k0 es Hnot). cbn [nullish negb andb].
      rewrite !andb_false_r. cbn [andb]. reflexivity.
    + assert ((k0 =? k) = false) as -> by (apply String.eqb_neq; congruence).
      reflexivity.
Qed.

Lemma applyParams_keys (es : Obj V) :
  forall t, exists t', applyParams es t = Some t' /\ keys t' = keys t.
Proof.
  induction es as [| e es IH]; intros t.
  - exists t. split; reflexivity.
  - destruct (applyParam_spec t e) as (t1 & E1 & K1 & _).
    destruct (IH t1) as (t' & E' & K').
    exists t'. cbn [applyParams]. rewrite E1. cbn [obind].
    split; [exact E' | congruence].
Qed.

Lemma applyParams_app (a b : Obj V) t :
  applyParams (a ++ b)%list t = obind (applyParams a t) (applyParams b).
Proof.
  revert t. induction a as [| e a IH]; intros t; [reflexivity|].
  cbn [app applyParams]. destruct (applyParam t e); [apply IH | reflexivity].
Qed.

Lemma get_app_skip k k' v (a b : Obj V) :
  k' <> k -> get k' (a ++ (k, v) :: b)%list = get k' (a ++ b)%list.
Proof.
  intros N. induction a as [| [k0 x] a IH].
  - cbn. destruct (String.eqb_spec k k'); [congruence | reflexivity].
  - cbn. now rewrite IH.
Qed.

(** The six assignments before the loop. *)
Lemma fixed_assignments p :
  (forall k, In k fixedKeys -> In k (keys (uniforms p))) ->
  exists t6,
    updateUniforms white zero p = applyParams (params p) t6 /\
    keys t6 = keys (uniforms p) /\
    forall k, get k t6 =
      match fixedValue white zero p k with
      | Some v => v
      | None => get k (uniforms p)
      end.
Proof.
  intros Hfix. unfold updateUniforms.
  assert (F : forall k, In k fixedKeys -> forall t v,
                keys t = keys (uniforms p) ->
                exists t', assign k v t = Some t' /\
                           keys t' = keys (uniforms p)).
  { intros k Hk t v Kt.
    destruct (assign_Some k v t) as [t' E]; [rewrite Kt; auto|].
    exists t'. split; [exact E|]. rewrite <- Kt. exact (assign_keys _ _ _ _ E). }
  destruct (F "cameraPos" ltac:(cbn; tauto) (uniforms p)
              (JsValue (position (playerCamera p))) eq_refl) as (t1 & E1 & K1).
  rewrite E1. cbn [obind].
  destruct (F "cameraProjectionMatrixInv" ltac:(cbn; tauto) t1
              (JsValue (projectionMatrixInverse (playerCamera p))) K1)
    as (t2 & E2 & K2).
  rewrite E2. cbn [obind].
  destruct (F "cameraMatrixWorld" ltac:(cbn; tauto) t2
              (JsValue (matrixWorld (playerCamera p))) K2) as (t3 & E3 & K3).
  rewrite E3. cbn [obind].
  destruct (F "ambientLightColor" ltac:(cbn; tauto) t3
              (coalesce (get "ambientLightColor" (params p))
                        (coalesce (ambientColor p) (JsValue white))) K3)
    as (t4 & E4 & K4).
  rewrite E4. cbn [obind].
  destruct (F "ambientLightIntensity" ltac:(cbn; tauto) t4
              (coalesce (get "ambientLightIntensity" (params p))
                        (coalesce (ambientIntensity p) (JsValue zero))) K4)
    as (t5 & E5 & K5).
  rewrite E5. cbn [obind].
  destruct (F "noiseTexture" ltac:(cbn; tauto) t5 (noiseTexture3D p) K5)
    as (t6 & E6 & K6).
  rewrite E6. cbn [obind].
  exists t6. split; [reflexivity|]. split; [exact K6|].
  intros k. unfold fixedValue.
  rewrite (get_assign _ _ _ _ k E6).
  destruct (k =? "noiseTexture"); [reflexivity|].
  rewrite (get_assign _ _ _ _ k E5).
  destruct (k =? "ambientLightIntensity"); [reflexivity|].
  rewrite (get_assign _ _ _ _ k E4).
  destruct (k =? "ambientLightColor"); [reflexivity|].
  rewrite (get_assign _ _ _ _ k E3).
  destruct (k =? "cameraMatrixWorld"); [reflexivity|].
  rewrite (get_assign _ _ _ _ k E2).
  destruct (k =? "cameraProjectionMatrixInv"); [reflexivity|].
  rewrite (get_assign _ _ _ _ k E1).
  destruct (k =? "cameraPos"); reflexivity.
Qed.

Lemma updateUniforms_result p :
  (forall k, In k fixedKeys -> In k (keys (uniforms p))) ->
  NoDup (keys (params p)) ->
  exists t,
    updateUniforms white zero p = Some t /\
    keys t = keys (uniforms p) /\
    forall k, In k (keys (uniforms p)) ->
      get k t =
        if overrides p k then get k (params p)
        else match fixedValue white zero p k with
             | Some v => v
             | None => get k (uniforms p)
             end.
Proof.
  intros Hfix ND.
  destruct (fixed_assignments p Hfix) as (t6 & E & K6 & G6).
  destruct (applyParams_spec (params p) ND t6) as (t & Et & Kt & Gt).
  exists t. rewrite E. split; [exact Et|]. split; [congruence|].
  intros k Hk. rewrite Gt, G6.
  assert (has k t6 = true) as -> by (apply has_In; rewrite K6; exact Hk).
  unfold overrides. cbn [andb]. reflexivity.
Qed.

(** [updateUniforms] never throws on a table that has the six names it
    writes unconditionally; it keeps the names of the table; and it leaves
    in each uniform the parameter of that name when the loop applies it,
    else the value written before the loop, else the old value. *)
Theorem updateUniforms_spec p :
  (forall k, In k fixedKeys -> In k (keys (uniforms p))) ->
  NoDup (keys (params p)) ->
  exists t,
    updateUniforms white zero p = Some t /\
    keys t = keys (uniforms p) /\
    forall k, In k (keys (uniforms p)) ->
      get k t =
        if overrides p k then get k (params p)
        else match fixedValue white zero p k with
             | Some v => v
             | None => get k (uniforms p)
             end.
Proof. exact (updateUniforms_result p). Qed.

(** The ambient uniforms are never left null: a parameter wins over the
    scene's ambient light, which wins over the default. *)
Theorem updateUniforms_ambient p t :
  (forall k, In k fixedKeys -> In k (keys (uniforms p))) ->
  NoDup (keys (params p)) ->
  updateUniforms white zero p = Some t ->
  get "ambientLightColor" t
  = coalesce (get "ambientLightColor" (params p))
             (coalesce (ambientColor p) (JsValue white)) /\
  get "ambientLightIntensity" t
  = coalesce (get "ambientLightIntensity" (params p))
             (coalesce (ambientIntensity p) (JsValue zero)) /\
  nullish (get "ambientLightColor" t) = false /\
  nullish (get "ambientLightIntensity" t) = false.
Proof.
  intros Hfix ND E.
  destruct (updateUniforms_result p Hfix ND) as (t' & E' & _ & G).
  rewrite E in E'. injection E' as <-.
  assert (Hc : get "ambientLightColor" t
               = coalesce (get "ambientLightColor" (params p))
                          (coalesce (ambientColor p) (JsValue white))).
  { rewrite G by (apply Hfix; cbn; tauto).
    unfold overrides. cbn. now rewrite andb_false_r. }
  assert (Hi : get "ambientLightIntensity" t
               = coalesce (get "ambientLightIntensity" (params p))
                          (coalesce (ambientIntensity p) (JsValue zero))).
  { rewrite G by (apply Hfix; cbn; tauto).
    unfold overrides. cbn. now rewrite andb_false_r. }
  rewrite Hc, Hi. repeat split.
  - unfold coalesce. destruct (nullish (get "ambientLightColor" (params p))) eqn:N;
      [| exact N]. destruct (nullish (ambientColor p)) eqn:N'; [reflexivity | exact N'].
  - unfold coalesce. destruct (nullish (get "ambientLightIntensity" (params p))) eqn:N;
      [| exact N]. destruct (nullish (ambientIntensity p)) eqn:N'; [reflexivity | exact N'].
Qed.

(** A parameter whose name is not a uniform (halfRes, compositor, a
    misspelt name) is ignored, whatever its value and its place. *)
Theorem updateUniforms_ignores_unknown_key p (a b : Obj V) k v :
  (forall k', In k' fixedKeys -> In k' (keys (uniforms p))) ->
  ~ In k (keys (uniforms p)) ->
  updateUniforms white zero (withParams p (a ++ (k, v) :: b)%list)
  = updateUniforms white zero (withParams p (a ++ b)%list).
Proof.
  intros Hfix Hk.
  assert (Nc : "ambientLightColor" <> k)
    by (intros <-; apply Hk, Hfix; cbn; tauto).
  assert (Ni : "ambientLightIntensity" <> k)
    by (intros <-; apply Hk, Hfix; cbn; tauto).
  unfold updateUniforms.
  cbn [uniforms playerCamera params withParams noiseTexture3D].
  unfold ambientColor, ambientIntensity. cbn [ambientLight withParams].
  rewrite !(get_app_skip k _ v a b) by assumption.
  destruct (assign "cameraPos" _ (uniforms p)) as [t1 |] eqn:E1;
    cbn [obind]; [| reflexivity].
  destruct (assign "cameraProjectionMatrixInv" _ t1) as [t2 |] eqn:E2;
    cbn [obind]; [| reflexivity].
  destruct (assign "cameraMatrixWorld" _ t2) as [t3 |] eqn:E3;
    cbn [obind]; [| reflexivity].
  destruct (assign "ambientLightColor" _ t3) as [t4 |] eqn:E4;
    cbn [obind]; [| reflexivity].
  destruct (assign "ambientLightIntensity" _ t4) as [t5 |] eqn:E5;
    cbn [obind]; [| reflexivity].
  destruct (assign "noiseTexture" _ t5) as [t6 |] eqn:E6;
    cbn [obind]; [| reflexivity].
  assert (K6 : keys t6 = keys (uniforms p)).
  { rewrite (assign_keys _ _ _ _ E6), (assign_keys _ _ _ _ E5),
      (assign_keys _ _ _ _ E4), (assign_keys _ _ _ _ E3),
      (assign_keys _ _ _ _ E2). exact (assign_keys _ _ _ _ E1). }
  rewrite !applyParams_app.
  destruct (applyParams_keys a t6) as (ta & Ea & Ka).
  rewrite Ea. cbn [obind applyParams].
  assert (Hh : has k ta = false).
  { destruct (has k ta) eqn:H; [| reflexivity].
    apply has_In in H. rewrite Ka, K6 in H. contradiction. }
  unfold applyParam at 1. rewrite Hh. cbn [negb orb].
  rewrite orb_true_r. cbn [orb obind]. reflexivity.
Qed.

Lemma obj_ext (x y : Obj V) :
  keys x = keys y -> NoDup (keys x) ->
  (forall k, In k (keys x) -> get k x = get k y) -> x = y.
Proof.
  revert y. induction x as [| [k0 v0] x IH]; intros [| [k1 v1] y] K ND G;
    try discriminate; [reflexivity|].
  cbn [keys map fst] in K, ND. injection K as -> K.
  inversion ND as [| ? ? Hnot ND']; subst.
  pose proof (G k1 (or_introl eq_refl)) as G0. cbn in G0.
  rewrite String.eqb_refl in G0. subst v1. f_equal.
  apply IH; [exact K | exact ND' |].
  intros k Hk. specialize (G k (or_intror Hk)). cbn in G.
  destruct (String.eqb_spec k1 k) as [-> | N]; [contradiction | exact G].
Qed.

(** Calling [updateUniforms] again on the table it left changes nothing. *)
Theorem updateUniforms_idempotent p t :
  (forall k, In k fixedKeys -> In k (keys (uniforms p))) ->
  NoDup (keys (params p)) ->
  NoDup (keys (uniforms p)) ->
  updateUniforms white zero p = Some t ->
  updateUniforms white zero (withUniforms p t) = Some t.
Proof.
  intros Hfix ND NDu E.
  destruct (updateUniforms_result p Hfix ND) as (t0 & E0 & K0 & G0).
  rewrite E in E0. injection E0 as <-.
  assert (Hfix' : forall k, In k fixedKeys ->
                    In k (keys (uniforms (withUniforms p t))))
    by (cbn [uniforms withUniforms]; rewrite K0; exact Hfix).
  destruct (updateUniforms_result (withUniforms p t) Hfix' ND)
    as (t' & E' & K' & G').
  rewrite E'. f_equal. cbn [uniforms withUniforms] in K', G'.
  apply obj_ext; [congruence | congruence |].
  intros k Hk. rewrite K', K0 in Hk.
  rewrite G' by (rewrite K0; exact Hk). rewrite (G0 k Hk).
  change (overrides (withUniforms p t) k) with (overrides p k).
  change (params (withUniforms p t)) with (params p).
  change (fixedValue white zero (withUniforms p t) k)
    with (fixedValue white zero p k).
  destruct (overrides p k); [reflexivity|].
  destruct (fixedValue white zero p k); reflexivity.
Qed.
End Facts.
End PassFacts.

(** ** Runs and inputs used at the concrete instances *)

(** When the cap lets the loop cover the ray, the loop ends without the
    sentinel. *)
Lemma loop_done_when_cap_covers_ray (g : Glsl) (u : Uniforms) (r : Ray) :
  (maxRaymarchStepCount u < INT_MAX)%Z ->
  rayLength r <= INR (Z.to_nat (maxRaymarchStepCount u + 1)) * stepLength u r ->
  exists st, march_loop g u (march_fuel u) r = Some (Done st).
Proof.
  intros Hmax Hcov.
  pose proof (march_loop_terminates g u r Hmax) as T.
  unfold march_loop in *.
  destruct (march_run g u (march_fuel u) r initState) as [tr en] eqn:R.
  cbn [snd] in *. destruct en as [[st |] |]; [eauto | | contradiction].
  exfalso.
  destruct (march_run_Capped g u r _ _ _ R) as [Hl Hd];
    [cbn; lia | exact Hmax |].
  cbn [totalIters initState] in Hl. rewrite Z.sub_0_r in Hl.
  rewrite totalDistance_bodies in Hd. cbn [totalDistance initState] in Hd.
  rewrite Hl in Hd. lra.
Qed.

Lemma topRay_loop_done :
  exists st,
    march_loop glsl_zero cappedAtTwo (march_fuel cappedAtTwo) topRay
    = Some (Done st).
Proof.
  apply loop_done_when_cap_covers_ray.
  - cbn. unfold INT_MAX. lia.
  - rewrite stepLength_topRay.
    change (Z.to_nat (maxRaymarchStepCount cappedAtTwo + 1)) with 3%nat.
    cbn. lra.
Qed.

Lemma topRay_empty (u : Uniforms) (t : R) :
  fogFadeOutRangeY u > 0 -> fogMaxY u <= 4.4 ->
  sampleFogDensity glsl_zero u (samplePos topRay t) = 0.
Proof.
  intros Hr Hm. apply sampleFogDensity_at_top; [exact Hr|].
  unfold samplePos. cbn. lra.
Qed.

Lemma iteration_capped_intro (g : Glsl) (u : Uniforms) (r : Ray)
    (st : MarchState) :
  totalDistance st < rayLength r ->
  (totalIters st > maxRaymarchStepCount u)%Z ->
  iteration g u r st = Capped.
Proof.
  intros Hd Hi. unfold iteration.
  destruct (Rlt_dec (totalDistance st) (rayLength r)); [| contradiction].
  destruct (Z.gtb_spec (totalIters st) (maxRaymarchStepCount u)); [reflexivity | lia].
Qed.

Lemma march_init_topRay_zero :
  march_init glsl_zero cappedAtZero (Vec3 0 4.4 0) (Vec3 1 4.4 0) (IVec2 0 0)
  = Some topRay.
Proof. init_along_x 4.4 1. Qed.

Lemma topRay_loop_capped :
  march_loop glsl_zero cappedAtZero 2 topRay = Some IterationCapped.
Proof.
  unfold march_loop. cbn [march_run].
  set (b1 := body glsl_zero cappedAtZero topRay initState).
  assert (Hz : density b1 = 0).
  { unfold b1. rewrite density_body_gated; [reflexivity|].
    rewrite topRay_empty by (cbn; lra). lra. }
  assert (Hs : stepLength cappedAtZero topRay = 0.49).
  { unfold stepLength. cbn. rewrite Rmax_left by lra. lra. }
  rewrite (iteration_continue_intro glsl_zero cappedAtZero topRay initState);
    [| cbn; lra | cbn; lia | fold b1; rewrite Hz; cbn; lra ].
  fold b1.
  rewrite (iteration_capped_intro glsl_zero cappedAtZero topRay b1).
  - reflexivity.
  - unfold b1. rewrite totalDistance_body, Hs. cbn. lra.
  - unfold b1. rewrite totalIters_body. cbn. lia.
Qed.

Lemma march_outside (g : Glsl) (u : Uniforms) (fuel : nat)
    (s e : vec3) (sc : ivec2) :
  outside u s e -> march g u fuel s e sc = Some (Vec4 0 0 0 0).
Proof.
  intros O. unfold march. rewrite march_init_collapsed; [reflexivity|].
  unfold clipped. rewrite (clipRayEndpoints_outside g u _ _ O). reflexivity.
Qed.

(** The one plane intersection of the segment (0,10,0)-(0,0,0) under the
    default bounds. *)
Lemma crossing_log :
  snd (clipRayEndpoints glsl_zero saturatedFog (Vec3 0 10 0) (Vec3 0 0 0))
  = [ {| pq_origin := Vec3 0 10 0;
         pq_direction :=
           normalize glsl_zero (vsub (Vec3 0 0 0) (Vec3 0 10 0));
         pq_plane := 4.4 |} ].
Proof.
  assert (H : ~ outside saturatedFog (Vec3 0 10 0) (Vec3 0 0 0))
    by (unfold outside; cbn; lra).
  rewrite <- outside_test in H. apply not_true_is_false in H.
  unfold clipRayEndpoints. rewrite H.
  unfold bind, ret, intersectRayXZPlane. cbv zeta.
  cbn [fogMinY fogMaxY saturatedFog defaultUniforms].
  repeat (split_Rlt; cbn [vy] in *; try lra).
  reflexivity.
Qed.

Lemma deepFrame_world (vUv : R * R) :
  computeWorldPosFromDepth glsl_zero deepFrame (sceneDepth deepFrame vUv) vUv
  = Vec3 (fst vUv * 2 - 1) (snd vUv * 2 - 1 - 100) 0.
Proof.
  unfold computeWorldPosFromDepth. cbv zeta.
  cbn [sceneDepth cameraProjectionMatrixInv cameraMatrixWorld deepFrame].
  unfold mulMV, identity4, translateY, dot4. cbn [row0 row1 row2 row3 cr cg cb ca].
  replace (0 * (fst vUv * 2 - 1) + 0 * (snd vUv * 2 - 1)
           + 0 * (0.5 * 2 - 1) + 1 * 1) with 1 by ring.
  rewrite !fdiv_nonzero by lra.
  f_equal; lra.
Qed.

Lemma fogFrame_world :
  computeWorldPosFromDepth glsl_zero fogFrame (sceneDepth fogFrame (1, 0.5))
                           (1, 0.5)
  = Vec3 1 0 0.
Proof.
  unfold computeWorldPosFromDepth. cbv zeta.
  cbn [sceneDepth cameraProjectionMatrixInv cameraMatrixWorld fogFrame fst snd].
  unfold mulMV, identity4, dot4. cbn [row0 row1 row2 row3 cr cg cb ca].
  replace (0 * (1 * 2 - 1) + 0 * (0.5 * 2 - 1) + 0 * (0.5 * 2 - 1) + 1 * 1)
    with 1 by ring.
  rewrite !fdiv_nonzero by lra.
  f_equal; lra.
Qed.

Lemma march_init_unitRay_at (sc : ivec2) :
  march_init glsl_zero saturatedFog (Vec3 0 0 0) (Vec3 1 0 0) sc
  = Some unitRay.
Proof. init_along_x 0 1. Qed.

(** The run of [unitRay] ends by itself, with a positive opacity. *)
Lemma unitRay_loop_done :
  exists st,
    march_loop glsl_zero saturatedFog (march_fuel saturatedFog) unitRay
    = Some (Done st) /\ 0 < density st.
Proof.
  assert (Hs : 0 <= stepLength saturatedFog unitRay
                    * fogDensityMultiplier saturatedFog)
    by (rewrite stepLength_unitRay; cbn; lra).
  destruct (loop_done_when_cap_covers_ray glsl_zero saturatedFog unitRay)
    as [st H].
  - cbn. unfold INT_MAX. lia.
  - rewrite stepLength_unitRay.
    change (Z.to_nat (maxRaymarchStepCount saturatedFog + 1)) with 401%nat.
    rewrite INR_IZR_INZ. cbn. lra.
  - exists st. split; [exact H|].
    pose proof (final_density_above_first glsl_zero saturatedFog unitRay _ st
                  Hs ltac:(cbn; lra) ltac:(cbn; lra) ltac:(cbn; lia) H) as L.
    pose proof (rawDensityAt_unitRay 0) as K.
    change (body glsl_zero saturatedFog unitRay initState)
      with (bodies glsl_zero saturatedFog unitRay 1 initState) in L.
    rewrite density_first_body in L by lra.
    rewrite stepLength_unitRay in L. cbn in L. lra.
Qed.

(** ** The further properties at concrete inputs *)

Lemma clipRayEndpoints_divides_by_nonzero_witness :
  In {| pq_origin := Vec3 0 10 0;
        pq_direction := normalize glsl_zero (vsub (Vec3 0 0 0) (Vec3 0 10 0));
        pq_plane := 4.4 |}
     (snd (clipRayEndpoints glsl_zero saturatedFog (Vec3 0 10 0) (Vec3 0 0 0)))
  /\ vy (normalize glsl_zero (vsub (Vec3 0 0 0) (Vec3 0 10 0))) <> 0.
Proof.
  assert (H : In {| pq_origin := Vec3 0 10 0;
                    pq_direction :=
                      normalize glsl_zero (vsub (Vec3 0 0 0) (Vec3 0 10 0));
                    pq_plane := 4.4 |}
                 (snd (clipRayEndpoints glsl_zero saturatedFog
                         (Vec3 0 10 0) (Vec3 0 0 0))))
    by (rewrite crossing_log; left; reflexivity).
  split; [exact H|].
  exact (clipRayEndpoints_divides_by_nonzero glsl_zero saturatedFog
           (Vec3 0 10 0) (Vec3 0 0 0) _ H).
Defined.

Lemma clipped_within_segment_witness :
  fogMinY saturatedFog <= fogMaxY saturatedFog /\
  exists a b : R,
    fst (clipped glsl_zero saturatedFog (Vec3 0 10 0) (Vec3 0 0 0))
    = along (Vec3 0 10 0) (Vec3 0 0 0) a /\
    snd (clipped glsl_zero saturatedFog (Vec3 0 10 0) (Vec3 0 0 0))
    = along (Vec3 0 10 0) (Vec3 0 0 0) b /\
    0 <= a /\ a <= b /\ b <= 1.
Proof.
  assert (H : fogMinY saturatedFog <= fogMaxY saturatedFog) by (cbn; lra).
  split; [exact H|].
  exact (clipped_within_segment glsl_zero saturatedFog
           (Vec3 0 10 0) (Vec3 0 0 0) H).
Defined.

Lemma march_loop_Done_postcondition_witness :
  exists st : MarchState,
    march_loop glsl_zero cappedAtTwo (march_fuel cappedAtTwo) topRay
    = Some (Done st) /\
    totalDistance st
    = INR (length (march_trace glsl_zero cappedAtTwo
                     (march_fuel cappedAtTwo) topRay))
      * stepLength cappedAtTwo topRay /\
    (totalDistance st >= rayLength topRay \/
     density st >= maxDensity cappedAtTwo - 0.01) /\
    ((0 < length (march_trace glsl_zero cappedAtTwo
                    (march_fuel cappedAtTwo) topRay))%nat ->
     totalDistance st < rayLength topRay + stepLength cappedAtTwo topRay).
Proof.
  destruct topRay_loop_done as [st H]. exists st. split; [exact H|].
  exact (march_loop_Done_postcondition glsl_zero cappedAtTwo topRay
           (march_fuel cappedAtTwo) st H).
Defined.

Lemma march_samples_before_ray_end_witness :
  march_init glsl_zero darkBlueNoise (Vec3 0 0 0) (Vec3 1 0 0) (IVec2 0 0)
  = Some shortRay /\
  nth_error (march_trace glsl_zero darkBlueNoise 2 shortRay) 1
  = Some (bodies glsl_zero darkBlueNoise shortRay 2 initState) /\
  totalDistance (bodies glsl_zero darkBlueNoise shortRay 2 initState)
  = INR 2 * stepLength darkBlueNoise shortRay /\
  INR 1 * stepLength darkBlueNoise shortRay < rayLength shortRay /\
  samplePos shortRay (INR 1 * stepLength darkBlueNoise shortRay)
  = vadd (fst (clipped glsl_zero darkBlueNoise (Vec3 0 0 0) (Vec3 1 0 0)))
         (vscale (rayDir shortRay)
                 (jitter shortRay + INR 1 * stepLength darkBlueNoise shortRay)).
Proof.
  assert (H : nth_error (march_trace glsl_zero darkBlueNoise 2 shortRay) 1
              = Some (bodies glsl_zero darkBlueNoise shortRay 2 initState))
    by exact (proj2 shortRay_two_bodies).
  split; [exact march_init_shortRay|]. split; [exact H|].
  exact (march_samples_before_ray_end glsl_zero darkBlueNoise shortRay
           (Vec3 0 0 0) (Vec3 1 0 0) (IVec2 0 0) 2 1 _
           march_init_shortRay H).
Defined.

Lemma march_loop_capped_after_cap_plus_one_witness :
  (maxRaymarchStepCount cappedAtZero < INT_MAX)%Z /\
  march_loop glsl_zero cappedAtZero 2 topRay = Some IterationCapped /\
  length (march_trace glsl_zero cappedAtZero 2 topRay)
  = Z.to_nat (maxRaymarchStepCount cappedAtZero + 1) /\
  INR (Z.to_nat (maxRaymarchStepCount cappedAtZero + 1))
  * stepLength cappedAtZero topRay < rayLength topRay.
Proof.
  assert (H : (maxRaymarchStepCount cappedAtZero < INT_MAX)%Z)
    by (cbn; unfold INT_MAX; lia).
  split; [exact H|]. split; [exact topRay_loop_capped|].
  exact (march_loop_capped_after_cap_plus_one glsl_zero cappedAtZero topRay 2
           H topRay_loop_capped).
Defined.

Lemma march_result_independent_of_fuel_witness :
  (maxRaymarchStepCount saturatedFog < INT_MAX)%Z /\
  exists c : vec4,
    forall k : nat,
      march glsl_zero saturatedFog (march_fuel saturatedFog + k)
            (Vec3 0 0 0) (Vec3 1 0 0) (IVec2 0 0) = Some c.
Proof.
  assert (H : (maxRaymarchStepCount saturatedFog < INT_MAX)%Z)
    by (cbn; unfold INT_MAX; lia).
  split; [exact H|].
  exact (march_result_independent_of_fuel glsl_zero saturatedFog
           (Vec3 0 0 0) (Vec3 1 0 0) (IVec2 0 0) H).
Defined.

Lemma march_output_in_unit_range_witness :
  (maxRaymarchStepCount saturatedFog < INT_MAX)%Z /\
  (forall r,
     march_init glsl_zero saturatedFog (Vec3 0 0 0) (Vec3 1 0 0) (IVec2 0 0)
     = Some r ->
     0 <= stepLength saturatedFog r * fogDensityMultiplier saturatedFog) /\
  maxDensity saturatedFog <= 1.01 /\
  0 <= postDensityMultiplier saturatedFog /\
  0 < postDensityPow saturatedFog /\
  march_init glsl_zero saturatedFog (Vec3 0 0 0) (Vec3 1 0 0) (IVec2 0 0)
  = Some unitRay /\
  (exists st,
     march_loop glsl_zero saturatedFog (march_fuel saturatedFog) unitRay
     = Some (Done st) /\ 0 < density st) /\
  exists c : vec4,
    march glsl_zero saturatedFog (march_fuel saturatedFog)
          (Vec3 0 0 0) (Vec3 1 0 0) (IVec2 0 0) = Some c /\
    (forall r st,
       march_init glsl_zero saturatedFog (Vec3 0 0 0) (Vec3 1 0 0) (IVec2 0 0)
       = Some r ->
       march_loop glsl_zero saturatedFog (march_fuel saturatedFog) r
       = Some (Done st) ->
       exists a,
         Partial.pow (density st * postDensityMultiplier saturatedFog)
                     (postDensityPow saturatedFog) = Some a /\
         ca c = clamp a 0 1) /\
    0 <= cr c <= 1 /\ 0 <= cg c <= 1 /\ 0 <= cb c <= 1 /\ 0 <= ca c <= 1.
Proof.
  assert (H1 : (maxRaymarchStepCount saturatedFog < INT_MAX)%Z)
    by (cbn; unfold INT_MAX; lia).
  assert (H2 : forall r,
     march_init glsl_zero saturatedFog (Vec3 0 0 0) (Vec3 1 0 0) (IVec2 0 0)
     = Some r ->
     0 <= stepLength saturatedFog r * fogDensityMultiplier saturatedFog).
  { intros r Hr. rewrite march_init_unitRay in Hr. injection Hr as <-.
    rewrite stepLength_unitRay. cbn. lra. }
  assert (H3 : maxDensity saturatedFog <= 1.01) by (cbn; lra).
  assert (H4 : 0 <= postDensityMultiplier saturatedFog) by (cbn; lra).
  assert (H5 : 0 < postDensityPow saturatedFog) by (cbn; lra).
  split; [exact H1|]. split; [exact H2|]. split; [exact H3|].
  split; [exact H4|]. split; [exact H5|].
  split; [exact march_init_unitRay|]. split; [exact unitRay_loop_done|].
  exact (march_output_in_unit_range glsl_zero saturatedFog
           (Vec3 0 0 0) (Vec3 1 0 0) (IVec2 0 0) H1 H2 H3 H4 H5).
Defined.

Lemma iteration_count_le_succ_cap_witness :
  (maxRaymarchStepCount saturatedFog < INT_MAX)%Z /\
  (length (march_trace glsl_zero saturatedFog 1000 unitRay)
   <= Z.to_nat (maxRaymarchStepCount saturatedFog + 1))%nat.
Proof.
  assert (H : (maxRaymarchStepCount saturatedFog < INT_MAX)%Z)
    by (cbn; unfold INT_MAX; lia).
  split; [exact H|].
  exact (iteration_count_le_succ_cap glsl_zero saturatedFog unitRay 1000 H).
Defined.

Lemma computeColor_blend_witness :
  1 >= 1 / 12 /\
  computeColor saturatedFog vzero 1 = fogColorHighDensity saturatedFog /\
  0 <= 0 /\
  computeColor saturatedFog vzero 0 = fogColorLowDensity saturatedFog.
Proof.
  assert (H1 : 1 >= 1 / 12) by lra.
  assert (H0 : 0 <= 0) by lra.
  split; [exact H1|]. split.
  - exact (proj1 (proj2 (computeColor_blend saturatedFog vzero 1)) H1).
  - split; [exact H0|].
    exact (proj2 (proj2 (computeColor_blend saturatedFog vzero 0)) H0).
Defined.

Lemma accumulated_color_below_density_witness :
  channelsIn (fogColorLowDensity saturatedFog) 0 1 /\
  channelsIn (fogColorHighDensity saturatedFog) 0 1 /\
  (forall i,
     (S i < length (march_states glsl_zero saturatedFog 1 unitRay))%nat ->
     rawDensityAt glsl_zero saturatedFog unitRay i > 0.01 ->
     0 <= rawDensityAt glsl_zero saturatedFog unitRay i
          * stepLength saturatedFog unitRay
          * fogDensityMultiplier saturatedFog <= 1) /\
  nth_error (march_states glsl_zero saturatedFog 1 unitRay) 1
  = Some (body glsl_zero saturatedFog unitRay initState) /\
  channelsIn (accumulatedColor (body glsl_zero saturatedFog unitRay initState))
             0 (density (body glsl_zero saturatedFog unitRay initState)).
Proof.
  assert (Hl : channelsIn (fogColorLowDensity saturatedFog) 0 1)
    by (unfold channelsIn; cbn; lra).
  assert (Hh : channelsIn (fogColorHighDensity saturatedFog) 0 1)
    by (unfold channelsIn; cbn; lra).
  assert (Hd : forall i,
     (S i < length (march_states glsl_zero saturatedFog 1 unitRay))%nat ->
     rawDensityAt glsl_zero saturatedFog unitRay i > 0.01 ->
     0 <= rawDensityAt glsl_zero saturatedFog unitRay i
          * stepLength saturatedFog unitRay
          * fogDensityMultiplier saturatedFog <= 1).
  { intros i _ _. unfold rawDensityAt.
    rewrite sampleFogDensity_along_x by reflexivity.
    rewrite stepLength_unitRay. pose proof originDensity_range. cbn. lra. }
  assert (Hn : nth_error (march_states glsl_zero saturatedFog 1 unitRay) 1
               = Some (body glsl_zero saturatedFog unitRay initState))
    by (apply march_states_first; [cbn; lra | cbn; lia]).
  split; [exact Hl|]. split; [exact Hh|]. split; [exact Hd|].
  split; [exact Hn|].
  exact (accumulated_color_below_density glsl_zero saturatedFog unitRay 1
           Hl Hh Hd 1 _ Hn).
Defined.

Lemma march_through_empty_fog_witness :
  march_init glsl_zero cappedAtTwo (Vec3 0 4.4 0) (Vec3 1 4.4 0) (IVec2 0 0)
  = Some topRay /\
  (maxRaymarchStepCount cappedAtTwo < INT_MAX)%Z /\
  (forall i,
     (i < length (march_trace glsl_zero cappedAtTwo
                    (march_fuel cappedAtTwo) topRay))%nat ->
     rawDensityAt glsl_zero cappedAtTwo topRay i <= 0.01) /\
  postDensityPow cappedAtTwo > 0 /\
  march glsl_zero cappedAtTwo (march_fuel cappedAtTwo)
        (Vec3 0 4.4 0) (Vec3 1 4.4 0) (IVec2 0 0)
  = Some (Vec4 0 0 0 0).
Proof.
  assert (Hm : (maxRaymarchStepCount cappedAtTwo < INT_MAX)%Z)
    by (cbn; unfold INT_MAX; lia).
  assert (Hr : forall i,
     (i < length (march_trace glsl_zero cappedAtTwo
                    (march_fuel cappedAtTwo) topRay))%nat ->
     rawDensityAt glsl_zero cappedAtTwo topRay i <= 0.01).
  { intros i _. unfold rawDensityAt.
    rewrite topRay_empty by (cbn; lra). lra. }
  assert (Hp : postDensityPow cappedAtTwo > 0) by (cbn; lra).
  split; [exact march_init_topRay|]. split; [exact Hm|].
  split; [exact Hr|]. split; [exact Hp|].
  destruct (march_through_empty_fog glsl_zero cappedAtTwo _ _ _ topRay
              march_init_topRay Hm Hr Hp) as [[Hc _] | [_ Hb]].
  - exfalso. destruct topRay_loop_done as [st Hd].
    rewrite Hd in Hc. discriminate Hc.
  - exact Hb.
Defined.

Lemma octaves_within_total_weight_witness :
  (forall q, 0 <= noiseTexture saturatedFog q <= 1) /\
  0.485 - 1.695 <= fst (octaves saturatedFog vzero 0.485) <= 0.485 + 1.695 /\
  snd (octaves saturatedFog vzero 0.485) = 1.695.
Proof.
  assert (H : forall q, 0 <= noiseTexture saturatedFog q <= 1)
    by (intros q; cbn; lra).
  split; [exact H|].
  exact (octaves_within_total_weight saturatedFog vzero 0.485 H).
Defined.


Lemma computeWorldPosFromDepth_inverts_projection_witness :
  (forall v, mulMV (cameraProjectionMatrixInv depthFrame) (mulMV swapZW v)
             = v) /\
  (forall v, mulMV (cameraMatrixWorld depthFrame) (mulMV (translateY 100) v)
             = v) /\
  row3 (translateY 100) = Vec4 0 0 0 1 /\
  ca (mulMV swapZW (mulMV (translateY 100) (point4 (Vec3 1 2 4)))) = 4 /\
  ca (mulMV swapZW (mulMV (translateY 100) (point4 (Vec3 1 2 4)))) <> 0 /\
  computeWorldPosFromDepth glsl_zero depthFrame
    (fst (projectToScreen swapZW (translateY 100) (Vec3 1 2 4)))
    (snd (projectToScreen swapZW (translateY 100) (Vec3 1 2 4)))
  = Vec3 1 2 4.
Proof.
  assert (H1 : forall v,
             mulMV (cameraProjectionMatrixInv depthFrame) (mulMV swapZW v)
             = v).
  { intros [x y z w]. unfold mulMV, dot4. cbn. f_equal; ring. }
  assert (H2 : forall v,
             mulMV (cameraMatrixWorld depthFrame) (mulMV (translateY 100) v)
             = v).
  { intros [x y z w]. unfold mulMV, dot4. cbn. f_equal; ring. }
  assert (H3 : row3 (translateY 100) = Vec4 0 0 0 1) by reflexivity.
  assert (H4 : ca (mulMV swapZW
                     (mulMV (translateY 100) (point4 (Vec3 1 2 4)))) = 4).
  { unfold mulMV, dot4. cbn. lra. }
  assert (H5 : ca (mulMV swapZW
                     (mulMV (translateY 100) (point4 (Vec3 1 2 4)))) <> 0)
    by (rewrite H4; lra).
  repeat (split; [assumption|]).
  exact (computeWorldPosFromDepth_inverts_projection glsl_zero depthFrame
           swapZW (translateY 100) (Vec3 1 2 4) H1 H2 H3 H5).
Defined.

Lemma main_outside_slab_witness :
  ((vy (cameraPos deepFrame) < fogMinY saturatedFog /\
    vy (computeWorldPosFromDepth glsl_zero deepFrame
          (sceneDepth deepFrame (0.5, 0.5)) (0.5, 0.5))
    < fogMinY saturatedFog) \/
   (vy (cameraPos deepFrame) > fogMaxY saturatedFog /\
    vy (computeWorldPosFromDepth glsl_zero deepFrame
          (sceneDepth deepFrame (0.5, 0.5)) (0.5, 0.5))
    > fogMaxY saturatedFog)) /\
  main glsl_zero saturatedFog deepFrame true 0 (0.5, 0.5)
  = Some (Vec4 (vx (sceneDiffuse deepFrame (0.5, 0.5)))
               (vy (sceneDiffuse deepFrame (0.5, 0.5)))
               (vz (sceneDiffuse deepFrame (0.5, 0.5))) 1) /\
  main glsl_zero saturatedFog deepFrame false 0 (0.5, 0.5)
  = Some (Vec4 0 0 0 0).
Proof.
  assert (H : (vy (cameraPos deepFrame) < fogMinY saturatedFog /\
               vy (computeWorldPosFromDepth glsl_zero deepFrame
                     (sceneDepth deepFrame (0.5, 0.5)) (0.5, 0.5))
               < fogMinY saturatedFog) \/
              (vy (cameraPos deepFrame) > fogMaxY saturatedFog /\
               vy (computeWorldPosFromDepth glsl_zero deepFrame
                     (sceneDepth deepFrame (0.5, 0.5)) (0.5, 0.5))
               > fogMaxY saturatedFog)).
  { left. rewrite deepFrame_world. cbn. lra. }
  split; [exact H|].
  exact (main_outside_slab glsl_zero saturatedFog deepFrame 0 (0.5, 0.5) H).
Defined.

Lemma main_direct_compositing_in_unit_range_witness :
  channelsIn (sceneDiffuse fogFrame (1, 0.5)) 0 1 /\
  (maxRaymarchStepCount saturatedFog < INT_MAX)%Z /\
  maxDensity saturatedFog <= 1.01 /\
  0 <= postDensityMultiplier saturatedFog /\
  0 < postDensityPow saturatedFog /\
  march_init glsl_zero saturatedFog (cameraPos fogFrame)
    (computeWorldPosFromDepth glsl_zero fogFrame
       (sceneDepth fogFrame (1, 0.5)) (1, 0.5))
    (IVec2 (ftoi (fst (1, 0.5) * IZR (ix (resolution fogFrame))))
           (ftoi (snd (1, 0.5) * IZR (iy (resolution fogFrame)))))
  = Some unitRay /\
  0 <= stepLength saturatedFog unitRay * fogDensityMultiplier saturatedFog /\
  (exists st,
     march_loop glsl_zero saturatedFog (march_fuel saturatedFog) unitRay
     = Some (Done st) /\ 0 < density st) /\
  exists fog c : vec4,
    march glsl_zero saturatedFog (march_fuel saturatedFog) (cameraPos fogFrame)
      (computeWorldPosFromDepth glsl_zero fogFrame
         (sceneDepth fogFrame (1, 0.5)) (1, 0.5))
      (IVec2 (ftoi (fst (1, 0.5) * IZR (ix (resolution fogFrame))))
             (ftoi (snd (1, 0.5) * IZR (iy (resolution fogFrame)))))
    = Some fog /\
    (forall r st,
       march_init glsl_zero saturatedFog (cameraPos fogFrame)
         (computeWorldPosFromDepth glsl_zero fogFrame
            (sceneDepth fogFrame (1, 0.5)) (1, 0.5))
         (IVec2 (ftoi (fst (1, 0.5) * IZR (ix (resolution fogFrame))))
                (ftoi (snd (1, 0.5) * IZR (iy (resolution fogFrame)))))
       = Some r ->
       march_loop glsl_zero saturatedFog (march_fuel saturatedFog) r
       = Some (Done st) ->
       exists a,
         Partial.pow (density st * postDensityMultiplier saturatedFog)
                     (postDensityPow saturatedFog) = Some a /\
         ca fog = clamp a 0 1) /\
    main glsl_zero saturatedFog fogFrame true (march_fuel saturatedFog)
         (1, 0.5) = Some c /\
    c = Vec4 (mix (vx (sceneDiffuse fogFrame (1, 0.5))) (cr fog) (ca fog))
             (mix (vy (sceneDiffuse fogFrame (1, 0.5))) (cg fog) (ca fog))
             (mix (vz (sceneDiffuse fogFrame (1, 0.5))) (cb fog) (ca fog))
             1 /\
    0 <= cr c <= 1 /\ 0 <= cg c <= 1 /\ 0 <= cb c <= 1.
Proof.
  assert (H0 : channelsIn (sceneDiffuse fogFrame (1, 0.5)) 0 1)
    by (unfold channelsIn; cbn; lra).
  assert (H1 : (maxRaymarchStepCount saturatedFog < INT_MAX)%Z)
    by (cbn; unfold INT_MAX; lia).
  assert (H3 : maxDensity saturatedFog <= 1.01) by (cbn; lra).
  assert (H4 : 0 <= postDensityMultiplier saturatedFog) by (cbn; lra).
  assert (H5 : 0 < postDensityPow saturatedFog) by (cbn; lra).
  assert (HI : march_init glsl_zero saturatedFog (cameraPos fogFrame)
                 (computeWorldPosFromDepth glsl_zero fogFrame
                    (sceneDepth fogFrame (1, 0.5)) (1, 0.5))
                 (IVec2 (ftoi (fst (1, 0.5) * IZR (ix (resolution fogFrame))))
                        (ftoi (snd (1, 0.5) * IZR (iy (resolution fogFrame)))))
               = Some unitRay).
  { rewrite fogFrame_world. apply march_init_unitRay_at. }
  assert (Hs : 0 <= stepLength saturatedFog unitRay
                    * fogDensityMultiplier saturatedFog)
    by (rewrite stepLength_unitRay; cbn; lra).
  assert (H2 : forall r,
     march_init glsl_zero saturatedFog (cameraPos fogFrame)
       (computeWorldPosFromDepth glsl_zero fogFrame
          (sceneDepth fogFrame (1, 0.5)) (1, 0.5))
       (IVec2 (ftoi (fst (1, 0.5) * IZR (ix (resolution fogFrame))))
              (ftoi (snd (1, 0.5) * IZR (iy (resolution fogFrame)))))
     = Some r ->
     0 <= stepLength saturatedFog r * fogDensityMultiplier saturatedFog).
  { intros r Hr. rewrite HI in Hr. injection Hr as <-. exact Hs. }
  split; [exact H0|]. split; [exact H1|]. split; [exact H3|].
  split; [exact H4|]. split; [exact H5|]. split; [exact HI|].
  split; [exact Hs|]. split; [exact unitRay_loop_done|].
  exact (main_direct_compositing_in_unit_range glsl_zero saturatedFog fogFrame
           (1, 0.5) H0 H1 H2 H3 H4 H5).
Defined.

Lemma noiseTexel_at_most_254_witness :
  0 <= 0.5 < 1 /\ (0 <= noiseTexel 0.5 <= 254)%Z.
Proof.
  assert (H : 0 <= 0.5 < 1) by lra.
  split; [exact H|]. exact (noiseTexel_at_most_254 0.5 H).
Defined.

(** ** [updateUniforms] on a concrete pass *)

Module PassInstances.
Import Stdlib.Strings.String.
Import Pass.
Local Open Scope string_scope.

Lemma demoPass_fixed_keys :
  forall k, In k fixedKeys -> In k (keys (uniforms demoPass)).
Proof.
  intros k H. apply PassFacts.has_In.
  cbn in H. repeat (destruct H as [<- | H]; [reflexivity |]). contradiction.
Qed.

Lemma demoPass_params_NoDup : NoDup (keys (params demoPass)).
Proof.
  cbn. repeat constructor; cbn; intros H;
    repeat (destruct H as [H | H]; [discriminate H |]); exact H.
Qed.

Lemma demoPass_uniforms_NoDup : NoDup (keys (uniforms demoPass)).
Proof.
  cbn. repeat constructor; cbn; intros H;
    repeat (destruct H as [H | H]; [discriminate H |]); exact H.
Qed.

Lemma demoPass_updated : updateUniforms 7%Z 0%Z demoPass = Some demoTable.
Proof. vm_compute. reflexivity. Qed.

Lemma updateUniforms_spec_witness :
  (forall k, In k fixedKeys -> In k (keys (uniforms demoPass))) /\
  NoDup (keys (params demoPass)) /\
  exists t,
    updateUniforms 7%Z 0%Z demoPass = Some t /\
    keys t = keys (uniforms demoPass) /\
    forall k, In k (keys (uniforms demoPass)) ->
      get k t =
        if overrides demoPass k then get k (params demoPass)
        else match fixedValue 7%Z 0%Z demoPass k with
             | Some v => v
             | None => get k (uniforms demoPass)
             end.
Proof.
  split; [exact demoPass_fixed_keys|]. split; [exact demoPass_params_NoDup|].
  exact (PassFacts.updateUniforms_spec Z 7%Z 0%Z demoPass
           demoPass_fixed_keys demoPass_params_NoDup).
Defined.

Lemma updateUniforms_ambient_witness :
  (forall k, In k fixedKeys -> In k (keys (uniforms demoPass))) /\
  NoDup (keys (params demoPass)) /\
  updateUniforms 7%Z 0%Z demoPass = Some demoTable /\
  get "ambientLightColor" demoTable
  = coalesce (get "ambientLightColor" (params demoPass))
             (coalesce (ambientColor demoPass) (JsValue 7%Z)) /\
  get "ambientLightIntensity" demoTable
  = coalesce (get "ambientLightIntensity" (params demoPass))
             (coalesce (ambientIntensity demoPass) (JsValue 0%Z)) /\
  nullish (get "ambientLightColor" demoTable) = false /\
  nullish (get "ambientLightIntensity" demoTable) = false.
Proof.
  split; [exact demoPass_fixed_keys|]. split; [exact demoPass_params_NoDup|].
  split; [exact demoPass_updated|].
  exact (PassFacts.updateUniforms_ambient Z 7%Z 0%Z demoPass demoTable
           demoPass_fixed_keys demoPass_params_NoDup demoPass_updated).
Defined.

Lemma updateUniforms_ignores_unknown_key_witness :
  (forall k', In k' fixedKeys -> In k' (keys (uniforms demoPass))) /\
  ~ In "maxRayLength" (keys (uniforms demoPass)) /\
  updateUniforms 7%Z 0%Z
    (withParams demoPass
       ([("fogMinY", JsValue (-100)%Z)]
        ++ ("maxRayLength", JsValue 1000%Z) :: [("halfRes", JsValue 1%Z)])%list)
  = updateUniforms 7%Z 0%Z
      (withParams demoPass
         ([("fogMinY", JsValue (-100)%Z)] ++ [("halfRes", JsValue 1%Z)])%list).
Proof.
  assert (H : ~ In "maxRayLength" (keys (uniforms demoPass))).
  { cbn. intros H.
    repeat (destruct H as [H | H]; [discriminate H |]). exact H. }
  split; [exact demoPass_fixed_keys|]. split; [exact H|].
  exact (PassFacts.updateUniforms_ignores_unknown_key Z 7%Z 0%Z demoPass
           [("fogMinY", JsValue (-100)%Z)] [("halfRes", JsValue 1%Z)]
           "maxRayLength" (JsValue 1000%Z) demoPass_fixed_keys H).
Defined.

Lemma updateUniforms_idempotent_witness :
  (forall k, In k fixedKeys -> In k (keys (uniforms demoPass))) /\
  NoDup (keys (params demoPass)) /\
  NoDup (keys (uniforms demoPass)) /\
  updateUniforms 7%Z 0%Z demoPass = Some demoTable /\
  updateUniforms 7%Z 0%Z (withUniforms demoPass demoTable) = Some demoTable.
Proof.
  split; [exact demoPass_fixed_keys|]. split; [exact demoPass_params_NoDup|].
  split; [exact demoPass_uniforms_NoDup|]. split; [exact demoPass_updated|].
  exact (PassFacts.updateUniforms_idempotent Z 7%Z 0%Z demoPass demoTable
           demoPass_fixed_keys demoPass_params_NoDup demoPass_uniforms_NoDup
           demoPass_updated).
Defined.
End PassInstances.
